(** * techon: a stack language, its parser and its interpreter

    A shallow embedding of the Go packages [lexer], [parser], [runner] and of
    the [main] function, one Rocq module per package.

    Conventions of the embedding.
    - Go's [int] is the 64-bit two's complement integer: a [Z] kept in
      range by [wrap] after every arithmetic operation.
    - A program text is a [string]; each character stands for one rune as
      [bufio.Reader.ReadRune] delivers it, and a token's text is the string
      of its runes.  All tokens of the language are ASCII.
    - A Go slice of ints is [option (list Z)]: [None] is the nil slice, which
      the JSON encoder prints differently from an empty one.
    - Go maps are stdpp's [gmap]; [Machine.Variables] holds pointers that
      nothing else aliases, so a store through one is an update in the list.
    - A Go function returning [error] returns a machine together with
      [option string]; a run-time panic is a result of its own.
    - Recursion that the Go code leaves unbounded (nested statements, loops,
      inlined functions) takes a [fuel] argument and yields [None] when the
      fuel runs out.  More fuel never changes a result; the parser ends on
      every text ([Parse_total]), the interpreter need not. *)

From Stdlib Require Import ZArith Lia Ascii String List Bool DecimalString.
From stdpp Require Import base list strings gmap.

Local Set Warnings "-register-all".
Local Open Scope Z_scope.

(** ** Strings and integers of the Go run time *)

Definition dquote : string := String "034"%char "".

Definition quote (s : string) : string := dquote +:+ s +:+ dquote.

Definition min_int : Z := - 2 ^ 63.
Definition max_int : Z := 2 ^ 63 - 1.

(** Two's complement wrap-around of a 64-bit [int]. *)
Definition wrap (z : Z) : Z := (z + 2 ^ 63) mod 2 ^ 64 - 2 ^ 63.

Definition code (c : ascii) : N := N_of_ascii c.

Definition ascii_eqb (a b : ascii) : bool := Ascii.eqb a b.

Definition between (lo hi : N) (c : ascii) : bool :=
  (N.leb lo (code c)) && (N.leb (code c) hi).

Definition digit_val (c : ascii) : Z := Z.of_N (code c) - 48.

Definition is_dec_digit (c : ascii) : bool := between 48 57 c.

Fixpoint all_chars (p : ascii -> bool) (s : string) : bool :=
  match s with
  | EmptyString => true
  | String c tl => p c && all_chars p tl
  end.

Fixpoint dec_value (acc : Z) (s : string) : Z :=
  match s with
  | EmptyString => acc
  | String c tl => dec_value (10 * acc + digit_val c) tl
  end.

(** [strconv.Atoi]: an optional sign, then one or more decimal digits; the
    value has to fit an [int].  The result is the integer or the error. *)
Definition Atoi (s : string) : Z + string :=
  let syntax := inr ("strconv.Atoi: parsing " +:+ quote s +:+ ": invalid syntax") in
  let range := inr ("strconv.Atoi: parsing " +:+ quote s +:+ ": value out of range") in
  let digits (neg : bool) (d : string) :=
    match d with
    | EmptyString => syntax
    | _ =>
        if all_chars is_dec_digit d then
          let n := if neg then - dec_value 0 d else dec_value 0 d in
          if (min_int <=? n) && (n <=? max_int) then inl n else range
        else syntax
    end in
  match s with
  | EmptyString => syntax
  | String c tl =>
      if ascii_eqb c "-" then digits true tl
      else if ascii_eqb c "+" then digits false tl
      else digits false s
  end.

(** [strings.ToUpper] on ASCII text. *)
Definition upper_char (c : ascii) : ascii :=
  if between 97 122 c then ascii_of_N (code c - 32) else c.

Fixpoint ToUpper (s : string) : string :=
  match s with
  | EmptyString => EmptyString
  | String c tl => String (upper_char c) (ToUpper tl)
  end.

(** [strings.Split s " "]. *)
Fixpoint split_go (cur : string) (s : string) : list string :=
  match s with
  | EmptyString => [cur]
  | String c tl =>
      if ascii_eqb c " " then cur :: split_go "" tl
      else split_go (cur +:+ String c "") tl
  end.

Definition Split (s : string) : list string := split_go "" s.

(** A slice of ints: [None] is nil.  Every index and slice expression of
    the interpreter is guarded by a length test, so the defaults below are
    never reached. *)
Definition elems (s : option (list Z)) : list Z := default [] s.

Definition len (s : option (list Z)) : Z := Z.of_nat (length (elems s)).

Definition append (s : option (list Z)) (x : Z) : option (list Z) :=
  Some (elems s ++ [x]).

(** [s[:n]] *)
Definition upto (s : option (list Z)) (n : Z) : option (list Z) :=
  match s with
  | None => None
  | Some l => Some (take (Z.to_nat n) l)
  end.

(** [s[i]] *)
Definition at_ (s : option (list Z)) (i : Z) : Z :=
  nth (Z.to_nat i) (elems s) 0.

(** ** Package lexer *)

Module lexer.

Inductive Token : Set :=
  | ILLEGAL | EOF | WS
  | Variable_ | Ident | Number | Cells
  | Minus | Plus | Multiply | Divide | Modulus
  | EQ | LT | GT | LTE | GTE
  | Drop | Dup | Swap | Comment
  | Get | Store
  | If | Else | Then | While | Repeat
  | StartFunc | EndFunc
  | Quit.

#[export] Instance Token_eq_dec : EqDecision Token.
Proof. solve_decision. Defined.

Definition Token_String (t : Token) : string :=
  match t with
  | ILLEGAL => "ILLEGAL" | EOF => "EOF" | WS => "WS"
  | Variable_ => "Variable" | Ident => "Ident" | Number => "Number"
  | Cells => "Cells"
  | Minus => "Minus" | Plus => "Plus" | Multiply => "Multiply"
  | Divide => "Divide" | Modulus => "Modulus"
  | EQ => "EQ" | LT => "LT" | GT => "GT" | LTE => "LTE" | GTE => "GTE"
  | Drop => "Drop" | Dup => "Dup" | Swap => "Swap" | Comment => "Comment"
  | Get => "Get" | Store => "Store"
  | If => "If" | Else => "Else" | Then => "Then"
  | While => "While" | Repeat => "Repeat"
  | StartFunc => "StartFunc" | EndFunc => "EndFunc"
  | Quit => "Quit"
  end.

(** The end-of-input rune, [rune(0)]. *)
Definition eof : ascii := "000"%char.

(** Modelled from the spec: the three character classes [isWhitespace],
    [isDigit] and [isLetter], which the scanner calls and whose file is
    absent.  The spec has whitespace, numbers made of digits, and
    identifiers and keywords made of letters: blank, tab and newline; the
    decimal digits; the ASCII letters. *)
Definition isWhitespace (ch : ascii) : bool :=
  ascii_eqb ch " " || ascii_eqb ch "009" || ascii_eqb ch "010".

Definition isDigit (ch : ascii) : bool := between 48 57 ch.

Definition isLetter (ch : ascii) : bool := between 97 122 ch || between 65 90 ch.

(** The scanner is a [bufio.Reader] over the input.  [rest] is what is
    still unread.  [last] is the rune a call of [UnreadRune] would put
    back: it is set by a [ReadRune] that delivered a rune and cleared by a
    failed [ReadRune] and by every [UnreadRune], so that a second
    [UnreadRune] in a row does nothing.  The fields [line] and [col] are
    never used. *)
Record Scanner : Set := { rest : string; last : option ascii }.

Definition NewScanner (r : string) : Scanner := {| rest := r; last := None |}.

Definition read (s : Scanner) : ascii * Scanner :=
  match rest s with
  | EmptyString => (eof, {| rest := ""; last := None |})
  | String ch tl => (ch, {| rest := tl; last := Some ch |})
  end.

Definition unread (s : Scanner) : Scanner :=
  match last s with
  | Some ch => {| rest := String ch (rest s); last := None |}
  | None => s
  end.

(** The loop shared by [scanWhitespace], [scanIdent] and [scanNumber]:
    read a rune; stop on [eof]; on a rune outside [keep] unread it and stop;
    otherwise write it to the buffer and go on.  The recursion follows the
    unread input, which every [read] shortens. *)
Fixpoint scanLoop (keep : ascii -> bool) (r : string) (buf : string)
  : string * Scanner :=
  match r with
  | EmptyString => (buf, {| rest := ""; last := None |})
  | String ch tl =>
      let s1 := {| rest := tl; last := Some ch |} in
      if ascii_eqb ch eof then (buf, s1)
      else if negb (keep ch) then (buf, unread s1)
      else scanLoop keep tl (buf +:+ String ch "")
  end.

Definition scanWhitespace (s : Scanner) : Token * string * Scanner :=
  let (ch, s1) := read s in
  let (buf, s2) := scanLoop isWhitespace (rest s1) (String ch "") in
  (WS, buf, s2).

Definition identRune (ch : ascii) : bool :=
  negb (negb (isLetter ch) && negb (isDigit ch) && negb (ascii_eqb ch "_")).

Definition keyword (up : string) : option Token :=
  if String.eqb up "VARIABLE" then Some Variable_
  else if String.eqb up "CELLS" then Some Cells
  else if String.eqb up "IF" then Some If
  else if String.eqb up "ELSE" then Some Else
  else if String.eqb up "THEN" then Some Then
  else if String.eqb up "WHILE" then Some While
  else if String.eqb up "REPEAT" then Some Repeat
  else if String.eqb up "QUIT" then Some Quit
  else if String.eqb up "MOD" then Some Modulus
  else if String.eqb up "DROP" then Some Drop
  else if String.eqb up "DUP" then Some Dup
  else if String.eqb up "SWAP" then Some Swap
  else None.

Definition scanIdent (s : Scanner) : Token * string * Scanner :=
  let (ch, s1) := read s in
  let (buf, s2) := scanLoop identRune (rest s1) (String ch "") in
  match keyword (ToUpper buf) with
  | Some t => (t, buf, s2)
  | None => (Ident, buf, s2)
  end.

Definition scanNumber (s : Scanner) : Token * string * Scanner :=
  let (ch, s1) := read s in
  let (buf, s2) := scanLoop isDigit (rest s1) (String ch "") in
  (Number, buf, s2).

Definition scanComparator (s : Scanner) : Token * string * Scanner :=
  let (ch, s1) := read s in
  let buf := String ch "" in
  if ascii_eqb ch "=" then (EQ, buf, s1)
  else
    let (next, s2) := read s1 in
    let s3 := if negb (ascii_eqb next "=") then unread s2 else s2 in
    if negb (ascii_eqb next "=") && ascii_eqb ch "<" then (LT, buf, s3)
    else if negb (ascii_eqb next "=") && ascii_eqb ch ">" then (GT, buf, s3)
    else
      let buf' := buf +:+ String next "" in
      if ascii_eqb ch "<" then (LTE, buf', s3)
      else if ascii_eqb ch ">" then (GTE, buf', s3)
      else (ILLEGAL, buf', s3).

(** The loop of [scanComment]: stop on [eof]; otherwise write the rune and
    stop after a closing parenthesis. *)
Fixpoint commentLoop (r : string) (buf : string) : string * Scanner :=
  match r with
  | EmptyString => (buf, {| rest := ""; last := None |})
  | String ch tl =>
      let s1 := {| rest := tl; last := Some ch |} in
      if ascii_eqb ch eof then (buf, s1)
      else if ascii_eqb ch ")" then (buf +:+ String ch "", s1)
      else commentLoop tl (buf +:+ String ch "")
  end.

Definition scanComment (s : Scanner) : Token * string * Scanner :=
  let (ch, s1) := read s in
  let (buf, s2) := commentLoop (rest s1) (String ch "") in
  (Comment, buf, s2).

Definition Scan (s : Scanner) : Token * string * Scanner :=
  let (ch, s1) := read s in
  if isWhitespace ch then scanWhitespace (unread s1)
  else if isDigit ch then scanNumber (unread s1)
  else if ascii_eqb ch "-" then
    let (next, s2) := read s1 in
    let s3 := unread s2 in
    if isDigit next then scanNumber (unread s3)
    else (Minus, String ch "", s3)
  else if isLetter ch then scanIdent (unread s1)
  else if ascii_eqb ch "(" then scanComment (unread s1)
  else if ascii_eqb ch eof then (EOF, "", s1)
  else if ascii_eqb ch "+" then (Plus, String ch "", s1)
  else if ascii_eqb ch "*" then (Multiply, String ch "", s1)
  else if ascii_eqb ch "/" then (Divide, String ch "", s1)
  else if ascii_eqb ch ":" then (StartFunc, String ch "", s1)
  else if ascii_eqb ch ";" then (EndFunc, String ch "", s1)
  else if ascii_eqb ch "@" then (Get, String ch "", s1)
  else if ascii_eqb ch "!" then (Store, String ch "", s1)
  else if ascii_eqb ch "<" || ascii_eqb ch ">" || ascii_eqb ch "="
    then scanComparator (unread s1)
  else (ILLEGAL, String ch "", s1).

End lexer.

(** ** Package parser *)

Module parser.

Import lexer.

(** [Statement] is the empty interface; the values the parser builds and
    the interpreter tells apart are these.  A [Program] is a sequence of
    statements and is itself a statement. *)
Inductive Statement : Type :=
  | Program (l : list Statement)
  | DeclarationStatement (Name : string) (Cells : Z)
  | PushNumberStatement (Number : Z)
  | IdentifierCallStatement (Identifier : string)
  | DropStatement
  | DupStatement
  | SwapStatement
  | Comment (Body : string)
  | GetStatement
  | StoreStatement
  | MathOperationStatement (t : Token)
  | CompareOperationStatement (t : Token)
  | FunctionStatement (Name : string) (Body : list Statement)
  | IfStatement (Body ElseBody : list Statement)
  | WhileStatement (Body : list Statement)
  | QuitStatement.

Record lex : Set := { tok : Token; lit : string }.

Definition zero_lex : lex := {| tok := ILLEGAL; lit := "" |}.

Record Parser : Set :=
  { s : Scanner; buf : list lex; actual : Z; latest : Z }.

Definition NewParser (r : string) : Parser :=
  {| s := NewScanner r; buf := replicate 100 zero_lex; actual := 0; latest := 0 |}.

Definition buflen (p : Parser) : Z := Z.of_nat (length (buf p)).

(** Both cursors index the buffer, which has room for a lookahead of two.
    [NewParser] establishes this and [scan] and [unscan] keep it, so no
    index expression of the parser is out of range. *)
Definition ring_ok (p : Parser) : Prop :=
  3 <= buflen p /\ 0 <= actual p < buflen p /\ 0 <= latest p < buflen p.

(** The loop [for tok == lexer.WS] of [scan].  Every whitespace token takes
    at least one rune, so the length of the unread input bounds the number of
    rounds (lemma [skipWS_not_WS]). *)
Fixpoint skipWS (n : nat) (r : Token * string * Scanner)
  : Token * string * Scanner :=
  let '(t, _, sc) := r in
  match t, n with
  | WS, S n' => skipWS n' (Scan sc)
  | _, _ => r
  end.

Definition scan (p : Parser) : Token * string * Parser :=
  if negb (actual p =? latest p) then
    let lx := nth (Z.to_nat (actual p)) (buf p) zero_lex in
    (tok lx, lit lx,
     {| s := s p; buf := buf p;
        actual := Z.rem (actual p + 1) (buflen p); latest := latest p |})
  else
    let '(t, l, sc) := skipWS (String.length (rest (s p))) (Scan (s p)) in
    let latest' := Z.rem (latest p + 1) (buflen p) in
    (t, l,
     {| s := sc; buf := <[Z.to_nat (actual p) := {| tok := t; lit := l |}]> (buf p);
        actual := latest'; latest := latest' |}).

Definition unscan (p : Parser) : Parser :=
  let a := actual p - 1 in
  {| s := s p; buf := buf p;
     actual := if a <? 0 then buflen p - 1 else a; latest := latest p |}.

(** What a parsing method leaves behind: a value and the parser after it,
    the error it returned, or a run-time panic. *)
Inductive PRes (A : Type) : Type :=
  | Ok (a : A) (p : Parser)
  | Err (msg : string)
  | Panic (msg : string).
Arguments Ok {A} a p.
Arguments Err {A} msg.
Arguments Panic {A} msg.

Definition some_statement (r : PRes Statement) : PRes (option Statement) :=
  match r with
  | Ok st p => Ok (Some st) p
  | Err e => Err e
  | Panic e => Panic e
  end.

Definition tok_eqb (a b : Token) : bool := bool_decide (a = b).

Definition parseVariableDeclaration (p : Parser) : PRes Statement :=
  let '(_, _, p1) := scan p in
  let '(tok1, lit1, p2) := scan p1 in
  if negb (tok_eqb tok1 Ident) then Err "expected variable identifier"
  else
    let '(tok2, nr, p3) := scan p2 in
    let '(ntok, _, p4) := scan p3 in
    if tok_eqb tok2 Number && tok_eqb ntok Cells then
      match Atoi nr with
      | inr e => Err e
      | inl cells =>
          if cells <=? 0 then Err "array cannot have less than 1 cell"
          else Ok (DeclarationStatement lit1 cells) p4
      end
    else Ok (DeclarationStatement lit1 1) (unscan (unscan p4)).

Definition parsePushNumber (p : Parser) : PRes Statement :=
  let '(_, l, p1) := scan p in
  match Atoi l with
  | inr e => Err e
  | inl nr => Ok (PushNumberStatement nr) p1
  end.

Definition parseIdentifierCall (p : Parser) : PRes Statement :=
  let '(_, name, p1) := scan p in Ok (IdentifierCallStatement name) p1.

Definition parseMathOperation (p : Parser) : PRes Statement :=
  let '(t, _, p1) := scan p in Ok (MathOperationStatement t) p1.

Definition parseCompareOperation (p : Parser) : PRes Statement :=
  let '(t, _, p1) := scan p in Ok (CompareOperationStatement t) p1.

(** [lit[1 : len(lit)-1]]: the slice expression panics when the upper bound
    is below 1, which happens for the comment that is a lone opening
    parenthesis at the end of the input. *)
Definition comment_body (l : string) : option string :=
  let n := String.length l in
  if (n <? 2)%nat then None else Some (String.substring 1 (n - 2) l).

Definition invalid_token {A : Type} (t : Token) : PRes A :=
  Err ("found invalid token: " +:+ Token_String t).

(** [parseCommon] with the two statements that nest, [parseIfStatement] and
    [parseWhileStatement], and their loops.  In [ifLoop] the flag [inElse]
    says that [body] points at [ElseBody]. *)
Fixpoint parseCommon (fuel : nat) (p : Parser) : option (PRes (option Statement)) :=
  match fuel with
  | O => None
  | S n =>
      let '(t, l, p1) := scan p in
      match t with
      | Number => Some (some_statement (parsePushNumber (unscan p1)))
      | Ident => Some (some_statement (parseIdentifierCall (unscan p1)))
      | Minus | Plus | Multiply | Divide | Modulus =>
          Some (some_statement (parseMathOperation (unscan p1)))
      | EQ | LT | GT | LTE | GTE =>
          Some (some_statement (parseCompareOperation (unscan p1)))
      | Drop => Some (Ok (Some DropStatement) p1)
      | Dup => Some (Ok (Some DupStatement) p1)
      | Swap => Some (Ok (Some SwapStatement) p1)
      | lexer.Comment =>
          match comment_body l with
          | Some b => Some (Ok (Some (Comment b)) p1)
          | None => Some (Panic "slice bounds out of range")
          end
      | Get => Some (Ok (Some GetStatement) p1)
      | Store => Some (Ok (Some StoreStatement) p1)
      | If => option_map some_statement (parseIfStatement n (unscan p1))
      | While => option_map some_statement (parseWhileStatement n (unscan p1))
      | Quit => Some (Ok (Some QuitStatement) p1)
      | _ => Some (Ok None (unscan p1))
      end
  end
with parseIfStatement (fuel : nat) (p : Parser) : option (PRes Statement) :=
  match fuel with
  | O => None
  | S n => let '(_, _, p1) := scan p in ifLoop n p1 [] [] false
  end
with ifLoop (fuel : nat) (p : Parser) (Body ElseBody : list Statement)
    (inElse : bool) : option (PRes Statement) :=
  match fuel with
  | O => None
  | S n =>
      match parseCommon n p with
      | None => None
      | Some (Err e) => Some (Err e)
      | Some (Panic e) => Some (Panic e)
      | Some (Ok (Some st) p1) =>
          if inElse then ifLoop n p1 Body (ElseBody ++ [st]) inElse
          else ifLoop n p1 (Body ++ [st]) ElseBody inElse
      | Some (Ok None p1) =>
          let '(t, _, p2) := scan p1 in
          match t with
          | Then => Some (Ok (IfStatement Body ElseBody) p2)
          | Else =>
              if inElse then Some (Err "already in else")
              else ifLoop n p2 Body ElseBody true
          | _ => Some (invalid_token t)
          end
      end
  end
with parseWhileStatement (fuel : nat) (p : Parser) : option (PRes Statement) :=
  match fuel with
  | O => None
  | S n => let '(_, _, p1) := scan p in whileLoop n p1 []
  end
with whileLoop (fuel : nat) (p : Parser) (Body : list Statement)
  : option (PRes Statement) :=
  match fuel with
  | O => None
  | S n =>
      match parseCommon n p with
      | None => None
      | Some (Err e) => Some (Err e)
      | Some (Panic e) => Some (Panic e)
      | Some (Ok (Some st) p1) => whileLoop n p1 (Body ++ [st])
      | Some (Ok None p1) =>
          let '(t, _, p2) := scan p1 in
          match t with
          | Repeat => Some (Ok (WhileStatement Body) p2)
          | _ => Some (invalid_token t)
          end
      end
  end.

Fixpoint funcLoop (fuel : nat) (p : Parser) (Name : string)
    (Body : list Statement) : option (PRes Statement) :=
  match fuel with
  | O => None
  | S n =>
      match parseCommon n p with
      | None => None
      | Some (Err e) => Some (Err e)
      | Some (Panic e) => Some (Panic e)
      | Some (Ok (Some st) p1) => funcLoop n p1 Name (Body ++ [st])
      | Some (Ok None p1) =>
          let '(t, _, p2) := scan p1 in
          match t with
          | EndFunc => Some (Ok (FunctionStatement Name Body) p2)
          | _ => Some (invalid_token t)
          end
      end
  end.

Definition parseFunc (fuel : nat) (p : Parser) : option (PRes Statement) :=
  let '(_, _, p1) := scan p in
  let '(t, l, p2) := scan p1 in
  if negb (tok_eqb t Ident) then Some (Err "expected function identifier")
  else funcLoop fuel p2 l [].

Fixpoint parseProgram (fuel : nat) (p : Parser) (prog : list Statement)
  : option (PRes (list Statement)) :=
  match fuel with
  | O => None
  | S n =>
      match parseCommon n p with
      | None => None
      | Some (Err e) => Some (Err e)
      | Some (Panic e) => Some (Panic e)
      | Some (Ok (Some st) p1) => parseProgram n p1 (prog ++ [st])
      | Some (Ok None p1) =>
          let '(t, _, p2) := scan p1 in
          match t with
          | EOF => Some (Ok prog p2)
          | Variable_ =>
              match parseVariableDeclaration (unscan p2) with
              | Ok st p3 => parseProgram n p3 (prog ++ [st])
              | Err e => Some (Err e)
              | Panic e => Some (Panic e)
              end
          | StartFunc =>
              match parseFunc n (unscan p2) with
              | None => None
              | Some (Ok st p3) => parseProgram n p3 (prog ++ [st])
              | Some (Err e) => Some (Err e)
              | Some (Panic e) => Some (Panic e)
              end
          | _ => Some (invalid_token t)
          end
      end
  end.

Definition Parse (fuel : nat) (p : Parser) : option (PRes (list Statement)) :=
  parseProgram fuel p [].

End parser.

(** ** Package runner *)

Module runner.

Import lexer parser.

Record Variable_ : Set := { Name : string; Size : Z; Data : list Z }.

(** [Functions] maps a name to the function statement of that name, of which
    the interpreter reads the body only. *)
Record Machine : Type :=
  { Addresses : gmap string Z;
    Variables : list Variable_;
    Functions : gmap string (list Statement);
    Stack : option (list Z) }.

Definition NewMachine : Machine :=
  {| Addresses := ∅; Variables := []; Functions := ∅; Stack := None |}.

Definition set_Stack (m : Machine) (st : option (list Z)) : Machine :=
  {| Addresses := Addresses m; Variables := Variables m;
     Functions := Functions m; Stack := st |}.

Definition set_Variables (m : Machine) (vs : list Variable_) : Machine :=
  {| Addresses := Addresses m; Variables := vs;
     Functions := Functions m; Stack := Stack m |}.

(** How a method of the machine ends: it returns its [error] ([None] is
    nil) with the machine as it then is, or the run time panics. *)
Inductive Exit : Type :=
  | Returns (err : option string) (m : Machine)
  | Panics (msg : string).

Definition has {A : Type} (mp : gmap string A) (k : string) : bool :=
  bool_decide (is_Some (mp !! k)).

(** [make([]int, n)] panics on a negative length.  Memory is unbounded
    here: the model has no allocation failure for a large one. *)
Definition declareVariable (name : string) (cells : Z) (m : Machine) : Exit :=
  if cells <? 0 then Panics "makeslice: len out of range"
  else
    let v := {| Name := name; Size := cells;
                Data := replicate (Z.to_nat cells) 0 |} in
    if has (Addresses m) name then
      Returns (Some ("cannot redeclare variable " +:+ quote name)) m
    else if has (Functions m) name then
      Returns (Some ("cannot declare variable " +:+ quote name
                     +:+ ", function already exists with that name")) m
    else
      let addr :=
        if (0 <? length (Variables m))%nat then
          match Variables m !! (length (Variables m) - 1)%nat with
          | Some lastVar =>
              wrap (default 0 (Addresses m !! Name lastVar) + Size lastVar)
          | None => 0
          end
        else 0 in
      Returns None
        {| Addresses := <[name := addr]> (Addresses m);
           Variables := Variables m ++ [v];
           Functions := Functions m;
           Stack := Stack m |}.

Definition function (name : string) (body : list Statement) (m : Machine)
  : Exit :=
  if has (Addresses m) name then
    Returns (Some ("cannot define function " +:+ quote name
                   +:+ ", variable with this name already exists")) m
  else if has (Functions m) name then
    Returns (Some ("cannot redefine function " +:+ quote name)) m
  else
    Returns None
      {| Addresses := Addresses m; Variables := Variables m;
         Functions := <[name := body]> (Functions m); Stack := Stack m |}.

Definition pushNumber (n : Z) (m : Machine) : Exit :=
  Returns None (set_Stack m (append (Stack m) n)).

(** The [for _, v = range m.Variables] loop of [resolveVariable].  [v] is
    the loop variable, [None] while it is nil; a variable is given with its
    position in [m.Variables], which stands for the pointer.  The result is
    [v] and [caddr] when the loop is left. *)
Fixpoint resolveLoop (vars : list Variable_) (i : nat) (addr caddr : Z)
    (v : option (nat * Variable_)) : option (nat * Variable_) * Z :=
  match vars with
  | [] => (v, caddr)
  | x :: tl =>
      if (caddr <=? addr) && (addr <? wrap (caddr + Size x))
      then (Some (i, x), caddr)
      else resolveLoop tl (S i) addr (wrap (caddr + Size x)) (Some (i, x))
  end.

Definition resolveVariable (m : Machine) (addr : Z)
  : (nat * Variable_ * Z) + string :=
  let '(v, caddr) := resolveLoop (Variables m) 0 addr 0 None in
  match v with
  | None => inr "could not resolve address"
  | Some (i, x) =>
      if (addr <? caddr) || (addr >=? wrap (caddr + Size x))
      then inr "could not resolve address"
      else inl (i, x, wrap (addr - caddr))
  end.

(** A pointer to a cell: the position of the variable and the index in its
    [Data].  Taking [&v.Data[idx]] panics when the index is out of range. *)
Inductive Addr : Set :=
  | Cell (i : nat) (idx : nat)
  | NoAddr (err : string)
  | BadIndex.

Definition resolveAddr (m : Machine) (addr : Z) : Addr :=
  match resolveVariable m addr with
  | inr e => NoAddr e
  | inl (i, x, idx) =>
      if (0 <=? idx) && (idx <? Z.of_nat (length (Data x)))
      then Cell i (Z.to_nat idx)
      else BadIndex
  end.

(** [*ptr] *)
Definition load (m : Machine) (i idx : nat) : Z :=
  match Variables m !! i with
  | Some x => nth idx (Data x) 0
  | None => 0
  end.

(** [*ptr = val] *)
Definition poke (m : Machine) (i idx : nat) (val : Z) : Machine :=
  match Variables m !! i with
  | Some x =>
      set_Variables m
        (<[i := {| Name := Name x; Size := Size x;
                   Data := <[idx := val]> (Data x) |}]> (Variables m))
  | None => m
  end.

Definition index_panic : string := "index out of range".
Definition divide_panic : string := "integer divide by zero".

(** The five operators on [int]; [None] is the panic of a division by
    zero.  A statement built from any other token leaves [res] zero. *)
Definition mathResult (t : Token) (op1 op2 : Z) : option Z :=
  match t with
  | Minus => Some (wrap (op1 - op2))
  | Plus => Some (wrap (op1 + op2))
  | Multiply => Some (wrap (op1 * op2))
  | Divide => if op2 =? 0 then None else Some (wrap (Z.quot op1 op2))
  | Modulus => if op2 =? 0 then None else Some (wrap (Z.rem op1 op2))
  | _ => Some 0
  end.

Definition mathOperation (t : Token) (m : Machine) : Exit :=
  if len (Stack m) <? 2 then
    Returns (Some "cannot perform math operation, stack does not have 2 items") m
  else
    let op1 := at_ (Stack m) (len (Stack m) - 2) in
    let op2 := at_ (Stack m) (len (Stack m) - 1) in
    match mathResult t op1 op2 with
    | None => Panics divide_panic
    | Some res =>
        Returns None
          (set_Stack m (append (upto (Stack m) (len (Stack m) - 2)) res))
    end.

Definition drop (m : Machine) : Exit :=
  if len (Stack m) <? 1 then Returns (Some "cannot drop, stack empty") m
  else Returns None (set_Stack m (upto (Stack m) (len (Stack m) - 1))).

Definition dup (m : Machine) : Exit :=
  if len (Stack m) <? 1 then Returns (Some "cannot dup, stack empty") m
  else
    Returns None
      (set_Stack m (append (Stack m) (at_ (Stack m) (len (Stack m) - 1)))).

Definition swap (m : Machine) : Exit :=
  if len (Stack m) <? 2 then
    Returns (Some "cannot perform swap operation, stack does not have 2 items") m
  else
    let idx1 := len (Stack m) - 2 in
    let idx2 := len (Stack m) - 1 in
    let a := at_ (Stack m) idx1 in
    let b := at_ (Stack m) idx2 in
    Returns None
      (set_Stack m
         (Some (<[Z.to_nat idx2 := a]> (<[Z.to_nat idx1 := b]> (elems (Stack m)))))).

Definition compareResult (t : Token) (op1 op2 : Z) : bool :=
  match t with
  | EQ => op1 =? op2
  | LT => op1 <? op2
  | GT => op1 >? op2
  | LTE => op1 <=? op2
  | GTE => op1 >=? op2
  | _ => false
  end.

Definition compare (t : Token) (m : Machine) : Exit :=
  if len (Stack m) <? 2 then
    Returns (Some "cannot perform compare operation, stack does not have 2 items") m
  else
    let op1 := at_ (Stack m) (len (Stack m) - 2) in
    let op2 := at_ (Stack m) (len (Stack m) - 1) in
    let val := if compareResult t op1 op2 then 1 else 0 in
    Returns None
      (set_Stack m (append (upto (Stack m) (len (Stack m) - 2)) val)).

Definition get (m : Machine) : Exit :=
  if len (Stack m) <? 1 then Returns (Some "cannot perform if, stack empty") m
  else
    let addr := at_ (Stack m) (len (Stack m) - 1) in
    match resolveAddr m addr with
    | NoAddr e => Returns (Some e) m
    | BadIndex => Panics index_panic
    | Cell i idx =>
        Returns None
          (set_Stack m
             (append (upto (Stack m) (len (Stack m) - 1)) (load m i idx)))
    end.

Definition store (m : Machine) : Exit :=
  if len (Stack m) <? 2 then
    Returns (Some "cannot perform store operation, stack does not have 2 items") m
  else
    let val := at_ (Stack m) (len (Stack m) - 2) in
    let addr := at_ (Stack m) (len (Stack m) - 1) in
    match resolveAddr m addr with
    | NoAddr e => Returns (Some e) m
    | BadIndex => Panics index_panic
    | Cell i idx =>
        let m1 := poke m i idx val in
        Returns None (set_Stack m1 (upto (Stack m1) (len (Stack m1) - 2)))
    end.

(** The text that [debugComments] prints to the standard error stream is
    not part of the machine and is left out; its errors and panics are
    kept. *)
Definition debugComments (body : string) (m : Machine) : Exit :=
  let parts := Split body in
  if (length parts <? 2)%nat || negb (String.eqb (nth 0 parts "") "debug")
  then Returns None m
  else if String.eqb (nth 1 parts "") "stack" then Returns None m
  else if String.eqb (nth 1 parts "") "var" then
    if (length parts <? 3)%nat then Returns None m
    else
      match Addresses m !! nth 2 parts "" with
      | None => Returns (Some ("invalid variable " +:+ nth 2 parts "")) m
      | Some addr =>
          match resolveVariable m addr with
          | inr e => Returns (Some e) m
          | inl (i, x, idx) =>
              if (0 <=? idx) && (idx <? Z.of_nat (length (Data x)))
              then Returns None m
              else Panics index_panic
          end
      end
  else Returns None m.

(** [for _, st := range body { err := m.exec(st); if err != nil { return err } }]
    followed by [return nil]. *)
Definition execSeq (ex : Statement -> Machine -> option Exit)
  : list Statement -> Machine -> option Exit :=
  fix go (l : list Statement) (m : Machine) : option Exit :=
    match l with
    | [] => Some (Returns None m)
    | st :: tl =>
        match ex st m with
        | Some (Returns None m') => go tl m'
        | r => r
        end
    end.

Definition indentifierCall (ex : Statement -> Machine -> option Exit)
    (id : string) (m : Machine) : option Exit :=
  match Addresses m !! id with
  | Some addr => Some (Returns None (set_Stack m (append (Stack m) addr)))
  | None =>
      match Functions m !! id with
      | Some body => execSeq ex body m
      | None => Some (Returns (Some ("cannot resolve identifier " +:+ quote id)) m)
      end
  end.

Definition _if (ex : Statement -> Machine -> option Exit)
    (Body ElseBody : list Statement) (m : Machine) : option Exit :=
  if len (Stack m) <? 1 then
    Some (Returns (Some "cannot perform if, stack empty") m)
  else
    let val := at_ (Stack m) (len (Stack m) - 1) in
    let m1 := set_Stack m (upto (Stack m) (len (Stack m) - 1)) in
    if negb (val =? 0) then execSeq ex Body m1
    else if (0 <? length ElseBody)%nat then execSeq ex ElseBody m1
    else Some (Returns None m1).

(** [exec] and the loop of [while].  Each call of [exec] and each round of
    the loop takes one unit of fuel. *)
Fixpoint exec (fuel : nat) (st : Statement) (m : Machine) : option Exit :=
  match fuel with
  | O => None
  | S n =>
      match st with
      | Program l => execSeq (exec n) l m
      | Comment b => Some (debugComments b m)
      | DeclarationStatement name cells => Some (declareVariable name cells m)
      | FunctionStatement name body => Some (function name body m)
      | PushNumberStatement k => Some (pushNumber k m)
      | IdentifierCallStatement id => indentifierCall (exec n) id m
      | MathOperationStatement t => Some (mathOperation t m)
      | DropStatement => Some (drop m)
      | DupStatement => Some (dup m)
      | SwapStatement => Some (swap m)
      | CompareOperationStatement t => Some (compare t m)
      | GetStatement => Some (get m)
      | StoreStatement => Some (store m)
      | IfStatement b e => _if (exec n) b e m
      | WhileStatement b => while n b m
      | QuitStatement => Some (Returns None m)
      end
  end
with while (fuel : nat) (Body : list Statement) (m : Machine) : option Exit :=
  match fuel with
  | O => None
  | S n =>
      if len (Stack m) <? 1 then
        Some (Returns (Some "cannot perform while, stack empty") m)
      else
        let val := at_ (Stack m) (len (Stack m) - 1) in
        let m1 := set_Stack m (upto (Stack m) (len (Stack m) - 1)) in
        if val =? 0 then Some (Returns None m1)
        else
          match execSeq (exec n) Body m1 with
          | Some (Returns None m2) => while n Body m2
          | r => r
          end
  end.

Definition Execute (fuel : nat) (st : Statement) (m : Machine) : option Exit :=
  exec fuel st m.

End runner.

(** ** The command *)

Module techon.

Import parser runner.

Definition itoa (z : Z) : string := NilZero.string_of_int (Z.to_int z).

Fixpoint join_ints (l : list Z) : string :=
  match l with
  | [] => ""
  | [x] => itoa x
  | x :: tl => itoa x +:+ "," +:+ join_ints tl
  end.

Definition newline : string := String "010"%char "".

(** [json.NewEncoder(os.Stdout).Encode] of a slice of ints: the nil slice is
    the JSON value null, any other slice a JSON array; a newline follows. *)
Definition Encode (st : option (list Z)) : string :=
  match st with
  | None => "null" +:+ newline
  | Some l => "[" +:+ join_ints l +:+ "]" +:+ newline
  end.

(** A run up to the point where [main] inspects the result. *)
Inductive Run : Type :=
  | ParseFailed (err : string)
  | ParsePanicked (msg : string)
  | Executed (e : Exit).

Definition run (fuel : nat) (stdin : string) : option Run :=
  match Parse fuel (NewParser stdin) with
  | None => None
  | Some (Err e) => Some (ParseFailed e)
  | Some (Panic e) => Some (ParsePanicked e)
  | Some (Ok prog _) =>
      match Execute fuel (Program prog) NewMachine with
      | None => None
      | Some e => Some (Executed e)
      end
  end.

(** What the process does: print to standard output and end normally;
    [log.Fatal] with an error; or die of a panic. *)
Inductive Outcome : Set :=
  | Stdout (out : string)
  | Fatal (err : string)
  | Crash (msg : string).

Definition main (fuel : nat) (stdin : string) : option Outcome :=
  match run fuel stdin with
  | None => None
  | Some (ParseFailed e) => Some (Fatal e)
  | Some (ParsePanicked e) => Some (Crash e)
  | Some (Executed (Returns (Some e) _)) => Some (Fatal e)
  | Some (Executed (Panics e)) => Some (Crash e)
  | Some (Executed (Returns None m)) => Some (Stdout (Encode (Stack m)))
  end.

End techon.

(** * Vocabulary of the properties *)

(** [g] returns whatever [f] returns: used for a function at two amounts of
    fuel. *)
Definition stable {A B : Type} (f g : A -> option B) : Prop :=
  forall a r, f a = Some r -> g a = Some r.

Definition stable2 {A B C : Type} (f g : A -> B -> option C) : Prop :=
  forall a b r, f a b = Some r -> g a b = Some r.

(** The least stack depth each stack-consuming statement asks for. *)
Definition min_depth (st : parser.Statement) : option Z :=
  match st with
  | parser.DropStatement | parser.DupStatement | parser.GetStatement => Some 1
  | parser.IfStatement _ _ | parser.WhileStatement _ => Some 1
  | parser.MathOperationStatement _ | parser.CompareOperationStatement _ => Some 2
  | parser.SwapStatement | parser.StoreStatement => Some 2
  | _ => None
  end.

(** The number of cells of a list of variables, and the address at which
    the variable at position [i] starts when the regions lie one after the
    other in the order of the list. *)
Definition sum_sizes (vs : list runner.Variable_) : Z :=
  foldr (fun x acc => runner.Size x + acc) 0 vs.

Definition base (vs : list runner.Variable_) (i : nat) : Z :=
  sum_sizes (take i vs).

(** Every variable owns as many cells as its size says. *)
Definition cells_ok (m : runner.Machine) : Prop :=
  Forall (fun x => 0 <= runner.Size x /\
                   length (runner.Data x) = Z.to_nat (runner.Size x))
         (runner.Variables m).

(** The address map sends every variable to the start of its region. *)
Definition addresses_ok (m : runner.Machine) : Prop :=
  forall i x, runner.Variables m !! i = Some x ->
    runner.Addresses m !! runner.Name x = Some (base (runner.Variables m) i).

(** What every machine reached by the interpreter satisfies.  The address
    map is right as long as the cells in use can be counted in an [int]. *)
Definition inv (m : runner.Machine) : Prop :=
  cells_ok m /\ (sum_sizes (runner.Variables m) <= max_int -> addresses_ok m).

(** A method, or the interpreter, hands on a machine that satisfies [inv]
    when it is given one. *)
Definition keeps_inv (f : runner.Machine -> runner.Exit) : Prop :=
  forall m e m', inv m -> f m = runner.Returns e m' -> inv m'.

Definition keeps_inv' {A : Type} (f : A -> runner.Machine -> option runner.Exit)
  : Prop :=
  forall a m e m', inv m -> f a m = Some (runner.Returns e m') -> inv m'.

(** Machines and programs used as examples. *)
Definition one_cell : runner.Machine :=
  {| runner.Addresses := {["x" := 0]};
     runner.Variables := [{| runner.Name := "x"; runner.Size := 1;
                             runner.Data := [7] |}];
     runner.Functions := ∅;
     runner.Stack := None |}.

Definition three_declarations : parser.Statement :=
  parser.Program
    [parser.DeclarationStatement "a" 3; parser.DeclarationStatement "b" 1;
     parser.DeclarationStatement "c" 2].

Definition three_variables : runner.Machine :=
  match runner.exec 2 three_declarations runner.NewMachine with
  | Some (runner.Returns _ m) => m
  | _ => runner.NewMachine
  end.

(** The parser that a parsing method hands on has its cursors in range. *)
Definition to_ring_ok {A : Type} (r : option (parser.PRes A)) : Prop :=
  forall x p', r = Some (parser.Ok x p') -> parser.ring_ok p'.

(** A measure of what the parser has left to read: two for every rune the
    scanner has not read and one for every token other than [EOF] that was
    pushed back and waits between the cursors.  At most two tokens ever
    wait. *)
Definition ne (t : lexer.Token) : nat :=
  if parser.tok_eqb t lexer.EOF then 0%nat else 1%nat.

Definition nxt (p : parser.Parser) (a : Z) : Z :=
  if a + 1 =? parser.buflen p then 0 else a + 1.

Definition slot_ne (p : parser.Parser) (a : Z) : nat :=
  ne (parser.tok (nth (Z.to_nat a) (parser.buf p) parser.zero_lex)).

Definition waiting (p : parser.Parser) : nat :=
  if parser.actual p =? parser.latest p then 0%nat
  else if nxt p (parser.actual p) =? parser.latest p
       then slot_ne p (parser.actual p)
       else (slot_ne p (parser.actual p)
             + slot_ne p (nxt p (parser.actual p)))%nat.

Definition to_read (p : parser.Parser) : nat :=
  (2 * String.length (lexer.rest (parser.s p)) + waiting p)%nat.

Definition none_waiting (p : parser.Parser) : Prop :=
  parser.actual p = parser.latest p.

Definition one_waiting (p : parser.Parser) : Prop :=
  none_waiting p \/ nxt p (parser.actual p) = parser.latest p.

Definition two_waiting (p : parser.Parser) : Prop :=
  one_waiting p \/ nxt p (nxt p (parser.actual p)) = parser.latest p.

Definition good (p : parser.Parser) : Prop :=
  parser.ring_ok p /\ two_waiting p.

(** A parsing method that hands on a parser hands on one with less to
    read; [parseCommon] may also find no statement and hand on one with no
    more to read than before. *)
Definition moved_on {A : Type} (p : parser.Parser) (r : parser.PRes A) : Prop :=
  match r with
  | parser.Ok _ p' => good p' /\ (to_read p' < to_read p)%nat
  | _ => True
  end.

Definition common_ok (p : parser.Parser)
    (r : parser.PRes (option parser.Statement)) : Prop :=
  match r with
  | parser.Ok (Some _) p' => good p' /\ (to_read p' < to_read p)%nat
  | parser.Ok None p' => good p' /\ (to_read p' <= to_read p)%nat
  | _ => True
  end.

(** From [f0] on, the amount of fuel does not matter: the result is [r]. *)
Definition settles {A : Type} (run : nat -> option A) (f0 : nat) (r : A) : Prop :=
  forall f, (f0 <= f)%nat -> run f = Some r.

(** The name and the size of a variable: what a declaration fixes for
    good. *)
Definition shape (x : runner.Variable_) : string * Z :=
  (runner.Name x, runner.Size x).

(** [m'] has everything [m] has: the same addresses and functions under the
    same names, the same variables at the same places, and possibly more. *)
Definition extends (m m' : runner.Machine) : Prop :=
  runner.Addresses m ⊆ runner.Addresses m' /\
  runner.Functions m ⊆ runner.Functions m' /\
  (shape <$> runner.Variables m) `prefix_of` (shape <$> runner.Variables m').

(** The address map knows exactly the names of the variables, no two
    variables share a name, and no name is both a variable and a
    function. *)
Definition names_ok (m : runner.Machine) : Prop :=
  (forall name, is_Some (runner.Addresses m !! name) <->
                name ∈ runner.Name <$> runner.Variables m) /\
  NoDup (runner.Name <$> runner.Variables m) /\
  (forall name, is_Some (runner.Addresses m !! name) ->
                runner.Functions m !! name = None).

(** A property of machines that the four ways of changing a machine keep:
    replacing the stack, writing a cell, declaring a variable, defining a
    function. *)
Definition closed_under_steps (P : runner.Machine -> Prop) : Prop :=
  (forall m s, P m -> P (runner.set_Stack m s)) /\
  (forall m i idx v, P m -> P (runner.poke m i idx v)) /\
  (forall m name cells e m',
     P m -> runner.declareVariable name cells m = runner.Returns e m' -> P m') /\
  (forall m name body e m',
     P m -> runner.function name body m = runner.Returns e m' -> P m').

Definition double_definition : parser.Statement :=
  parser.FunctionStatement "double"
    [parser.PushNumberStatement 2; parser.MathOperationStatement lexer.Multiply].

Definition double_defined : runner.Machine :=
  match runner.exec 1 double_definition runner.NewMachine with
  | Some (runner.Returns _ m) => m
  | _ => runner.NewMachine
  end.

Definition forever_defined : runner.Machine :=
  {| runner.Addresses := ∅; runner.Variables := [];
     runner.Functions := {["f" := [parser.IdentifierCallStatement "f"]]};
     runner.Stack := None |}.

(** A token as the parser may hold it in its buffer: not whitespace, and a
    number only with a text of decimal digits. *)
Definition lex_ok (x : parser.lex) : Prop :=
  parser.tok x <> lexer.WS /\
  (parser.tok x = lexer.Number ->
   parser.lit x <> "" /\ all_chars lexer.isDigit (parser.lit x) = true).

(** The parser states met while parsing: the cursors are in range, at most
    two tokens wait, and the buffer holds tokens as above. *)
Definition tidy (p : parser.Parser) : Prop :=
  good p /\ Forall lex_ok (parser.buf p).

(** The statements of the grammar's [CommonStmt]: those that may stand in
    any body.  A number is not negative, an operator is one of the five of
    its kind, and the bodies of If and While hold common statements again. *)
Fixpoint common (st : parser.Statement) : bool :=
  match st with
  | parser.PushNumberStatement n => (0 <=? n) && (n <=? max_int)
  | parser.IdentifierCallStatement _ => true
  | parser.DropStatement | parser.DupStatement | parser.SwapStatement => true
  | parser.Comment _ => true
  | parser.GetStatement | parser.StoreStatement | parser.QuitStatement => true
  | parser.MathOperationStatement t =>
      match t with
      | lexer.Minus | lexer.Plus | lexer.Multiply | lexer.Divide
      | lexer.Modulus => true
      | _ => false
      end
  | parser.CompareOperationStatement t =>
      match t with
      | lexer.EQ | lexer.LT | lexer.GT | lexer.LTE | lexer.GTE => true
      | _ => false
      end
  | parser.IfStatement b e => forallb common b && forallb common e
  | parser.WhileStatement b => forallb common b
  | parser.Program _ | parser.DeclarationStatement _ _
  | parser.FunctionStatement _ _ => false
  end.

(** The statements of a program: a declaration of at least one cell, a
    function of common statements, or a common statement. *)
Definition top_level (st : parser.Statement) : bool :=
  match st with
  | parser.DeclarationStatement _ c => (0 <? c) && (c <=? max_int)
  | parser.FunctionStatement _ b => forallb common b
  | _ => common st
  end.

(** What a parsing method may hand on: a statement that [ok] accepts and a
    tidy parser. *)
Definition statement_ok (ok : parser.Statement -> bool)
    (r : parser.PRes parser.Statement) : Prop :=
  match r with
  | parser.Ok st p' => tidy p' /\ ok st = true
  | _ => True
  end.

(** The same for [parseCommon], which may find no statement. *)
Definition common_found (r : parser.PRes (option parser.Statement)) : Prop :=
  match r with
  | parser.Ok (Some st) p' => tidy p' /\ common st = true
  | parser.Ok None p' => tidy p'
  | _ => True
  end.

(** The program a parse may hand on. *)
Definition program_ok (r : parser.PRes (list parser.Statement)) : Prop :=
  match r with
  | parser.Ok prog _ => forallb top_level prog = true
  | _ => True
  end.

(** The tokens with which a common statement starts. *)
Definition starts_common (t : lexer.Token) : bool :=
  match t with
  | lexer.Number | lexer.Ident
  | lexer.Minus | lexer.Plus | lexer.Multiply | lexer.Divide | lexer.Modulus
  | lexer.EQ | lexer.LT | lexer.GT | lexer.LTE | lexer.GTE
  | lexer.Drop | lexer.Dup | lexer.Swap | lexer.Comment
  | lexer.Get | lexer.Store | lexer.If | lexer.While | lexer.Quit => true
  | _ => false
  end.

(** The runes of a comment's body: any but the closing parenthesis and the
    end-of-input rune. *)
Definition in_comment (c : ascii) : bool :=
  negb (ascii_eqb c ")") && negb (ascii_eqb c lexer.eof).


(** A word: a letter, then letters, digits and underscores. *)
Definition word (w : string) : bool :=
  match w with
  | EmptyString => false
  | String c tl => lexer.isLetter c && all_chars lexer.identRune tl
  end.

(** What may follow a word: the end of the input, or a rune that is none
    of a word. *)
Definition ends_word (tail : string) : bool :=
  match tail with
  | EmptyString => true
  | String c _ => negb (lexer.identRune c)
  end.

(** The parser after one more token. *)
Definition scanned (p : parser.Parser) : parser.Parser := snd (parser.scan p).

Definition declaration_input : parser.Parser :=
  parser.NewParser "VARIABLE x 3 5".


(** * Properties *)

(** ** Integers and slices *)

Lemma wrap_id (z : Z) : min_int <= z <= max_int -> wrap z = z.
Proof.
  unfold wrap, min_int, max_int. intros H.
  rewrite Z.mod_small; lia.
Qed.

Lemma wrap_range (z : Z) : min_int <= wrap z <= max_int.
Proof.
  unfold wrap, min_int, max_int.
  pose proof (Z.mod_pos_bound (z + 2 ^ 63) (2 ^ 64)). lia.
Qed.

Lemma len_nonneg (s : option (list Z)) : 0 <= len s.
Proof. unfold len. lia. Qed.

Lemma len_snoc (l : list Z) (x : Z) : len (Some (l ++ [x])) = len (Some l) + 1.
Proof. unfold len. simpl. rewrite length_app. simpl. lia. Qed.

Lemma len_append (s : option (list Z)) (x : Z) : len (append s x) = len s + 1.
Proof. unfold append, len. simpl. rewrite length_app. simpl. lia. Qed.

Lemma elems_append (s : option (list Z)) (x : Z) :
  elems (append s x) = elems s ++ [x].
Proof. reflexivity. Qed.

(** A slice of length at least one ends in its top element. *)
Lemma slice_top (s : option (list Z)) :
  1 <= len s -> exists l a, s = Some (l ++ [a]).
Proof.
  destruct s as [l|]; unfold len; simpl; [|lia].
  intros H. induction l as [|a l' _] using rev_ind; simpl in H; [lia|].
  eauto.
Qed.

Lemma slice_top2 (s : option (list Z)) :
  2 <= len s -> exists l a b, s = Some (l ++ [a; b]).
Proof.
  intros H. destruct (slice_top s) as (l & b & ->); [lia|].
  rewrite len_snoc in H.
  destruct (slice_top (Some l)) as (l' & a & Hl); [lia|].
  injection Hl as ->. exists l', a, b. by rewrite <- app_assoc.
Qed.

Lemma len_two (l : list Z) (a b : Z) :
  len (Some (l ++ [a; b])) = Z.of_nat (length l) + 2.
Proof. unfold len. simpl. rewrite length_app. simpl. lia. Qed.

Lemma len_one (l : list Z) (a : Z) :
  len (Some (l ++ [a])) = Z.of_nat (length l) + 1.
Proof. unfold len. simpl. rewrite length_app. simpl. lia. Qed.

Lemma at_top (l : list Z) (a : Z) :
  at_ (Some (l ++ [a])) (len (Some (l ++ [a])) - 1) = a.
Proof.
  rewrite len_one. unfold at_. simpl.
  replace (Z.to_nat (Z.of_nat (length l) + 1 - 1)) with (length l) by lia.
  rewrite app_nth2 by lia. by rewrite Nat.sub_diag.
Qed.

Lemma at_top2 (l : list Z) (a b : Z) :
  at_ (Some (l ++ [a; b])) (len (Some (l ++ [a; b])) - 1) = b.
Proof.
  replace (l ++ [a; b]) with ((l ++ [a]) ++ [b]) by (by rewrite <- app_assoc).
  apply at_top.
Qed.

Lemma at_second (l : list Z) (a b : Z) :
  at_ (Some (l ++ [a; b])) (len (Some (l ++ [a; b])) - 2) = a.
Proof.
  rewrite len_two. unfold at_. simpl.
  replace (Z.to_nat (Z.of_nat (length l) + 2 - 2)) with (length l) by lia.
  rewrite app_nth2 by lia. by rewrite Nat.sub_diag.
Qed.

Lemma upto_top (l : list Z) (a : Z) :
  upto (Some (l ++ [a])) (len (Some (l ++ [a])) - 1) = Some l.
Proof.
  rewrite len_one. unfold upto.
  replace (Z.to_nat (Z.of_nat (length l) + 1 - 1)) with (length l) by lia.
  by rewrite take_app_length.
Qed.

Lemma upto_top2 (l : list Z) (a b : Z) :
  upto (Some (l ++ [a; b])) (len (Some (l ++ [a; b])) - 2) = Some l.
Proof.
  rewrite len_two. unfold upto.
  replace (Z.to_nat (Z.of_nat (length l) + 2 - 2)) with (length l) by lia.
  by rewrite take_app_length.
Qed.

(** ** Fuel: more fuel never changes a result *)

Module parser_fuel.

Import lexer parser.

Local Ltac step_common IH :=
  match goal with
  | H : context [match parseCommon ?n ?p with _ => _ end] |- _ =>
      let E := fresh "E" in
      destruct (parseCommon n p) as [[[?|] ?|?|?]|] eqn:E;
      [ apply IH in E; rewrite E; clear E ..| discriminate H ]
  end.

Lemma nested_mono (n : nat) :
  forall m, (n <= m)%nat ->
    stable (parseCommon n) (parseCommon m) /\
    stable (parseIfStatement n) (parseIfStatement m) /\
    (forall b e i, stable (fun p => ifLoop n p b e i) (fun p => ifLoop m p b e i)) /\
    stable (parseWhileStatement n) (parseWhileStatement m) /\
    (forall b, stable (fun p => whileLoop n p b) (fun p => whileLoop m p b)).
Proof.
  unfold stable.
  induction n as [|n IH]; intros m Hm.
  { repeat split; intros; discriminate. }
  destruct m as [|m]; [lia|].
  destruct (IH m ltac:(lia)) as (IHc & IHi & IHil & IHw & IHwl).
  repeat split.
  - intros p r. simpl. destruct (scan p) as [[t l] p1].
    destruct t; try done.
    + destruct (parseIfStatement n (unscan p1)) eqn:E; [|discriminate].
      apply IHi in E. by rewrite E.
    + destruct (parseWhileStatement n (unscan p1)) eqn:E; [|discriminate].
      apply IHw in E. by rewrite E.
  - intros p r. simpl. destruct (scan p) as [[t l] p1]. apply IHil.
  - intros b e i p r. simpl. intros H. step_common IHc; try done.
    + destruct i; by apply IHil.
    + destruct (scan _) as [[t l] p2]. destruct t; try done.
      destruct i; [done|]. by apply IHil.
  - intros p r. simpl. destruct (scan p) as [[t l] p1]. apply IHwl.
  - intros b p r. simpl. intros H. step_common IHc; try done.
    by apply IHwl.
Qed.

Lemma parseCommon_mono (n m : nat) :
  (n <= m)%nat -> stable (parseCommon n) (parseCommon m).
Proof. intros H. by destruct (nested_mono n m H). Qed.

Lemma funcLoop_mono (n : nat) :
  forall m name b, (n <= m)%nat ->
    stable (fun p => funcLoop n p name b) (fun p => funcLoop m p name b).
Proof.
  unfold stable.
  induction n as [|n IH]; intros m name b Hm p r; [discriminate|].
  destruct m as [|m]; [lia|]. simpl. intros H.
  pose proof (parseCommon_mono n m ltac:(lia)) as IHc. unfold stable in IHc.
  step_common IHc; try done.
  apply IH; [lia|done].
Qed.

Lemma parseFunc_mono (n m : nat) :
  (n <= m)%nat -> stable (parseFunc n) (parseFunc m).
Proof.
  intros Hm p r. unfold parseFunc.
  destruct (scan p) as [[t l] p1]. destruct (scan p1) as [[t1 l1] p2].
  destruct (negb _); [done|]. by apply funcLoop_mono.
Qed.

Lemma parseProgram_mono (n : nat) :
  forall m prog, (n <= m)%nat ->
    stable (fun p => parseProgram n p prog) (fun p => parseProgram m p prog).
Proof.
  unfold stable.
  induction n as [|n IH]; intros m prog Hm p r; [discriminate|].
  destruct m as [|m]; [lia|]. simpl. intros H.
  pose proof (parseCommon_mono n m ltac:(lia)) as IHc. unfold stable in IHc.
  step_common IHc; try done.
  - apply IH; [lia|done].
  - destruct (scan _) as [[t l] p2]. destruct t; try done.
    + destruct (parseVariableDeclaration _); try done. apply IH; [lia|done].
    + destruct (parseFunc n (unscan p2)) as [x|] eqn:E; [|discriminate].
      apply (parseFunc_mono n m ltac:(lia)) in E. rewrite E.
      destruct x; try done. apply IH; [lia|done].
Qed.

Lemma Parse_mono (n m : nat) (p : Parser) (r : PRes (list Statement)) :
  (n <= m)%nat -> Parse n p = Some r -> Parse m p = Some r.
Proof. intros H. by apply parseProgram_mono. Qed.

End parser_fuel.

Module runner_fuel.

Import lexer parser runner.

Lemma execSeq_mono (f g : Statement -> Machine -> option Exit) :
  stable2 f g ->
  forall l m r, execSeq f l m = Some r -> execSeq g l m = Some r.
Proof.
  intros Hfg l. induction l as [|st tl IH]; intros m r; simpl; [done|].
  destruct (f st m) as [x|] eqn:E; [|discriminate].
  apply Hfg in E. rewrite E.
  destruct x as [[e|] m'|]; try done. apply IH.
Qed.

Lemma exec_while_mono (n : nat) :
  forall k, (n <= k)%nat ->
    stable2 (exec n) (exec k) /\
    (forall b m r, while n b m = Some r -> while k b m = Some r).
Proof.
  induction n as [|n IH]; intros k Hk.
  { split; [intros ? ? ?|intros ? ? ?]; discriminate. }
  destruct k as [|k]; [lia|].
  destruct (IH k ltac:(lia)) as (IHe & IHw).
  pose proof (execSeq_mono _ _ IHe) as IHs.
  split.
  - intros st m r. simpl. destruct st; try done.
    + apply IHs.
    + unfold indentifierCall. destruct (_ !! _); [done|].
      destruct (_ !! _); [apply IHs|done].
    + unfold _if. destruct (_ <? _); [done|].
      destruct (negb _); [apply IHs|]. destruct (_ <? _)%nat; [apply IHs|done].
    + apply IHw.
  - intros b m r. simpl. destruct (_ <? _); [done|].
    destruct (_ =? _); [done|].
    destruct (execSeq (exec n) b _) as [x|] eqn:E; [|discriminate].
    apply IHs in E. rewrite E.
    destruct x as [[e|] m'|]; try done. apply IHw.
Qed.

Lemma exec_mono (n k : nat) (st : Statement) (m : Machine) (r : Exit) :
  (n <= k)%nat -> exec n st m = Some r -> exec k st m = Some r.
Proof. intros H. by apply (exec_while_mono n k H). Qed.

End runner_fuel.

Module techon_fuel.

Import parser runner techon.

Lemma run_mono (n k : nat) (text : string) (r : Run) :
  (n <= k)%nat -> run n text = Some r -> run k text = Some r.
Proof.
  intros H. unfold run.
  destruct (Parse n _) as [x|] eqn:E; [|discriminate].
  apply (parser_fuel.Parse_mono n k _ _ H) in E. rewrite E.
  destruct x; try done. unfold Execute.
  destruct (exec n _ _) as [x|] eqn:E2; [|discriminate].
  apply (runner_fuel.exec_mono n k _ _ _ H) in E2. by rewrite E2.
Qed.

Lemma run_more (n k : nat) (text : string) (r : Run) :
  run n text = Some r -> run (n + k) text = Some r.
Proof. apply run_mono. lia. Qed.

Lemma main_more (n k : nat) (text : string) (o : Outcome) :
  main n text = Some o -> main (n + k) text = Some o.
Proof.
  unfold main. destruct (run n text) as [r|] eqn:E; [|discriminate].
  apply (run_more n k) in E. by rewrite E.
Qed.

Lemma run_functional (n k : nat) (text : string) (r1 r2 : Run) :
  run n text = Some r1 -> run k text = Some r2 -> r1 = r2.
Proof.
  intros H1 H2.
  apply (run_mono n (Nat.max n k)) in H1; [|lia].
  apply (run_mono k (Nat.max n k)) in H2; [|lia].
  congruence.
Qed.

End techon_fuel.

(** ** Stack operations *)

Module stack_ops.

Import lexer parser runner techon.

Lemma mathOperation_on (m : Machine) (t : Token) (l : list Z) (a b : Z) :
  Stack m = Some (l ++ [a; b]) ->
  mathOperation t m =
    match mathResult t a b with
    | Some res => Returns None (set_Stack m (Some (l ++ [res])))
    | None => Panics divide_panic
    end.
Proof.
  intros H. unfold mathOperation. rewrite H.
  rewrite at_second, at_top2, upto_top2, len_two.
  destruct (Z.ltb_spec (Z.of_nat (length l) + 2) 2); [lia|]. reflexivity.
Qed.

(** C5.  On a stack of depth two or more a math operation takes the top
    two values away and puts one result in their place, the value below the
    top being the left operand and the top the right one; the values
    underneath stay.  The arithmetic is that of Go's [int] (results wrap
    around, division truncates).  The program [5 3 -] ends with the stack
    [2]. *)
Theorem mathOperation_pops_two_pushes_one :
  (forall (m : Machine) (k : nat),
     2 <= len (Stack m) ->
     exists rest op1 op2,
       Stack m = Some (rest ++ [op1; op2]) /\
       exec (S k) (MathOperationStatement Plus) m =
         Some (Returns None (set_Stack m (Some (rest ++ [wrap (op1 + op2)])))) /\
       exec (S k) (MathOperationStatement Minus) m =
         Some (Returns None (set_Stack m (Some (rest ++ [wrap (op1 - op2)])))) /\
       exec (S k) (MathOperationStatement Multiply) m =
         Some (Returns None (set_Stack m (Some (rest ++ [wrap (op1 * op2)])))) /\
       (op2 <> 0 ->
        exec (S k) (MathOperationStatement Divide) m =
          Some (Returns None (set_Stack m (Some (rest ++ [wrap (op1 ÷ op2)])))) /\
        exec (S k) (MathOperationStatement Modulus) m =
          Some (Returns None
                  (set_Stack m (Some (rest ++ [wrap (Z.rem op1 op2)])))))) /\
  (forall k, exists m,
     run (20 + k) "5 3 -" = Some (Executed (Returns None m)) /\
     Stack m = Some [2]).
Proof.
  split.
  - intros m k H. destruct (slice_top2 _ H) as (rest & a & b & Hs).
    exists rest, a, b. split; [done|]. simpl.
    rewrite !(mathOperation_on m _ rest a b Hs). simpl.
    repeat split; try done.
    + destruct (Z.eqb_spec b 0); [done|]. done.
    + destruct (Z.eqb_spec b 0); [done|]. done.
  - intros k. eexists. split.
    + apply techon_fuel.run_more. vm_compute. reflexivity.
    + reflexivity.
Qed.

(** The stack [7, 5, 3]: minus leaves [7, 2]. *)
Lemma mathOperation_pops_two_pushes_one_witness :
  2 <= len (Some [7; 5; 3]) /\
  exists rest op1 op2,
    Some [7; 5; 3] = Some (rest ++ [op1; op2]) /\
    exec 1 (MathOperationStatement Minus) (set_Stack NewMachine (Some [7; 5; 3])) =
      Some (Returns None
              (set_Stack (set_Stack NewMachine (Some [7; 5; 3]))
                 (Some (rest ++ [wrap (op1 - op2)])))).
Proof.
  split; [vm_compute; discriminate|].
  destruct (proj1 mathOperation_pops_two_pushes_one
              (set_Stack NewMachine (Some [7; 5; 3])) 0%nat)
    as (rest & a & b & Hs & _ & Hm & _).
  - vm_compute. discriminate.
  - exists rest, a, b. split; [exact Hs | exact Hm].
Defined.

(** C6.  With zero on top of the stack a division or a modulus is a
    run-time panic: [mathOperation] returns neither a result nor an error,
    nothing tests the divisor first, and the process dies of it. *)
Theorem division_by_zero_panics :
  (forall (m : Machine) (k : nat),
     2 <= len (Stack m) ->
     at_ (Stack m) (len (Stack m) - 1) = 0 ->
     exec (S k) (MathOperationStatement Divide) m = Some (Panics divide_panic) /\
     exec (S k) (MathOperationStatement Modulus) m = Some (Panics divide_panic)) /\
  (forall k, main (20 + k) "1 0 /" = Some (Crash divide_panic)) /\
  (forall k, main (20 + k) "1 0 MOD" = Some (Crash divide_panic)).
Proof.
  split; [|split].
  - intros m k H H0. destruct (slice_top2 _ H) as (rest & a & b & Hs).
    rewrite Hs, at_top2 in H0. subst b. simpl.
    rewrite !(mathOperation_on m _ rest a 0 Hs). done.
  - intros k. apply techon_fuel.main_more. vm_compute. reflexivity.
  - intros k. apply techon_fuel.main_more. vm_compute. reflexivity.
Qed.

(** The stack [4, 0]: the division panics. *)
Lemma division_by_zero_panics_witness :
  2 <= len (Some [4; 0]) /\
  at_ (Some [4; 0]) (len (Some [4; 0]) - 1) = 0 /\
  exec 1 (MathOperationStatement Divide) (set_Stack NewMachine (Some [4; 0])) =
    Some (Panics divide_panic).
Proof.
  split; [vm_compute; discriminate|]. split; [reflexivity|].
  apply (proj1 division_by_zero_panics (set_Stack NewMachine (Some [4; 0])) 0%nat).
  - vm_compute. discriminate.
  - reflexivity.
Defined.

(** C7.  A statement that takes values from the stack, run on a stack
    below the depth it asks for, returns an error and leaves the machine as
    it was: stack, variables and tables.  The same holds for the test that
    [while] makes before every round. *)
Theorem below_min_depth_fails :
  (forall (st : Statement) (d : Z) (m : Machine) (k : nat),
     min_depth st = Some d ->
     len (Stack m) < d ->
     exists msg, exec (S (S k)) st m = Some (Returns (Some msg) m)) /\
  (forall (Body : list Statement) (m : Machine) (k : nat),
     len (Stack m) < 1 ->
     exists msg, while (S k) Body m = Some (Returns (Some msg) m)).
Proof.
  split.
  - intros st d m k Hd Hlen.
    destruct st; simpl in Hd; try discriminate; injection Hd as <-;
      cbn [exec while];
      unfold drop, dup, swap, get, store, mathOperation, compare, _if;
      (destruct (Z.ltb_spec (len (Stack m)) 1); [|lia]) ||
      (destruct (Z.ltb_spec (len (Stack m)) 2); [|lia]);
      eauto.
  - intros Body m k Hlen. cbn [while].
    destruct (Z.ltb_spec (len (Stack m)) 1); [|lia]. eauto.
Qed.

(** Swap on a stack of one value. *)
Lemma below_min_depth_fails_witness :
  min_depth SwapStatement = Some 2 /\
  len (Some [1]) < 2 /\
  exists msg,
    exec 2 SwapStatement (set_Stack NewMachine (Some [1])) =
      Some (Returns (Some msg) (set_Stack NewMachine (Some [1]))).
Proof.
  split; [reflexivity|]. split; [reflexivity|].
  apply (proj1 below_min_depth_fails SwapStatement 2
           (set_Stack NewMachine (Some [1])) 0%nat); reflexivity.
Defined.

End stack_ops.

(** ** The address space *)

Module address_space.

Import lexer parser runner techon.

Lemma sum_sizes_app (vs ws : list Variable_) :
  sum_sizes (vs ++ ws) = sum_sizes vs + sum_sizes ws.
Proof. induction vs as [|x vs IH]; simpl; [done|]. rewrite IH. lia. Qed.

Lemma sum_sizes_nonneg (vs : list Variable_) :
  Forall (fun x => 0 <= Size x) vs -> 0 <= sum_sizes vs.
Proof. induction 1; simpl; lia. Qed.

Lemma sum_sizes_sizes (vs ws : list Variable_) :
  Size <$> vs = Size <$> ws -> sum_sizes vs = sum_sizes ws.
Proof.
  revert ws. induction vs as [|x vs IH]; intros [|y ws] H; try done.
  simpl in *. injection H as H1 H2. rewrite H1. f_equal. by apply IH.
Qed.

Lemma base_sizes (vs ws : list Variable_) (i : nat) :
  Size <$> vs = Size <$> ws -> base vs i = base ws i.
Proof.
  intros H. apply sum_sizes_sizes. rewrite !fmap_take. by rewrite H.
Qed.

Lemma base_le_total (vs : list Variable_) (i : nat) :
  Forall (fun x => 0 <= Size x) vs -> 0 <= base vs i <= sum_sizes vs.
Proof.
  intros H. unfold base.
  rewrite <- (take_drop i vs) at 3. rewrite sum_sizes_app.
  pose proof (sum_sizes_nonneg (take i vs) (Forall_take _ _ _ H)).
  pose proof (sum_sizes_nonneg (skipn i vs) (Forall_drop _ _ _ H)). lia.
Qed.

Lemma base_S (vs : list Variable_) (i : nat) (x : Variable_) :
  vs !! i = Some x -> base vs (S i) = base vs i + Size x.
Proof.
  intros H. unfold base. rewrite (take_S_r _ _ _ H), sum_sizes_app. simpl. lia.
Qed.

Lemma cells_ok_sizes (m : Machine) :
  cells_ok m -> Forall (fun x => 0 <= Size x) (Variables m).
Proof. intros H. eapply Forall_impl; [exact H|]. by intros x [? _]. Qed.

Lemma base_mono (vs : list Variable_) (i j : nat) (x : Variable_) :
  Forall (fun x => 0 <= Size x) vs ->
  (i < j)%nat -> vs !! i = Some x -> base vs i + Size x <= base vs j.
Proof.
  intros Hs Hij Hx. rewrite <- (base_S _ _ _ Hx).
  unfold base. replace j with (S i + (j - S i))%nat by lia.
  rewrite <- take_take_drop, sum_sizes_app.
  pose proof (sum_sizes_nonneg (take (j - S i) (skipn (S i) vs))
                (Forall_take _ _ _ (Forall_drop _ _ _ Hs))). lia.
Qed.

(** *** Address resolution *)

Lemma resolveLoop_at (pre post : list Variable_) (x : Variable_) (addr : Z) :
  forall i caddr v,
    Forall (fun y => 0 <= Size y) pre -> 0 <= Size x -> 0 <= caddr ->
    caddr + sum_sizes pre + Size x <= max_int ->
    caddr + sum_sizes pre <= addr < caddr + sum_sizes pre + Size x ->
    resolveLoop (pre ++ x :: post) i addr caddr v
    = (Some ((i + length pre)%nat, x), caddr + sum_sizes pre).
Proof.
  induction pre as [|y pre IH]; intros i caddr v Hpre Hx Hc Hmax Ha; simpl in *.
  - rewrite wrap_id by (unfold min_int; lia).
    destruct (Z.leb_spec caddr addr); [|lia].
    destruct (Z.ltb_spec addr (caddr + Size x)); [|lia]. simpl.
    f_equal; [f_equal; f_equal; lia | lia].
  - inversion Hpre as [|? ? Hy Hpre']; subst.
    pose proof (sum_sizes_nonneg pre Hpre').
    rewrite wrap_id by (unfold min_int; lia).
    destruct (Z.ltb_spec addr (caddr + Size y)); [lia|].
    rewrite andb_false_r.
    rewrite IH; try done; try lia.
    f_equal; [f_equal; f_equal; lia | lia].
Qed.

(** An address inside the address space lies in the region of exactly one
    variable. *)
Lemma find_region (vs : list Variable_) (a : Z) :
  Forall (fun y => 0 <= Size y) vs -> 0 <= a < sum_sizes vs ->
  exists pre x post,
    vs = pre ++ x :: post /\ sum_sizes pre <= a < sum_sizes pre + Size x.
Proof.
  induction vs as [|y vs IH] using rev_ind; simpl; [lia|].
  intros H Ha. apply Forall_app in H as [Hvs Hy].
  rewrite sum_sizes_app in Ha. simpl in Ha.
  destruct (Z.lt_ge_cases a (sum_sizes vs)) as [Hlt|Hge].
  - destruct IH as (pre & x & post & -> & Hx); [done|lia|].
    exists pre, x, (post ++ [y]). split; [|done].
    by rewrite <- app_assoc.
  - exists vs, y, []. split; [done|lia].
Qed.

Lemma resolveAddr_at (m : Machine) (pre post : list Variable_) (x : Variable_)
    (a : Z) :
  cells_ok m -> sum_sizes (Variables m) <= max_int ->
  Variables m = pre ++ x :: post ->
  sum_sizes pre <= a < sum_sizes pre + Size x ->
  resolveAddr m a = Cell (length pre) (Z.to_nat (a - sum_sizes pre)).
Proof.
  intros Hok Hmax Hvs Ha.
  pose proof (cells_ok_sizes m Hok) as Hs. unfold cells_ok in Hok.
  rewrite Hvs in Hok, Hs, Hmax.
  apply Forall_app in Hs as [Hpre Hs]. inversion Hs as [|? ? Hx Hpost]; subst.
  apply Forall_app in Hok as [_ Hok]. inversion Hok as [|? ? [_ Hlen] _]; subst.
  rewrite sum_sizes_app in Hmax. simpl in Hmax.
  pose proof (sum_sizes_nonneg pre Hpre).
  pose proof (sum_sizes_nonneg post Hpost).
  unfold resolveAddr, resolveVariable. rewrite Hvs.
  rewrite (resolveLoop_at pre post x a 0%nat 0 None) by (try done; lia).
  simpl. rewrite !Z.add_0_l.
  rewrite !wrap_id by (unfold min_int; lia).
  destruct (Z.ltb_spec a (sum_sizes pre)); [lia|].
  destruct (Z.geb_spec a (sum_sizes pre + Size x)); [lia|]. simpl.
  destruct (Z.leb_spec 0 (a - sum_sizes pre)); [|lia].
  destruct (Z.ltb_spec (a - sum_sizes pre) (Z.of_nat (length (Data x)))); [|lia].
  reflexivity.
Qed.

(** Outside the regions the loop of [resolveVariable] runs through every
    variable: it ends with the last one in hand and the number of all cells
    as current address. *)
Lemma resolveLoop_outside (vs : list Variable_) (addr : Z) :
  forall i caddr v,
    Forall (fun y => 0 <= Size y) vs -> 0 <= caddr ->
    caddr + sum_sizes vs <= max_int ->
    addr < caddr \/ caddr + sum_sizes vs <= addr ->
    exists v',
      resolveLoop vs i addr caddr v = (v', caddr + sum_sizes vs) /\
      (vs = [] -> v' = v) /\
      (forall pre x, vs = pre ++ [x] -> v' = Some ((i + length pre)%nat, x)).
Proof.
  induction vs as [|y vs IH]; intros i caddr v Hvs Hc Hmax Ha; simpl in *.
  - exists v. rewrite Z.add_0_r. split; [done|]. split; [done|].
    intros pre x H. by destruct pre.
  - inversion Hvs as [|? ? Hy Hvs']; subst.
    pose proof (sum_sizes_nonneg vs Hvs').
    rewrite wrap_id by (unfold min_int; lia).
    assert ((caddr <=? addr) && (addr <? caddr + Size y) = false) as ->.
    { destruct (Z.leb_spec caddr addr), (Z.ltb_spec addr (caddr + Size y));
        simpl; try done; lia. }
    destruct (IH (S i) (caddr + Size y) (Some (i, y))) as (v' & Hl & H0 & H1);
      try done; try lia.
    exists v'. split; [rewrite Hl; f_equal; lia|]. split; [done|].
    intros pre x Hpre. destruct pre as [|y' pre]; simpl in Hpre.
    + injection Hpre as -> ->. rewrite (H0 eq_refl). simpl.
      do 3 f_equal. lia.
    + injection Hpre as -> ->. rewrite (H1 pre x eq_refl). simpl.
      do 3 f_equal. lia.
Qed.

Lemma resolveAddr_no_variables (m : Machine) (a : Z) :
  Variables m = [] -> resolveAddr m a = NoAddr "could not resolve address".
Proof. intros H. unfold resolveAddr, resolveVariable. by rewrite H. Qed.

Lemma resolveAddr_negative (m : Machine) (a : Z) :
  cells_ok m -> sum_sizes (Variables m) <= max_int -> a < 0 ->
  resolveAddr m a = NoAddr "could not resolve address".
Proof.
  intros Hok Hmax Ha. pose proof (cells_ok_sizes m Hok) as Hs.
  pose proof (sum_sizes_nonneg _ Hs).
  destruct (resolveLoop_outside (Variables m) a 0%nat 0 None)
    as (v' & Hl & _ & _); try done; try lia.
  unfold resolveAddr, resolveVariable. rewrite Hl, Z.add_0_l.
  destruct v' as [[i x]|]; [|done].
  destruct (Z.ltb_spec a (sum_sizes (Variables m))); [done|lia].
Qed.

(** The addresses that follow the last region.  Those within the size of
    the last variable resolve into that variable; only the ones further out
    are rejected. *)
Lemma resolveAddr_after_last (m : Machine) (pre : list Variable_)
    (x : Variable_) (a : Z) :
  cells_ok m -> Variables m = pre ++ [x] ->
  sum_sizes (Variables m) + Size x <= max_int ->
  sum_sizes (Variables m) <= a ->
  resolveAddr m a =
    if a <? sum_sizes (Variables m) + Size x
    then Cell (length pre) (Z.to_nat (a - sum_sizes (Variables m)))
    else NoAddr "could not resolve address".
Proof.
  intros Hok Hvs Hmax Ha. pose proof (cells_ok_sizes m Hok) as Hs.
  pose proof (sum_sizes_nonneg _ Hs).
  assert (0 <= Size x /\ length (Data x) = Z.to_nat (Size x)) as [Hx Hlen].
  { unfold cells_ok in Hok. rewrite Hvs in Hok.
    apply Forall_app in Hok as [_ Hok]. by inversion Hok. }
  destruct (resolveLoop_outside (Variables m) a 0%nat 0 None)
    as (v' & Hl & _ & Hv); try done; try lia.
  rewrite (Hv pre x Hvs) in Hl.
  unfold resolveAddr, resolveVariable. rewrite Hl, Z.add_0_l. simpl.
  rewrite !wrap_id by (unfold min_int; lia).
  destruct (Z.ltb_spec a (sum_sizes (Variables m))); [lia|].
  destruct (Z.geb_spec a (sum_sizes (Variables m) + Size x)),
           (Z.ltb_spec a (sum_sizes (Variables m) + Size x));
    simpl; try done; try lia.
  rewrite !wrap_id by (unfold min_int; lia).
  destruct (Z.leb_spec 0 (a - sum_sizes (Variables m))); [|lia].
  destruct (Z.ltb_spec (a - sum_sizes (Variables m))
              (Z.of_nat (length (Data x)))); [done|lia].
Qed.

(** *** Store and Get *)

Lemma store_on (m : Machine) (l : list Z) (v a : Z) (i idx : nat) :
  Stack m = Some (l ++ [v; a]) ->
  resolveAddr m a = Cell i idx ->
  store m = Returns None (set_Stack (poke m i idx v) (Some l)).
Proof.
  intros Hs Hr. unfold store.
  assert (Stack (poke m i idx v) = Stack m) as Hp.
  { unfold poke. by destruct (_ !! _). }
  rewrite Hs, at_second, at_top2, Hr. cbv zeta.
  rewrite Hp, Hs, upto_top2, len_two.
  destruct (Z.ltb_spec (Z.of_nat (length l) + 2) 2); [lia|]. reflexivity.
Qed.

Lemma get_on (m : Machine) (l : list Z) (a : Z) (i idx : nat) :
  Stack m = Some (l ++ [a]) ->
  resolveAddr m a = Cell i idx ->
  get m = Returns None (set_Stack m (Some (l ++ [load m i idx]))).
Proof.
  intros Hs Hr. unfold get.
  rewrite Hs, at_top, upto_top, len_one, Hr.
  destruct (Z.ltb_spec (Z.of_nat (length l) + 1) 1); [lia|]. reflexivity.
Qed.

(** C4.  On a machine whose variables own their cells, for an address [a]
    inside the address space: push [v], push [a], Store succeeds, takes both
    values off the stack (the address from the top, the value from below
    it) and leaves [v] in the cell of [a]; push [a], Get then puts exactly
    [v] on top of the stack as it was. *)
Theorem get_after_store (m : Machine) (a v : Z) (k : nat) :
  cells_ok m ->
  sum_sizes (Variables m) <= max_int ->
  0 <= a < sum_sizes (Variables m) ->
  exists m1 m2 i idx,
    exec (S (S k))
      (Program [PushNumberStatement v; PushNumberStatement a; StoreStatement]) m
      = Some (Returns None m1) /\
    elems (Stack m1) = elems (Stack m) /\
    resolveAddr m1 a = Cell i idx /\ load m1 i idx = v /\
    exec (S (S k)) (Program [PushNumberStatement a; GetStatement]) m1
      = Some (Returns None m2) /\
    elems (Stack m2) = elems (Stack m) ++ [v].
Proof.
  intros Hok Hmax Ha.
  destruct (find_region _ a (cells_ok_sizes m Hok) Ha)
    as (pre & x & post & Hvs & Hx).
  set (idx := Z.to_nat (a - sum_sizes pre)).
  set (x' := {| Name := Name x; Size := Size x; Data := <[idx := v]> (Data x) |}).
  set (s0 := elems (Stack m)).
  set (ma := set_Stack (set_Stack m (append (Stack m) v))
               (append (Stack (set_Stack m (append (Stack m) v))) a)).
  assert (resolveAddr ma a = Cell (length pre) idx) as Hr.
  { apply (resolveAddr_at ma pre post x a); done. }
  assert (Variables m !! length pre = Some x) as Hlk.
  { rewrite Hvs. by apply list_lookup_middle. }
  set (m1 := set_Stack (poke ma (length pre) idx v) (Some s0)).
  assert (Variables m1 = pre ++ x' :: post) as Hvs1.
  { unfold m1, poke. simpl. rewrite Hlk. simpl. rewrite Hvs.
    by rewrite insert_app_r_alt, Nat.sub_diag by lia. }
  assert (length (Data x) = Z.to_nat (Size x) /\ 0 <= Size x) as [Hlen Hsz].
  { unfold cells_ok in Hok. rewrite Forall_lookup in Hok.
    by destruct (Hok _ _ Hlk). }
  assert (cells_ok m1) as Hok1.
  { unfold cells_ok. rewrite Hvs1.
    unfold cells_ok in Hok. rewrite Hvs in Hok.
    apply Forall_app in Hok as [Hpre Hpost].
    inversion Hpost as [|? ? Hxx Hpost']; subst.
    apply Forall_app. split; [done|]. constructor; [|done].
    simpl. by rewrite length_insert. }
  assert (sum_sizes (Variables m1) = sum_sizes (Variables m)) as Hsum.
  { rewrite Hvs1, Hvs, !sum_sizes_app. reflexivity. }
  set (mb := set_Stack m1 (append (Stack m1) a)).
  assert (resolveAddr mb a = Cell (length pre) idx) as Hr1.
  { apply (resolveAddr_at mb pre post x' a); try done.
    change (Variables mb) with (Variables m1). by rewrite Hsum. }
  assert (load mb (length pre) idx = v) as Hload.
  { unfold load. change (Variables mb) with (Variables m1).
    rewrite Hvs1, list_lookup_middle by done. simpl.
    apply nth_lookup_Some with (d := 0), list_lookup_insert_eq.
    unfold idx. lia. }
  exists m1, (set_Stack mb (Some (s0 ++ [v]))), (length pre), idx.
  split; [|split; [|split; [|split; [|split]]]]; try done.
  - cbn [exec execSeq pushNumber]. fold ma.
    rewrite (store_on ma s0 v a (length pre) idx); [done| |done].
    unfold ma, append. simpl. by rewrite <- app_assoc.
  - cbn [exec execSeq pushNumber]. fold mb.
    rewrite (get_on mb s0 a (length pre) idx); [|done|done].
    by rewrite Hload.
Qed.

(** *** What the interpreter keeps true *)

Lemma inv_NewMachine : inv NewMachine.
Proof.
  split; [constructor|]. intros _ i x H. simpl in H. by rewrite lookup_nil in H.
Qed.

Lemma inv_set_Stack (m : Machine) (s : option (list Z)) :
  inv m -> inv (set_Stack m s).
Proof. intros H. exact H. Qed.

Lemma inv_poke (m : Machine) (i idx : nat) (v : Z) :
  inv m -> inv (poke m i idx v).
Proof.
  intros [Hok Haddr]. unfold poke.
  destruct (Variables m !! i) as [x|] eqn:Hx; [|done].
  set (x' := {| Name := Name x; Size := Size x; Data := <[idx:=v]> (Data x) |}).
  assert (Size <$> <[i:=x']> (Variables m) = Size <$> Variables m) as Hsz.
  { rewrite list_fmap_insert. apply list_insert_id.
    by rewrite list_lookup_fmap, Hx. }
  split.
  - unfold cells_ok in *. simpl. apply Forall_insert; [done|].
    rewrite Forall_lookup in Hok. destruct (Hok _ _ Hx) as [H1 H2].
    simpl. by rewrite length_insert.
  - simpl. rewrite (sum_sizes_sizes _ _ Hsz). intros Hmax j y Hy.
    cbn [Variables Addresses set_Variables] in Hy |- *.
    rewrite (base_sizes _ _ j Hsz).
    destruct (decide (j = i)) as [->|Hne].
    + rewrite list_lookup_insert_eq in Hy by (by eapply lookup_lt_Some).
      injection Hy as <-. simpl. by apply Haddr.
    + rewrite list_lookup_insert_ne in Hy by done. by apply Haddr.
Qed.

(** A declaration that succeeds appends the variable and gives it the
    number of cells declared so far as its address. *)
Lemma declareVariable_success (m m' : Machine) (name : string) (cells : Z) :
  inv m ->
  declareVariable name cells m = Returns None m' ->
  0 <= cells /\
  Addresses m !! name = None /\
  Variables m' =
    Variables m ++ [{| Name := name; Size := cells;
                       Data := replicate (Z.to_nat cells) 0 |}] /\
  Functions m' = Functions m /\ Stack m' = Stack m /\
  exists addr, Addresses m' = <[name := addr]> (Addresses m) /\
    (sum_sizes (Variables m) <= max_int -> addr = sum_sizes (Variables m)).
Proof.
  intros [Hok Haddr]. unfold declareVariable, has.
  destruct (Z.ltb_spec cells 0); [done|].
  case_bool_decide as Ha; [done|].
  case_bool_decide as Hf; [done|].
  intros [= <-]. simpl.
  split; [done|]. split; [by apply eq_None_not_Some|].
  do 3 (split; [done|]).
  eexists. split; [reflexivity|].
  intros Hmax.
  destruct (Variables m) as [|y0 vs0] eqn:Hvs using rev_ind; [done|].
  clear IHvs0. rewrite length_app. simpl.
  destruct (Nat.ltb_spec 0 (length vs0 + 1)); [|lia].
  replace (length vs0 + 1 - 1)%nat with (length vs0) by lia.
  rewrite list_lookup_middle by done.
  specialize (Haddr Hmax (length vs0) y0).
  rewrite Hvs, list_lookup_middle in Haddr by done.
  rewrite Haddr by done. simpl.
  unfold base. rewrite take_app_length, sum_sizes_app. simpl.
  pose proof (cells_ok_sizes m Hok) as Hs. rewrite Hvs in Hs.
  pose proof (sum_sizes_nonneg _ Hs) as Hnn.
  rewrite sum_sizes_app in Hnn, Hmax. simpl in Hnn, Hmax.
  rewrite Z.add_0_r in *.
  apply wrap_id. unfold min_int. lia.
Qed.

Lemma inv_declareVariable (m m' : Machine) (name : string) (cells : Z)
    (e : option string) :
  inv m -> declareVariable name cells m = Returns e m' -> inv m'.
Proof.
  intros Hinv Hd. destruct e as [e|].
  { unfold declareVariable in Hd. repeat case_match; by simplify_eq. }
  destruct (declareVariable_success m m' name cells Hinv Hd)
    as (Hc & Hfresh & Hvs & _ & _ & addr & Hmap & Haddr).
  destruct Hinv as [Hok Hold].
  pose proof (cells_ok_sizes m Hok) as Hs.
  pose proof (sum_sizes_nonneg _ Hs) as Hnn.
  split.
  - unfold cells_ok. rewrite Hvs. apply Forall_app. split; [done|].
    constructor; [|done]. simpl. by rewrite length_replicate.
  - unfold addresses_ok. rewrite Hvs, sum_sizes_app. simpl. intros Hmax i x Hx.
    assert (sum_sizes (Variables m) <= max_int) as Hmax0 by lia.
    rewrite Hmap.
    destruct (decide (i < length (Variables m))%nat) as [Hlt|Hge].
    + rewrite lookup_app_l in Hx by done.
      unfold base. rewrite take_app_le by lia.
      pose proof (Hold Hmax0 i x Hx) as Hi.
      rewrite lookup_insert_ne; [done|]. intros ->. congruence.
    + apply lookup_app_Some in Hx as [Hx|[_ Hx]].
      { apply lookup_lt_Some in Hx. lia. }
      apply list_lookup_singleton_Some in Hx as [Hi <-]. simpl.
      rewrite lookup_insert_eq. f_equal.
      unfold base. rewrite take_app_ge by lia.
      replace (i - length (Variables m))%nat with 0%nat by lia.
      simpl. rewrite app_nil_r. by apply Haddr.
Qed.

Lemma inv_function (name : string) (body : list Statement) :
  keeps_inv (function name body).
Proof.
  intros m e m' H. unfold function. repeat case_match; intros [= <- <-]; done.
Qed.

Local Ltac stack_only :=
  let H := fresh in
  intros ? ? ? H; repeat case_match; intros; simplify_eq;
  try done; try (by apply inv_set_Stack);
  try (by apply inv_set_Stack, inv_poke).

Lemma inv_pushNumber (k : Z) : keeps_inv (pushNumber k).
Proof. unfold pushNumber. stack_only. Qed.

Lemma inv_mathOperation (t : Token) : keeps_inv (mathOperation t).
Proof. unfold mathOperation. stack_only. Qed.

Lemma inv_drop : keeps_inv drop.
Proof. unfold drop. stack_only. Qed.

Lemma inv_dup : keeps_inv dup.
Proof. unfold dup. stack_only. Qed.

Lemma inv_swap : keeps_inv swap.
Proof. unfold swap. stack_only. Qed.

Lemma inv_compare (t : Token) : keeps_inv (compare t).
Proof. unfold compare. stack_only. Qed.

Lemma inv_get : keeps_inv get.
Proof. unfold get. stack_only. Qed.

Lemma inv_store : keeps_inv store.
Proof. unfold store. stack_only. Qed.

Lemma inv_debugComments (b : string) : keeps_inv (debugComments b).
Proof. unfold debugComments. stack_only. Qed.

Lemma inv_execSeq (ex : Statement -> Machine -> option Exit) :
  keeps_inv' ex -> keeps_inv' (fun st => execSeq ex [st]) ->
  forall l m e m', inv m -> execSeq ex l m = Some (Returns e m') -> inv m'.
Proof.
  intros Hex _ l. induction l as [|st tl IH]; intros m e m' Hm; simpl.
  - by intros [= <- <-].
  - destruct (ex st m) as [[[e1|] m1|]|] eqn:E; try done.
    + intros [= <- <-]. by eapply Hex.
    + apply IH. by eapply Hex.
Qed.

Lemma inv_exec (n : nat) :
  keeps_inv' (exec n) /\
  (forall b m e m', inv m -> while n b m = Some (Returns e m') -> inv m').
Proof.
  induction n as [|n [IHe IHw]]; [split; intros; discriminate|].
  assert (forall l m e m', inv m ->
            execSeq (exec n) l m = Some (Returns e m') -> inv m') as IHs.
  { apply inv_execSeq; [done|]. intros st m e m' Hm. simpl.
    destruct (exec n st m) as [[[e1|] m1|]|] eqn:E; try done;
      intros [= <- <-]; by eapply IHe. }
  split.
  - intros st m e m' Hm. cbn [exec]. destruct st.
    + by apply IHs.
    + intros H. apply (inj Some) in H. by eapply inv_declareVariable.
    + intros H. apply (inj Some) in H. exact (inv_pushNumber _ _ _ _ Hm H).
    + unfold indentifierCall. destruct (_ !! _).
      * intros [= <- <-]. by apply inv_set_Stack.
      * destruct (_ !! _); [by apply IHs|]. by intros [= <- <-].
    + intros H. apply (inj Some) in H. exact (inv_drop _ _ _ Hm H).
    + intros H. apply (inj Some) in H. exact (inv_dup _ _ _ Hm H).
    + intros H. apply (inj Some) in H. exact (inv_swap _ _ _ Hm H).
    + intros H. apply (inj Some) in H. exact (inv_debugComments _ _ _ _ Hm H).
    + intros H. apply (inj Some) in H. exact (inv_get _ _ _ Hm H).
    + intros H. apply (inj Some) in H. exact (inv_store _ _ _ Hm H).
    + intros H. apply (inj Some) in H. exact (inv_mathOperation _ _ _ _ Hm H).
    + intros H. apply (inj Some) in H. exact (inv_compare _ _ _ _ Hm H).
    + intros H. apply (inj Some) in H. exact (inv_function _ _ _ _ _ Hm H).
    + unfold _if. destruct (_ <? _); [by intros [= <- <-]|].
      destruct (negb _); [by apply IHs, inv_set_Stack|].
      destruct (_ <? _)%nat; [by apply IHs, inv_set_Stack|].
      intros [= <- <-]. by apply inv_set_Stack.
    + by apply IHw.
    + by intros [= <- <-].
  - intros b m e m' Hm. simpl.
    destruct (_ <? _); [by intros [= <- <-]|].
    destruct (_ =? _); [intros [= <- <-]; by apply inv_set_Stack|].
    destruct (execSeq _ _ _) as [[[e1|] m1|]|] eqn:E; try done.
    + intros [= <- <-]. eapply IHs; [|exact E]. by apply inv_set_Stack.
    + apply IHw. eapply IHs; [|exact E]. by apply inv_set_Stack.
Qed.

Lemma reachable_inv (fuel : nat) (st : Statement) (e : option string)
    (m : Machine) :
  exec fuel st NewMachine = Some (Returns e m) -> inv m.
Proof. apply (inv_exec fuel). apply inv_NewMachine. Qed.

(** C3.  In a machine reached by executing any program from a fresh
    machine, as long as the declared cells can be counted in an [int]: the
    address of every variable is the number of cells of the variables before
    it in [Variables], so the first one has address 0; each region ends where
    the next begins; the regions of two variables do not overlap; and a
    further declaration that succeeds appends its variable to [Variables]
    and gives it the number of all cells declared before it as address. *)
Theorem declared_regions_are_contiguous
    (fuel : nat) (st : Statement) (e : option string) (m : Machine) :
  exec fuel st NewMachine = Some (Returns e m) ->
  sum_sizes (Variables m) <= max_int ->
  (forall i x, Variables m !! i = Some x ->
     Addresses m !! Name x = Some (base (Variables m) i)) /\
  base (Variables m) 0 = 0 /\
  (forall i x, Variables m !! i = Some x ->
     base (Variables m) (S i) = base (Variables m) i + Size x) /\
  (forall i j x y, (i < j)%nat ->
     Variables m !! i = Some x -> Variables m !! j = Some y ->
     base (Variables m) i + Size x <= base (Variables m) j) /\
  (forall name cells m',
     declareVariable name cells m = Returns None m' ->
     Variables m' =
       Variables m ++ [{| Name := name; Size := cells;
                          Data := replicate (Z.to_nat cells) 0 |}] /\
     Addresses m' !! name = Some (sum_sizes (Variables m))).
Proof.
  intros Hrun Hmax. pose proof (reachable_inv _ _ _ _ Hrun) as Hinv.
  destruct Hinv as [Hok Haddr].
  split; [exact (Haddr Hmax)|]. split; [done|].
  split; [intros i x; apply base_S|].
  split.
  - intros i j x y Hij Hx _. apply base_mono; [|done..].
    by apply cells_ok_sizes.
  - intros name cells m' Hd.
    destruct (declareVariable_success m m' name cells (conj Hok Haddr) Hd)
      as (_ & _ & Hvs & _ & _ & addr & Hmap & Ha).
    split; [done|]. rewrite Hmap, lookup_insert_eq. f_equal. by apply Ha.
Qed.

(** Three declarations of 3, 1 and 2 cells: the addresses are 0, 3 and 4. *)
Lemma declared_regions_are_contiguous_witness :
  exec 2 three_declarations NewMachine = Some (Returns None three_variables) /\
  sum_sizes (Variables three_variables) <= max_int /\
  (forall i x, Variables three_variables !! i = Some x ->
     Addresses three_variables !! Name x
       = Some (base (Variables three_variables) i)).
Proof.
  assert (exec 2 three_declarations NewMachine
          = Some (Returns None three_variables)) as H by (vm_compute; reflexivity).
  assert (sum_sizes (Variables three_variables) <= max_int) as H'
    by (vm_compute; discriminate).
  split; [exact H|]. split; [exact H'|].
  exact (proj1 (declared_regions_are_contiguous 2 three_declarations None
                  three_variables H H')).
Defined.

(** Store 9 at address 4 of the three variables above and read it back. *)
Lemma get_after_store_witness :
  cells_ok three_variables /\
  sum_sizes (Variables three_variables) <= max_int /\
  0 <= 4 < sum_sizes (Variables three_variables) /\
  exists m1 m2 i idx,
    exec 2 (Program [PushNumberStatement 9; PushNumberStatement 4; StoreStatement])
      three_variables = Some (Returns None m1) /\
    elems (Stack m1) = elems (Stack three_variables) /\
    resolveAddr m1 4 = Cell i idx /\ load m1 i idx = 9 /\
    exec 2 (Program [PushNumberStatement 4; GetStatement]) m1
      = Some (Returns None m2) /\
    elems (Stack m2) = elems (Stack three_variables) ++ [9].
Proof.
  assert (cells_ok three_variables) as H1.
  { unfold cells_ok. vm_compute. repeat constructor; discriminate. }
  assert (sum_sizes (Variables three_variables) <= max_int) as H2
    by (vm_compute; discriminate).
  assert (0 <= 4 < sum_sizes (Variables three_variables)) as H3
    by (vm_compute; split; [discriminate | reflexivity]).
  split; [exact H1|]. split; [exact H2|]. split; [exact H3|].
  exact (get_after_store three_variables 4 9 0%nat H1 H2 H3).
Defined.

(** C1, where the code departs from it.  With one variable of one cell the
    address space ends at 1, yet address 1 resolves, to cell 0 of that
    variable: after the loop of [resolveVariable] has passed every
    variable, its last test compares the address with the region that would
    follow the last variable.  [VARIABLE x 7 x ! x 1 + @] therefore reads
    7 back from address 1. *)
Theorem address_past_the_end_resolves :
  sum_sizes (Variables one_cell) = 1 /\
  resolveAddr one_cell 1 = Cell 0 0 /\
  (forall k, exists m,
     run (20 + k) "VARIABLE x 7 x ! x 1 + @" = Some (Executed (Returns None m)) /\
     Stack m = Some [7]).
Proof.
  split; [reflexivity|]. split; [reflexivity|].
  intros k. eexists. split.
  - apply techon_fuel.run_more. vm_compute. reflexivity.
  - reflexivity.
Qed.

End address_space.

(** ** The pushback reader *)

Module pushback.

Import lexer parser.

(** One round of the scanner's loops, written with [read] and [unread] as
    in the source. *)
Lemma scanLoop_round (keep : ascii -> bool) (sc : Scanner) (buf : string) :
  scanLoop keep (rest sc) buf =
    let (ch, s1) := read sc in
    if ascii_eqb ch eof then (buf, s1)
    else if negb (keep ch) then (buf, unread s1)
    else scanLoop keep (rest s1) (buf +:+ String ch "").
Proof. unfold read. by destruct (rest sc). Qed.

Lemma commentLoop_round (sc : Scanner) (buf : string) :
  commentLoop (rest sc) buf =
    let (ch, s1) := read sc in
    if ascii_eqb ch eof then (buf, s1)
    else if ascii_eqb ch ")" then (buf +:+ String ch "", s1)
    else commentLoop (rest s1) (buf +:+ String ch "").
Proof. unfold read. by destruct (rest sc). Qed.

Lemma scanLoop_rest (keep : ascii -> bool) (r buf : string) :
  (String.length (rest (snd (scanLoop keep r buf))) <= String.length r)%nat.
Proof.
  revert buf. induction r as [|ch tl IH]; intros buf; simpl; [lia|].
  destruct (ascii_eqb ch eof); simpl; [lia|].
  destruct (keep ch); simpl; [|lia].
  specialize (IH (buf +:+ String ch "")). lia.
Qed.

Lemma keyword_not_WS (up : string) : keyword up <> Some WS.
Proof. unfold keyword. repeat case_match; discriminate. Qed.

(** A whitespace token takes at least one rune of the input. *)
Lemma Scan_WS_shorter (sc sc' : Scanner) (l : string) :
  Scan sc = (WS, l, sc') ->
  (String.length (rest sc') < String.length (rest sc))%nat.
Proof.
  unfold Scan, read. destruct (rest sc) as [|ch tl] eqn:Hr.
  { vm_compute. discriminate. }
  destruct (isWhitespace ch) eqn:Hw.
  { unfold unread, scanWhitespace, read. simpl.
    pose proof (scanLoop_rest isWhitespace tl (String ch "")) as Hle.
    destruct (scanLoop _ _ _) as [buf s2]. simpl in Hle.
    intros [= _ <-]. simpl. lia. }
  unfold scanNumber, scanIdent, scanComment, scanComparator, unread, read.
  simpl.
  repeat (case_match; simpl in *; try discriminate);
    simplify_eq; try discriminate.
  match goal with
  | Hk : keyword _ = Some _ |- _ =>
      intros [= -> _ _]; by apply keyword_not_WS in Hk
  end.
Qed.

(** The fuel that [scan] gives to [skipWS] is enough: the token it hands
    on is never whitespace. *)
Lemma skipWS_not_WS (n : nat) :
  forall r : Token * string * Scanner,
    (r.1.1 = WS -> (String.length (rest r.2) < n)%nat) ->
    (skipWS n r).1.1 <> WS.
Proof.
  induction n as [|n IH]; intros [[t l] sc] H; simpl in *.
  - destruct t; try done. intros _. specialize (H eq_refl). lia.
  - destruct t; try done. apply IH.
    destruct (Scan sc) as [[t' l'] sc'] eqn:E. simpl. intros ->.
    apply Scan_WS_shorter in E. specialize (H eq_refl). lia.
Qed.

Lemma scan_fresh_not_WS (sc : Scanner) :
  (skipWS (String.length (rest sc)) (Scan sc)).1.1 <> WS.
Proof.
  apply skipWS_not_WS. destruct (Scan sc) as [[t l] sc'] eqn:E. simpl.
  intros ->. by apply Scan_WS_shorter in E.
Qed.

Lemma ring_ok_NewParser (r : string) : ring_ok (NewParser r).
Proof. unfold ring_ok, buflen. simpl. lia. Qed.

Lemma rem_next (a n : Z) :
  0 <= a < n ->
  Z.rem (a + 1) n = (if a + 1 =? n then 0 else a + 1).
Proof.
  intros H. destruct (Z.eqb_spec (a + 1) n) as [->|Hne].
  - apply Z.rem_same. lia.
  - apply Z.rem_small. lia.
Qed.

(** What one [scan] does to the ring: the read cursor moves on by one
    slot, the slot it leaves holds the token handed out, and either nothing
    else changes (the token came from the buffer) or the token is new, the
    write cursor moves along and no other slot changes. *)
Lemma scan_spec (p p' : Parser) (t : Token) (l : string) :
  ring_ok p -> scan p = (t, l, p') ->
  ring_ok p' /\ buflen p' = buflen p /\
  actual p' = (if actual p + 1 =? buflen p then 0 else actual p + 1) /\
  buf p' !! Z.to_nat (actual p) = Some {| tok := t; lit := l |} /\
  ((actual p <> latest p /\ s p' = s p /\ buf p' = buf p /\
    latest p' = latest p) \/
   (actual p = latest p /\ latest p' = actual p' /\
    (forall j, j <> Z.to_nat (actual p) -> buf p' !! j = buf p !! j) /\
    skipWS (String.length (rest (s p))) (Scan (s p)) = (t, l, s p'))).
Proof.
  intros (HN & Ha & Hl). unfold scan.
  destruct (Z.eqb_spec (actual p) (latest p)) as [Heq|Hne]; simpl.
  - destruct (skipWS _ _) as [[t' l'] sc] eqn:Hfresh. intros [= -> -> <-].
    unfold ring_ok, buflen in *. simpl. rewrite length_insert.
    rewrite rem_next by done. rewrite <- Heq.
    split; [case_match; lia|]. split; [done|]. split; [done|].
    split; [apply list_lookup_insert_eq; lia|].
    right. split; [done|]. split; [done|]. split; [|done].
    intros j Hj. by rewrite list_lookup_insert_ne.
  - intros [= <- <- <-]. unfold ring_ok, buflen in *. simpl.
    rewrite rem_next by done.
    split; [case_match; lia|]. split; [done|]. split; [done|].
    split; [|by left].
    destruct (nth_lookup_or_length (buf p) (Z.to_nat (actual p)) zero_lex)
      as [Hn|Hn]; [|lia].
    rewrite Hn. by destruct (nth _ _ _).
Qed.

(** A token still in the buffer is handed out again without a call of the
    scanner. *)
Lemma scan_buffered (p : Parser) (x : lex) :
  actual p <> latest p ->
  buf p !! Z.to_nat (actual p) = Some x ->
  scan p = (tok x, lit x,
            {| s := s p; buf := buf p;
               actual := Z.rem (actual p + 1) (buflen p); latest := latest p |}).
Proof.
  intros Hne Hx. unfold scan.
  destruct (Z.eqb_spec (actual p) (latest p)); [done|]. simpl.
  by rewrite (nth_lookup_Some _ _ zero_lex _ Hx).
Qed.

(** Two tokens scanned and then pushed back are handed out again, in the
    same order, and leave the parser where the two scans had left it. *)
Lemma unscan_twice (p p1 p2 : Parser) (t1 t2 : Token) (l1 l2 : string) :
  ring_ok p ->
  scan p = (t1, l1, p1) -> scan p1 = (t2, l2, p2) ->
  exists q, scan (unscan (unscan p2)) = (t1, l1, q) /\ scan q = (t2, l2, p2).
Proof.
  intros Hp H1 H2.
  destruct (scan_spec _ _ _ _ Hp H1) as (Hp1 & HN1 & Ha1 & Hb1 & Hc1).
  destruct (scan_spec _ _ _ _ Hp1 H2) as (Hp2 & HN2 & Ha2 & Hb2 & Hc2).
  destruct Hp as (HN & Ha & Hl), Hp1 as (_ & Ha1' & Hl1), Hp2 as (_ & Ha2' & Hl2).
  set (q0 := unscan (unscan p2)).
  assert (actual q0 = actual p /\ buf q0 = buf p2 /\ s q0 = s p2 /\
          latest q0 = latest p2 /\ buflen q0 = buflen p2) as (Eq1 & Eq2 & Eq3 & Eq4 & Eq5).
  { unfold q0, unscan, buflen. simpl. split; [|done].
    fold (buflen p2). repeat case_match; lia. }
  assert (buf p2 !! Z.to_nat (actual p) = Some {| tok := t1; lit := l1 |}) as Hslot1.
  { destruct Hc2 as [(_ & _ & -> & _)|(_ & _ & Hother & _)]; [done|].
    rewrite Hother; [done|]. repeat case_match; lia. }
  assert (actual p <> latest p2 /\ actual p1 <> latest p2) as [Hne1 Hne2].
  { destruct Hc1 as [(? & _ & _ & ?)|(? & ? & _)],
             Hc2 as [(? & _ & _ & ?)|(? & ? & _)];
      repeat case_match; lia. }
  eexists. split.
  - rewrite (scan_buffered q0 {| tok := t1; lit := l1 |}); [done|lia|].
    by rewrite Eq1, Eq2.
  - rewrite Eq1, Eq2, Eq3, Eq4, Eq5, HN2, HN1, (rem_next _ _ Ha), <- Ha1.
    rewrite (scan_buffered _ {| tok := t2; lit := l2 |}); simpl; [|done..].
    unfold buflen at 1. simpl. fold (buflen p2).
    rewrite HN2, (rem_next _ _ Ha1'), <- Ha2.
    by destruct p2.
Qed.

(** *** Every parser state reached from [NewParser] has its cursors in
        range *)

Lemma scan_ring_ok (p p' : Parser) (t : Token) (l : string) :
  ring_ok p -> scan p = (t, l, p') -> ring_ok p'.
Proof. intros Hp H. by destruct (scan_spec _ _ _ _ Hp H). Qed.

Lemma unscan_ring_ok (p : Parser) : ring_ok p -> ring_ok (unscan p).
Proof.
  unfold ring_ok, unscan, buflen. simpl. intros (? & ? & ?).
  split; [done|]. split; [case_match; lia|done].
Qed.

Lemma parseVariableDeclaration_ring_ok (p p' : Parser) (st : Statement) :
  ring_ok p -> parseVariableDeclaration p = Ok st p' -> ring_ok p'.
Proof.
  intros Hp. unfold parseVariableDeclaration.
  destruct (scan p) as [[t0 l0] p1] eqn:E0.
  destruct (scan p1) as [[t1 l1] p2] eqn:E1.
  destruct (scan p2) as [[t2 l2] p3] eqn:E2.
  destruct (scan p3) as [[t3 l3] p4] eqn:E3.
  pose proof (scan_ring_ok _ _ _ _
                (scan_ring_ok _ _ _ _
                   (scan_ring_ok _ _ _ _
                      (scan_ring_ok _ _ _ _ Hp E0) E1) E2) E3) as H4.
  repeat case_match; intros; simplify_eq; try done.
  by apply unscan_ring_ok, unscan_ring_ok.
Qed.

Local Ltac one_scan Hp :=
  match goal with
  | |- context [scan ?p] =>
      let E := fresh "E" in
      let H := fresh "Hp" in
      destruct (scan p) as [[? ?] ?] eqn:E;
      pose proof (scan_ring_ok _ _ _ _ Hp E) as H
  end.

Lemma simple_statement_ring_ok (p : Parser) :
  ring_ok p ->
  to_ring_ok (Some (parsePushNumber p)) /\
  to_ring_ok (Some (parseIdentifierCall p)) /\
  to_ring_ok (Some (parseMathOperation p)) /\
  to_ring_ok (Some (parseCompareOperation p)).
Proof.
  intros Hp.
  unfold to_ring_ok, parsePushNumber, parseIdentifierCall, parseMathOperation,
    parseCompareOperation.
  destruct (scan p) as [[t l] p1] eqn:E.
  pose proof (scan_ring_ok _ _ _ _ Hp E).
  split; [|split; [|split]]; intros ? ?; repeat case_match; intros; by simplify_eq.
Qed.

Lemma some_statement_ring_ok (r : option (PRes Statement)) :
  to_ring_ok r -> to_ring_ok (option_map some_statement r).
Proof.
  intros H x p'. destruct r as [[st q|e|e]|]; simpl; try done.
  intros [= <- <-]. by apply (H st).
Qed.

Lemma nested_ring_ok (n : nat) :
  forall p, ring_ok p ->
    to_ring_ok (parseCommon n p) /\
    to_ring_ok (parseIfStatement n p) /\
    (forall b e i, to_ring_ok (ifLoop n p b e i)) /\
    to_ring_ok (parseWhileStatement n p) /\
    (forall b, to_ring_ok (whileLoop n p b)).
Proof.
  induction n as [|n IH]; intros p Hp.
  { split; [|split; [|split; [|split]]]; intros; intros ? ? ?; discriminate. }
  split; [|split; [|split; [|split]]].
  - simpl. one_scan Hp.
    pose proof (unscan_ring_ok _ Hp0) as Hu.
    destruct (simple_statement_ring_ok _ Hu) as (H1 & H2 & H3 & H4).
    destruct (IH _ Hu) as (_ & Hi & _ & Hw & _).
    destruct t;
      try (by apply (some_statement_ring_ok (Some _)));
      try (by apply some_statement_ring_ok);
      try (intros ? ?; repeat case_match; intros; by simplify_eq).
  - simpl. one_scan Hp. by apply IH.
  - intros b e i. simpl.
    destruct (IH _ Hp) as (Hc & _).
    destruct (parseCommon n p) as [[[st|] p1|?|?]|] eqn:E; try done.
    + specialize (Hc _ _ eq_refl). destruct i; by apply IH.
    + specialize (Hc _ _ eq_refl). one_scan Hc.
      destruct t; try done.
      * destruct i; [done|]. by apply IH.
      * intros ? ? ?; by simplify_eq.
  - simpl. one_scan Hp. by apply IH.
  - intros b. simpl.
    destruct (IH _ Hp) as (Hc & _).
    destruct (parseCommon n p) as [[[st|] p1|?|?]|] eqn:E; try done.
    + specialize (Hc _ _ eq_refl). by apply IH.
    + specialize (Hc _ _ eq_refl). one_scan Hc.
      destruct t; try done. intros ? ? ?; by simplify_eq.
Qed.

Lemma funcLoop_ring_ok (n : nat) :
  forall p name b, ring_ok p -> to_ring_ok (funcLoop n p name b).
Proof.
  induction n as [|n IH]; intros p name b Hp; [by intros ? ? ?|]. simpl.
  destruct (nested_ring_ok n p Hp) as (Hc & _).
  destruct (parseCommon n p) as [[[st|] p1|?|?]|] eqn:E; try done.
  - specialize (Hc _ _ eq_refl). by apply IH.
  - specialize (Hc _ _ eq_refl). one_scan Hc.
    destruct t; try done. intros ? ? ?; by simplify_eq.
Qed.

Lemma parseFunc_ring_ok (n : nat) (p : Parser) :
  ring_ok p -> to_ring_ok (parseFunc n p).
Proof.
  intros Hp. unfold parseFunc. one_scan Hp. one_scan Hp0.
  destruct (negb _); [done|]. by apply funcLoop_ring_ok.
Qed.

(** [parseProgram] calls [parseVariableDeclaration] after a [scan] and an
    [unscan] from a state that is in range, hence on a state in range. *)
Lemma parseProgram_ring_ok (n : nat) :
  forall p prog, ring_ok p -> to_ring_ok (parseProgram n p prog).
Proof.
  induction n as [|n IH]; intros p prog Hp; [by intros ? ? ?|]. simpl.
  destruct (nested_ring_ok n p Hp) as (Hc & _).
  destruct (parseCommon n p) as [[[st|] p1|?|?]|] eqn:E; try done.
  - specialize (Hc _ _ eq_refl). by apply IH.
  - specialize (Hc _ _ eq_refl). one_scan Hc.
    pose proof (unscan_ring_ok _ Hp0) as Hu.
    destruct t; try done.
    + intros ? ? ?; by simplify_eq.
    + destruct (parseVariableDeclaration _) as [st q| |] eqn:Ev; try done.
      apply IH. by eapply parseVariableDeclaration_ring_ok.
    + pose proof (parseFunc_ring_ok n _ Hu) as Hf.
      destruct (parseFunc n _) as [[st q| |]|]; try done.
      apply IH. by apply (Hf st).
Qed.

(** C8.  After the identifier the parser scans two tokens.  When they are a
    number and [CELLS] both stay consumed and the cell count is the integer
    the number denotes, which has to be positive: otherwise parsing fails
    with the error of the conversion or with "array cannot have less than 1
    cell".  In every other case the cell count is 1 and both tokens are
    pushed back: the next two scans hand them out again. *)
Theorem parseVariableDeclaration_lookahead
    (p p1 p2 p3 p4 : Parser) (t0 t2 t3 : Token) (l0 name nr l3 : string) :
  ring_ok p ->
  scan p = (t0, l0, p1) -> scan p1 = (Ident, name, p2) ->
  scan p2 = (t2, nr, p3) -> scan p3 = (t3, l3, p4) ->
  (t2 = Number /\ t3 = Cells ->
   parseVariableDeclaration p =
     match Atoi nr with
     | inl cells =>
         if 0 <? cells then Ok (DeclarationStatement name cells) p4
         else Err "array cannot have less than 1 cell"
     | inr e => Err e
     end) /\
  (~ (t2 = Number /\ t3 = Cells) ->
   exists q q',
     parseVariableDeclaration p = Ok (DeclarationStatement name 1) q /\
     scan q = (t2, nr, q') /\ scan q' = (t3, l3, p4)).
Proof.
  intros Hp H0 H1 H2 H3.
  destruct (scan_spec _ _ _ _ Hp H0) as (Hp1 & _).
  destruct (scan_spec _ _ _ _ Hp1 H1) as (Hp2 & _).
  unfold parseVariableDeclaration. rewrite H0, H1, H2, H3. simpl.
  split.
  - intros [-> ->]. simpl. destruct (Atoi nr) as [cells|e]; [|done].
    destruct (Z.leb_spec cells 0), (Z.ltb_spec 0 cells); done || lia.
  - intros Hno.
    destruct (unscan_twice p2 p3 p4 t2 t3 nr l3 Hp2 H2 H3) as (q' & Hq & Hq').
    exists (unscan (unscan p4)), q'.
    split; [|done].
    unfold tok_eqb. repeat case_bool_decide; simpl; try done.
    exfalso. by apply Hno.
Qed.

(** [VARIABLE x 3 5]: the two numbers are pushed back and scanned again. *)
Lemma parseVariableDeclaration_lookahead_witness :
  ring_ok declaration_input /\
  scan declaration_input = (Variable_, "VARIABLE", scanned declaration_input) /\
  scan (scanned declaration_input)
    = (Ident, "x", scanned (scanned declaration_input)) /\
  scan (scanned (scanned declaration_input))
    = (Number, "3", scanned (scanned (scanned declaration_input))) /\
  scan (scanned (scanned (scanned declaration_input)))
    = (Number, "5", scanned (scanned (scanned (scanned declaration_input)))) /\
  exists q q',
    parseVariableDeclaration declaration_input
      = Ok (DeclarationStatement "x" 1) q /\
    scan q = (Number, "3", q') /\
    scan q' = (Number, "5", scanned (scanned (scanned (scanned declaration_input)))).
Proof.
  assert (ring_ok declaration_input) as Hp by apply ring_ok_NewParser.
  assert (scan declaration_input
          = (Variable_, "VARIABLE", scanned declaration_input)) as H0
    by (vm_compute; reflexivity).
  assert (scan (scanned declaration_input)
          = (Ident, "x", scanned (scanned declaration_input))) as H1
    by (vm_compute; reflexivity).
  assert (scan (scanned (scanned declaration_input))
          = (Number, "3", scanned (scanned (scanned declaration_input)))) as H2
    by (vm_compute; reflexivity).
  assert (scan (scanned (scanned (scanned declaration_input)))
          = (Number, "5",
             scanned (scanned (scanned (scanned declaration_input))))) as H3
    by (vm_compute; reflexivity).
  split; [exact Hp|]. split; [exact H0|]. split; [exact H1|].
  split; [exact H2|]. split; [exact H3|].
  apply (proj2 (parseVariableDeclaration_lookahead _ _ _ _ _ _ _ _ _ _ _ _
                  Hp H0 H1 H2 H3)).
  intros [_ H]. discriminate H.
Defined.

End pushback.

(** ** The parser comes to an end *)

Module parser_total.

Import lexer parser.

Lemma commentLoop_rest (r buf : string) :
  (String.length (rest (snd (commentLoop r buf))) <= String.length r)%nat.
Proof.
  revert buf. induction r as [|ch tl IH]; intros buf; simpl; [lia|].
  destruct (ascii_eqb ch eof); simpl; [lia|].
  destruct (ascii_eqb ch ")"); simpl; [lia|].
  specialize (IH (buf +:+ String ch "")). lia.
Qed.

(** A token takes runes from the input, at least one unless it is [EOF]. *)
Lemma Scan_shorter (sc sc' : Scanner) (t : Token) (l : string) :
  Scan sc = (t, l, sc') ->
  (String.length (rest sc') <= String.length (rest sc))%nat /\
  (t <> EOF -> (String.length (rest sc') < String.length (rest sc))%nat).
Proof.
  unfold Scan, read. destruct (rest sc) as [|ch tl] eqn:Hr.
  { vm_compute. intros [= <- _ <-]. simpl. split; [lia|done]. }
  unfold scanWhitespace, scanNumber, scanIdent, scanComment, scanComparator,
    unread, read.
  simpl.
  pose proof (pushback.scanLoop_rest isWhitespace tl (String ch "")) as H1.
  pose proof (pushback.scanLoop_rest identRune tl (String ch "")) as H2.
  pose proof (pushback.scanLoop_rest isDigit tl (String ch "")) as H3.
  pose proof (commentLoop_rest tl (String ch "")) as H4.
  destruct tl as [|ch2 tl2].
  - repeat (case_match; simpl in *; try discriminate);
      intros; simplify_eq; simpl; split; intros; lia.
  - pose proof (pushback.scanLoop_rest isDigit tl2 (String ch2 "")) as H5.
    repeat (case_match; simpl in *; try discriminate);
      intros; simplify_eq; simpl in *; split; intros; lia.
Qed.

Lemma skipWS_shorter (n : nat) :
  forall (t t' : Token) (l l' : string) (sc sc' : Scanner),
    skipWS n (t, l, sc) = (t', l', sc') ->
    (String.length (rest sc') <= String.length (rest sc))%nat /\
    (t' = t \/ t' = EOF \/
     (String.length (rest sc') < String.length (rest sc))%nat).
Proof.
  induction n as [|n IH]; intros t t' l l' sc sc'; simpl.
  - destruct t; intros [= <- <- <-]; split; auto.
  - destruct t; try (intros [= <- <- <-]; split; by auto).
    destruct (Scan sc) as [[t1 l1] sc1] eqn:E. intros H.
    destruct (Scan_shorter _ _ _ _ E) as [Hle Hlt].
    destruct (IH _ _ _ _ _ _ H) as [Hle' Hor].
    split; [lia|]. right.
    destruct Hor as [->|[->|Hlt']]; [|by left|right; lia].
    destruct (decide (t1 = EOF)) as [->|Hne]; [by left|].
    right. specialize (Hlt Hne). lia.
Qed.

Lemma fresh_shorter (sc sc' : Scanner) (t : Token) (l : string) :
  skipWS (String.length (rest sc)) (Scan sc) = (t, l, sc') ->
  (String.length (rest sc') + ne t <= String.length (rest sc))%nat.
Proof.
  destruct (Scan sc) as [[t0 l0] sc0] eqn:E. intros H.
  destruct (Scan_shorter _ _ _ _ E) as [Hle Hlt].
  destruct (skipWS_shorter _ _ _ _ _ _ _ H) as [Hle' Hor].
  unfold ne, tok_eqb. case_bool_decide as Ht; [lia|].
  destruct Hor as [->|[->|Hlt']]; [|done|lia].
  specialize (Hlt Ht). lia.
Qed.

Lemma nxt_range (p : Parser) (a : Z) :
  ring_ok p -> 0 <= a < buflen p ->
  0 <= nxt p a < buflen p /\ nxt p a <> a /\ nxt p (nxt p a) <> a /\
  nxt p (nxt p a) <> nxt p a.
Proof.
  unfold ring_ok, nxt. intros (HN & _ & _) Ha.
  repeat case_match; lia.
Qed.

(** What [scan] does to the measure: the token, if not [EOF], is paid
    for. *)
Lemma scan_to_read (p p' : Parser) (t : Token) (l : string) :
  good p -> scan p = (t, l, p') ->
  good p' /\ one_waiting p' /\ (one_waiting p -> none_waiting p') /\
  (to_read p' + ne t <= to_read p)%nat.
Proof.
  intros [Hp Hw] H.
  destruct (pushback.scan_spec _ _ _ _ Hp H) as (Hp' & HN & Ha & Hb & Hc).
  pose proof Hp as (HN3 & Har & Hlr).
  destruct (nxt_range p (actual p) Hp Har) as (Hn1 & Hn2 & Hn3 & Hn4).
  assert (forall a, nxt p' a = nxt p a) as Hnxt.
  { intros a. unfold nxt. by rewrite HN. }
  fold (nxt p (actual p)) in Ha.
  unfold good, two_waiting, one_waiting, none_waiting in *.
  rewrite !Hnxt, Ha.
  destruct Hc as [(Hne & Hs & Hbuf & Hl)|(Heq & Hl & Hother & Hfresh)].
  - rewrite Hl. split; [split; [done|]|].
    { destruct Hw as [[?|?]|?]; [done|by left; left|by left; right]. }
    split. { destruct Hw as [[?|?]|?]; [done|by left|by right]. }
    split. { intros [?|?]; [done|done]. }
    unfold to_read, waiting, slot_ne. rewrite Hs, Hbuf, Ha, Hl, !Hnxt.
    rewrite Hbuf in Hb.
    rewrite (nth_lookup_Some _ _ zero_lex _ Hb). simpl.
    destruct (Z.eqb_spec (actual p) (latest p)); [done|].
    destruct Hw as [[?|Hw]|Hw]; [done| |].
    + rewrite Hw, !Z.eqb_refl. lia.
    + destruct (Z.eqb_spec (nxt p (actual p)) (latest p)) as [E|E].
      * lia.
      * rewrite Hw, Z.eqb_refl. lia.
  - rewrite Hl, Ha. split; [split; [done|by left; left]|].
    split; [by left|]. split; [done|].
    unfold to_read, waiting. rewrite Hl, Ha, Heq, !Z.eqb_refl.
    pose proof (fresh_shorter _ _ _ _ Hfresh). lia.
Qed.

(** What [unscan] does when the slot behind the read cursor holds the token
    [t] and at most one token waits: [t] waits again, and the next [scan]
    hands it out and leads back. *)
Lemma unscan_spec (q : Parser) (t : Token) (l : string) :
  ring_ok q -> one_waiting q ->
  buf q !! Z.to_nat (actual (unscan q)) = Some {| tok := t; lit := l |} ->
  good (unscan q) /\
  (none_waiting q -> one_waiting (unscan q)) /\
  to_read (unscan q) = (to_read q + ne t)%nat /\
  scan (unscan q) = (t, l, q).
Proof.
  intros Hq Hw Hslot. pose proof Hq as (HN & Ha & Hl).
  set (a := actual (unscan q)) in *.
  assert (0 <= a < buflen q /\ nxt q a = actual q) as [Har Hnx].
  { unfold a, unscan, nxt. simpl. repeat case_match; lia. }
  destruct (nxt_range q a Hq Har) as (Hn1 & Hn2 & Hn3 & Hn4).
  assert (forall b, nxt (unscan q) b = nxt q b) as Hnxt by done.
  assert (ring_ok (unscan q)) as Hq' by (by apply pushback.unscan_ring_ok).
  unfold good, two_waiting, one_waiting, none_waiting in *.
  change (latest (unscan q)) with (latest q).
  fold a. rewrite !Hnxt, Hnx.
  split; [split; [done|]|].
  { destruct Hw as [Hw|Hw]; [left; by right | by right]. }
  split; [intros Hw'; by right|].
  split.
  - unfold to_read, waiting, slot_ne. fold a.
    change (latest (unscan q)) with (latest q).
    change (buf (unscan q)) with (buf q).
    change (s (unscan q)) with (s q).
    rewrite !Hnxt, Hnx, (nth_lookup_Some _ _ zero_lex _ Hslot). simpl.
    destruct (Z.eqb_spec a (latest q)) as [E|E].
    { destruct Hw as [Hw|Hw]; congruence. }
    destruct Hw as [Hw|Hw].
    + rewrite Hw, !Z.eqb_refl. lia.
    + destruct (Z.eqb_spec (actual q) (latest q)) as [E'|E']; [congruence|].
      rewrite Hw, Z.eqb_refl. lia.
  - rewrite (pushback.scan_buffered _ {| tok := t; lit := l |}).
    + change (buflen (unscan q)) with (buflen q).
      change (s (unscan q)) with (s q).
      change (buf (unscan q)) with (buf q).
      change (latest (unscan q)) with (latest q).
      fold a. cbn [tok lit].
      rewrite (pushback.rem_next _ _ Har). fold (nxt q a). rewrite Hnx.
      by destruct q.
    + fold a. change (latest (unscan q)) with (latest q).
      destruct Hw as [Hw|Hw]; congruence.
    + done.
Qed.

(** [scan] and then [unscan]: nothing is lost. *)
Lemma scan_unscan (p p' : Parser) (t : Token) (l : string) :
  good p -> scan p = (t, l, p') ->
  good (unscan p') /\
  (to_read (unscan p') <= to_read p)%nat /\
  scan (unscan p') = (t, l, p').
Proof.
  intros Hp H. destruct (scan_to_read _ _ _ _ Hp H) as ([Hp' _] & Hw & _ & Hm).
  destruct Hp as [Hp _].
  destruct (pushback.scan_spec _ _ _ _ Hp H) as (_ & HN & Ha & Hb & _).
  destruct (unscan_spec p' t l Hp' Hw) as (Hg & _ & Hm' & Hs).
  - replace (actual (unscan p')) with (actual p); [done|].
    destruct Hp as (? & ? & ?). unfold unscan. simpl. rewrite Ha, HN.
    repeat case_match; lia.
  - split; [done|]. split; [lia|done].
Qed.

Lemma ne_1 (t : Token) : t <> EOF -> ne t = 1%nat.
Proof. intros H. unfold ne, tok_eqb. by case_bool_decide. Qed.

Lemma some_statement_moved_on (p : Parser) (r : PRes Statement) :
  moved_on p r -> common_ok p (some_statement r).
Proof. by destruct r. Qed.

(** The statements of one token. *)
Lemma one_token_moved_on (p p1 : Parser) (t : Token) (l : string) :
  good p -> scan p = (t, l, p1) -> t <> EOF ->
  moved_on p (parsePushNumber (unscan p1)) /\
  moved_on p (parseIdentifierCall (unscan p1)) /\
  moved_on p (parseMathOperation (unscan p1)) /\
  moved_on p (parseCompareOperation (unscan p1)) /\
  (forall st : Statement, moved_on p (Ok st p1)).
Proof.
  intros Hp H Ht.
  destruct (scan_to_read _ _ _ _ Hp H) as (Hp1 & _ & _ & Hm).
  destruct (scan_unscan _ _ _ _ Hp H) as (_ & _ & Hre).
  rewrite (ne_1 t Ht) in Hm.
  unfold parsePushNumber, parseIdentifierCall, parseMathOperation,
    parseCompareOperation. rewrite Hre.
  assert (forall st : Statement, moved_on p (Ok st p1)) as Hok
    by (intros st; split; [done|lia]).
  split; [|split; [|split; [|split]]]; try apply Hok.
  destruct (Atoi l); [apply Hok | done].
Qed.

Local Ltac enough_fuel f :=
  let H := fresh "Hf" in
  intros f H; destruct f as [|f]; [lia|]; simpl.

Lemma nested_total (n : nat) :
  forall p, good p -> (to_read p < n)%nat ->
    (exists f0 r, common_ok p r /\ settles (fun f => parseCommon f p) f0 r) /\
    (forall b e i, exists f0 r,
       moved_on p r /\ settles (fun f => ifLoop f p b e i) f0 r) /\
    (forall b, exists f0 r,
       moved_on p r /\ settles (fun f => whileLoop f p b) f0 r).
Proof.
  unfold settles.
  induction n as [|n IH]; intros p Hp Hn; [lia|].
  assert (exists f0 r, common_ok p r /\
            forall f, (f0 <= f)%nat -> parseCommon f p = Some r) as Hcommon.
  { destruct (scan p) as [[t l] p1] eqn:E.
    destruct (scan_to_read _ _ _ _ Hp E) as (Hp1 & _ & _ & Hm).
    destruct (scan_unscan _ _ _ _ Hp E) as (Hu & Hum & Hre).
    destruct (decide (t = EOF)) as [->|Ht].
    { exists 1%nat, (Ok None (unscan p1)). split; [done|].
      enough_fuel f. by rewrite E. }
    destruct (one_token_moved_on _ _ _ _ Hp E Ht) as (H1 & H2 & H3 & H4 & H5).
    assert (to_read p1 < n)%nat as Hn1 by (rewrite (ne_1 t Ht) in Hm; lia).
    assert (to_read p1 < to_read p)%nat as Hlt
      by (rewrite (ne_1 t Ht) in Hm; lia).
    destruct t;
      try (exists 1%nat, (Ok None (unscan p1)); split; [done|];
           enough_fuel f; by rewrite E);
      try (eexists 1%nat, _; split;
           [|enough_fuel f; rewrite E; reflexivity];
           first [ by apply some_statement_moved_on | by apply (H5 DropStatement) ]).
    - (* Comment *)
      destruct (comment_body l) as [b|] eqn:Eb.
      + exists 1%nat, (Ok (Some (Comment b)) p1). split; [done|].
        enough_fuel f. by rewrite E, Eb.
      + exists 1%nat, (Panic "slice bounds out of range"). split; [done|].
        enough_fuel f. by rewrite E, Eb.
    - (* If *)
      destruct (IH p1 Hp1 Hn1) as (_ & Hloop & _).
      destruct (Hloop [] [] false) as (f0 & r & Hr & Hf0).
      exists (S (S f0)), (some_statement r). split.
      + apply some_statement_moved_on. destruct r as [? q| |]; try done.
        destruct Hr as [? ?]. split; [done|lia].
      + enough_fuel f. rewrite E. destruct f as [|f]; [lia|]. simpl.
        rewrite Hre, Hf0 by lia. done.
    - (* While *)
      destruct (IH p1 Hp1 Hn1) as (_ & _ & Hloop).
      destruct (Hloop []) as (f0 & r & Hr & Hf0).
      exists (S (S f0)), (some_statement r). split.
      + apply some_statement_moved_on. destruct r as [? q| |]; try done.
        destruct Hr as [? ?]. split; [done|lia].
      + enough_fuel f. rewrite E. destruct f as [|f]; [lia|]. simpl.
        rewrite Hre, Hf0 by lia. done. }
  split; [done|].
  destruct Hcommon as (fc & rc & Hrc & Hfc).
  split.
  - intros b e i.
    destruct rc as [[st|] p1|msg|msg].
    + destruct Hrc as [Hp1 Hlt].
      destruct (IH p1 Hp1 ltac:(lia)) as (_ & Hloop & _).
      destruct (Hloop (if i then b else b ++ [st])
                  (if i then e ++ [st] else e) i) as (f0 & r & Hr & Hf0).
      exists (S (Nat.max fc f0)), r. split.
      { destruct r; try done. simpl in *. split; [tauto|lia]. }
      enough_fuel f. rewrite Hfc by lia.
      destruct i; by rewrite Hf0 by lia.
    + destruct Hrc as [Hp1 Hle].
      destruct (scan p1) as [[t l] p2] eqn:E.
      destruct (scan_to_read _ _ _ _ Hp1 E) as (Hp2 & _ & _ & Hm).
      destruct (decide (t = Then)) as [->|Hthen].
      { exists (S fc), (Ok (IfStatement b e) p2). split.
        - rewrite ne_1 in Hm by done. split; [done|lia].
        - enough_fuel f. rewrite Hfc by lia. by rewrite E. }
      destruct (decide (t = Else)) as [->|Helse].
      { destruct i.
        - exists (S fc), (Err "already in else"). split; [done|].
          enough_fuel f. rewrite Hfc by lia. by rewrite E.
        - rewrite ne_1 in Hm by done.
          destruct (IH p2 Hp2 ltac:(lia)) as (_ & Hloop & _).
          destruct (Hloop b e true) as (f0 & r & Hr & Hf0).
          exists (S (Nat.max fc f0)), r. split.
          { destruct r; try done. simpl in *. split; [tauto|lia]. }
          enough_fuel f. rewrite Hfc by lia. rewrite E.
          by rewrite Hf0 by lia. }
      exists (S fc), (invalid_token t). split; [done|].
      enough_fuel f. rewrite Hfc by lia. rewrite E. by destruct t.
    + exists (S fc), (Err msg). split; [done|].
      enough_fuel f. by rewrite Hfc by lia.
    + exists (S fc), (Panic msg). split; [done|].
      enough_fuel f. by rewrite Hfc by lia.
  - intros b.
    destruct rc as [[st|] p1|msg|msg].
    + destruct Hrc as [Hp1 Hlt].
      destruct (IH p1 Hp1 ltac:(lia)) as (_ & _ & Hloop).
      destruct (Hloop (b ++ [st])) as (f0 & r & Hr & Hf0).
      exists (S (Nat.max fc f0)), r. split.
      { destruct r; try done. simpl in *. split; [tauto|lia]. }
      enough_fuel f. rewrite Hfc by lia. by rewrite Hf0 by lia.
    + destruct Hrc as [Hp1 Hle].
      destruct (scan p1) as [[t l] p2] eqn:E.
      destruct (scan_to_read _ _ _ _ Hp1 E) as (Hp2 & _ & _ & Hm).
      destruct (decide (t = Repeat)) as [->|Hrep].
      { exists (S fc), (Ok (WhileStatement b) p2). split.
        - rewrite ne_1 in Hm by done. split; [done|lia].
        - enough_fuel f. rewrite Hfc by lia. by rewrite E. }
      exists (S fc), (invalid_token t). split; [done|].
      enough_fuel f. rewrite Hfc by lia. rewrite E. by destruct t.
    + exists (S fc), (Err msg). split; [done|].
      enough_fuel f. by rewrite Hfc by lia.
    + exists (S fc), (Panic msg). split; [done|].
      enough_fuel f. by rewrite Hfc by lia.
Qed.

Lemma actual_unscan (p p' : Parser) (t : Token) (l : string) :
  ring_ok p -> scan p = (t, l, p') -> actual (unscan p') = actual p.
Proof.
  intros Hp H.
  destruct (pushback.scan_spec _ _ _ _ Hp H) as (_ & HN & Ha & _).
  destruct Hp as (? & ? & ?). unfold unscan. simpl. rewrite Ha, HN.
  repeat case_match; lia.
Qed.

(** The lookahead of [parseVariableDeclaration]: two tokens scanned when
    none was waiting, then pushed back. *)
Lemma unscan_unscan_to_read (pa pb pc : Parser) (t2 t3 : Token)
    (l2 l3 : string) :
  good pa -> none_waiting pa ->
  scan pa = (t2, l2, pb) -> scan pb = (t3, l3, pc) ->
  good (unscan (unscan pc)) /\
  (to_read (unscan (unscan pc)) <= to_read pa)%nat.
Proof.
  intros Hpa Hna Hab Hbc.
  destruct (scan_to_read _ _ _ _ Hpa Hab) as (Hpb & _ & Hnb & Hmb).
  specialize (Hnb (or_introl Hna)).
  destruct (scan_to_read _ _ _ _ Hpb Hbc) as (Hpc & Hwc & Hnc & Hmc).
  specialize (Hnc (or_introl Hnb)).
  destruct Hpa as [Hra _], Hpb as [Hrb _], Hpc as [Hrc _].
  destruct (pushback.scan_spec _ _ _ _ Hra Hab) as (_ & HNb & Hab' & Hsa & _).
  destruct (pushback.scan_spec _ _ _ _ Hrb Hbc) as (_ & HNc & Hbc' & Hsb & Hcb).
  destruct (unscan_spec pc t3 l3 Hrc Hwc) as ([Hr1 _] & Hw1 & Hm1 & _).
  { by rewrite (actual_unscan _ _ _ _ Hrb Hbc). }
  specialize (Hw1 Hnc).
  assert (actual (unscan (unscan pc)) = actual pa) as Hact.
  { pose proof (actual_unscan _ _ _ _ Hrb Hbc) as H1.
    pose proof (actual_unscan _ _ _ _ Hra Hab) as H2.
    unfold unscan in *. simpl in *. rewrite H1.
    change (buflen {| s := s pc; buf := buf pc; actual := actual pb;
                      latest := latest pc |}) with (buflen pc).
    rewrite HNc. exact H2. }
  destruct (unscan_spec (unscan pc) t2 l2 Hr1 Hw1) as (Hg & _ & Hm2 & _).
  { rewrite Hact. change (buf (unscan pc)) with (buf pc).
    destruct Hcb as [(Hne & _)|(_ & _ & Hother & _)]; [done|].
    rewrite Hother; [done|].
    destruct Hra as (? & ? & ?). rewrite Hab'. repeat case_match; lia. }
  split; [done|]. lia.
Qed.

Lemma parseVariableDeclaration_moved_on (p1 p2 : Parser) (t : Token)
    (l : string) :
  good p1 -> scan p1 = (t, l, p2) -> t <> EOF ->
  moved_on p1 (parseVariableDeclaration (unscan p2)).
Proof.
  intros Hp1 H Ht.
  destruct (scan_to_read _ _ _ _ Hp1 H) as (Hp2 & Hw2 & _ & Hm).
  destruct (scan_unscan _ _ _ _ Hp1 H) as (_ & _ & Hre).
  rewrite (ne_1 t Ht) in Hm.
  unfold parseVariableDeclaration. rewrite Hre.
  destruct (scan p2) as [[t1 l1] pa] eqn:Ea.
  destruct (scan_to_read _ _ _ _ Hp2 Ea) as (Hpa & _ & Hna & Hma).
  specialize (Hna Hw2).
  destruct (negb _); [done|].
  destruct (scan pa) as [[t2 l2] pb] eqn:Eb.
  destruct (scan pb) as [[t3 l3] pc] eqn:Ec.
  destruct (scan_to_read _ _ _ _ Hpa Eb) as (Hpb & _ & _ & Hmb).
  destruct (scan_to_read _ _ _ _ Hpb Ec) as (Hpc & _ & _ & Hmc).
  destruct (unscan_unscan_to_read _ _ _ _ _ _ _ Hpa Hna Eb Ec) as (Hg & Hmu).
  destruct (_ && _).
  - destruct (Atoi l2); [|done]. destruct (_ <=? _); [done|].
    split; [done|lia].
  - split; [done|lia].
Qed.

Lemma funcLoop_total (n : nat) :
  forall p name b, good p -> (to_read p < n)%nat ->
    exists f0 r, moved_on p r /\ settles (fun f => funcLoop f p name b) f0 r.
Proof.
  unfold settles.
  induction n as [|n IH]; intros p name b Hp Hn; [lia|].
  destruct (nested_total (S n) p Hp Hn) as ((fc & rc & Hrc & Hfc) & _).
  unfold settles in Hfc.
  destruct rc as [[st|] p1|msg|msg].
  - destruct Hrc as [Hp1 Hlt].
    destruct (IH p1 name (b ++ [st]) Hp1 ltac:(lia)) as (f0 & r & Hr & Hf0).
    exists (S (Nat.max fc f0)), r. split.
    { destruct r; try done. simpl in *. split; [tauto|lia]. }
    enough_fuel f. rewrite Hfc by lia. by rewrite Hf0 by lia.
  - destruct Hrc as [Hp1 Hle].
    destruct (scan p1) as [[t l] p2] eqn:E.
    destruct (scan_to_read _ _ _ _ Hp1 E) as (Hp2 & _ & _ & Hm).
    destruct (decide (t = EndFunc)) as [->|Hend].
    { exists (S fc), (Ok (FunctionStatement name b) p2). split.
      - rewrite ne_1 in Hm by done. split; [done|lia].
      - enough_fuel f. rewrite Hfc by lia. by rewrite E. }
    exists (S fc), (invalid_token t). split; [done|].
    enough_fuel f. rewrite Hfc by lia. rewrite E. by destruct t.
  - exists (S fc), (Err msg). split; [done|].
    enough_fuel f. by rewrite Hfc by lia.
  - exists (S fc), (Panic msg). split; [done|].
    enough_fuel f. by rewrite Hfc by lia.
Qed.

Lemma parseFunc_total (p1 p2 : Parser) (t : Token) (l : string) :
  good p1 -> scan p1 = (t, l, p2) -> t <> EOF ->
  exists f0 r, moved_on p1 r /\ settles (fun f => parseFunc f (unscan p2)) f0 r.
Proof.
  intros Hp1 H Ht.
  destruct (scan_to_read _ _ _ _ Hp1 H) as (Hp2 & _ & _ & Hm).
  destruct (scan_unscan _ _ _ _ Hp1 H) as (_ & _ & Hre).
  rewrite (ne_1 t Ht) in Hm.
  unfold settles, parseFunc. rewrite Hre.
  destruct (scan p2) as [[t1 l1] p3] eqn:E3.
  destruct (scan_to_read _ _ _ _ Hp2 E3) as (Hp3 & _ & _ & Hm3).
  destruct (negb _).
  { exists 0%nat, (Err "expected function identifier"). by split. }
  destruct (funcLoop_total (S (to_read p3)) p3 l1 [] Hp3 ltac:(lia))
    as (f0 & r & Hr & Hf0).
  exists f0, r. split; [|done].
  destruct r; try done. simpl in *. split; [tauto|lia].
Qed.

Lemma parseProgram_total (n : nat) :
  forall p prog, good p -> (to_read p < n)%nat ->
    exists f0 r, settles (fun f => parseProgram f p prog) f0 r.
Proof.
  unfold settles.
  induction n as [|n IH]; intros p prog Hp Hn; [lia|].
  destruct (nested_total (S n) p Hp Hn) as ((fc & rc & Hrc & Hfc) & _).
  unfold settles in Hfc.
  destruct rc as [[st|] p1|msg|msg].
  - destruct Hrc as [Hp1 Hlt].
    destruct (IH p1 (prog ++ [st]) Hp1 ltac:(lia)) as (f0 & r & Hf0).
    exists (S (Nat.max fc f0)), r.
    enough_fuel f. rewrite Hfc by lia. by rewrite Hf0 by lia.
  - destruct Hrc as [Hp1 Hle].
    destruct (scan p1) as [[t l] p2] eqn:E.
    destruct (decide (t = Variable_)) as [->|Hvar].
    { pose proof (parseVariableDeclaration_moved_on _ _ _ _ Hp1 E
                    ltac:(done)) as Hv.
      destruct (parseVariableDeclaration (unscan p2)) as [st p3|msg|msg] eqn:Ev.
      - destruct Hv as [Hp3 Hlt].
        destruct (IH p3 (prog ++ [st]) Hp3 ltac:(lia)) as (f0 & r & Hf0).
        exists (S (Nat.max fc f0)), r.
        enough_fuel f. rewrite Hfc by lia. rewrite E, Ev. by rewrite Hf0 by lia.
      - exists (S fc), (Err msg).
        enough_fuel f. rewrite Hfc by lia. by rewrite E, Ev.
      - exists (S fc), (Panic msg).
        enough_fuel f. rewrite Hfc by lia. by rewrite E, Ev. }
    destruct (decide (t = StartFunc)) as [->|Hfun].
    { destruct (parseFunc_total _ _ _ _ Hp1 E ltac:(done))
        as (ff & rf & Hrf & Hff).
      unfold settles in Hff.
      destruct rf as [st p3|msg|msg].
      - destruct Hrf as [Hp3 Hlt].
        destruct (IH p3 (prog ++ [st]) Hp3 ltac:(lia)) as (f0 & r & Hf0).
        exists (S (Nat.max fc (Nat.max ff f0))), r.
        enough_fuel f. rewrite Hfc by lia. rewrite E, Hff by lia.
        by rewrite Hf0 by lia.
      - exists (S (Nat.max fc ff)), (Err msg).
        enough_fuel f. rewrite Hfc by lia. by rewrite E, Hff by lia.
      - exists (S (Nat.max fc ff)), (Panic msg).
        enough_fuel f. rewrite Hfc by lia. by rewrite E, Hff by lia. }
    destruct (decide (t = EOF)) as [->|Heof].
    { exists (S fc), (Ok prog p2).
      enough_fuel f. rewrite Hfc by lia. by rewrite E. }
    exists (S fc), (invalid_token t).
    enough_fuel f. rewrite Hfc by lia. rewrite E. by destruct t.
  - exists (S fc), (Err msg). enough_fuel f. by rewrite Hfc by lia.
  - exists (S fc), (Panic msg). enough_fuel f. by rewrite Hfc by lia.
Qed.

Lemma good_NewParser (text : string) : good (NewParser text).
Proof.
  split; [apply pushback.ring_ok_NewParser|]. left. by left.
Qed.

(** The parser comes to an end on every text: from some amount of fuel on
    [Parse] has a result, the same for every larger amount. *)
Theorem Parse_total (text : string) :
  exists f0 r, settles (fun f => Parse f (NewParser text)) f0 r.
Proof.
  apply (parseProgram_total (S (to_read (NewParser text)))).
  - apply good_NewParser.
  - lia.
Qed.

End parser_total.

(** ** Whole runs *)

Module process.

Import lexer parser runner techon.

(** C2, as the code has it.  In [VARIABLE x 3 5 x ! 3 x @] the number
    after the name is not followed by [CELLS], so it is pushed back and
    parsed as a statement of its own: the program pushes 3 before it stores
    5 in [x], and the run ends with the stack [3, 3, 5]. *)
Theorem variable_x_example :
  forall k, exists m,
    run (30 + k) "VARIABLE x 3 5 x ! 3 x @" = Some (Executed (Returns None m)) /\
    Stack m = Some [3; 3; 5] /\
    main (30 + k) "VARIABLE x 3 5 x ! 3 x @"
      = Some (Stdout ("[3,3,5]" +:+ newline)).
Proof.
  intros k. eexists. split; [|split].
  - apply techon_fuel.run_more. vm_compute. reflexivity.
  - reflexivity.
  - apply techon_fuel.main_more. vm_compute. reflexivity.
Qed.

(** No run of [VARIABLE x 3 5 x ! 3 x @] ends with the stack [3, 5]. *)
Lemma variable_x_example_is_not_3_5 :
  ~ exists fuel m,
      run fuel "VARIABLE x 3 5 x ! 3 x @" = Some (Executed (Returns None m)) /\
      elems (Stack m) = [3; 5].
Proof.
  intros (fuel & m & Hrun & Hs).
  assert (exists m0,
            run 30 "VARIABLE x 3 5 x ! 3 x @" = Some (Executed (Returns None m0)) /\
            Stack m0 = Some [3; 3; 5]) as (m0 & H0 & Hs0).
  { eexists. split; [vm_compute; reflexivity | reflexivity]. }
  pose proof (techon_fuel.run_functional _ _ _ _ _ Hrun H0) as E.
  injection E as ->. rewrite Hs0 in Hs. discriminate Hs.
Qed.

(** C9, where the code departs from it.  A program that never pushes
    leaves the stack the nil slice it was in the fresh machine, and the
    encoder prints null for it, not an array.  A stack emptied after a
    push is printed as the empty array. *)
Theorem untouched_stack_prints_null :
  (forall k, main (20 + k) "" = Some (Stdout ("null" +:+ newline))) /\
  (forall k, main (20 + k) "VARIABLE x" = Some (Stdout ("null" +:+ newline))) /\
  (forall k, main (20 + k) "1 DROP" = Some (Stdout ("[]" +:+ newline))).
Proof.
  repeat split; intros k; apply techon_fuel.main_more; vm_compute; reflexivity.
Qed.



End process.

(** ** What every run keeps *)

Module machine_facts.

Import lexer parser runner techon.

Local Ltac step_cases Hs Hp :=
  let H := fresh in
  intros ? ? ? H; repeat case_match; intros; simplify_eq;
  try done; try (by apply Hs); try (by apply Hs, Hp).

Lemma primitives_keep (P : Machine -> Prop) :
  closed_under_steps P ->
  forall (m : Machine) (e : option string) (m' : Machine), P m ->
    (forall k, pushNumber k m = Returns e m' -> P m') /\
    (forall t, mathOperation t m = Returns e m' -> P m') /\
    (drop m = Returns e m' -> P m') /\
    (dup m = Returns e m' -> P m') /\
    (swap m = Returns e m' -> P m') /\
    (forall t, compare t m = Returns e m' -> P m') /\
    (get m = Returns e m' -> P m') /\
    (store m = Returns e m' -> P m') /\
    (forall b, debugComments b m = Returns e m' -> P m').
Proof.
  intros (Hs & Hp & _ & _) m e m' Hm.
  unfold pushNumber, mathOperation, drop, dup, swap, compare, get, store,
    debugComments.
  split; [|split; [|split; [|split; [|split; [|split; [|split; [|split]]]]]]];
    intros; repeat case_match; simplify_eq;
    try done; try (by apply Hs); try (by apply Hs, Hp).
Qed.

Lemma execSeq_keeps (P : Machine -> Prop)
    (ex : Statement -> Machine -> option Exit) :
  (forall st m e m', P m -> ex st m = Some (Returns e m') -> P m') ->
  forall l m e m', P m -> execSeq ex l m = Some (Returns e m') -> P m'.
Proof.
  intros Hex l. induction l as [|st tl IH]; intros m e m' Hm; simpl.
  - by intros [= <- <-].
  - destruct (ex st m) as [[[e1|] m1|]|] eqn:E; try done.
    + intros [= <- <-]. by eapply Hex.
    + apply IH. by eapply Hex.
Qed.

Lemma exec_while_keep (P : Machine -> Prop) :
  closed_under_steps P ->
  forall n,
    (forall st m e m', P m -> exec n st m = Some (Returns e m') -> P m') /\
    (forall b m e m', P m -> while n b m = Some (Returns e m') -> P m').
Proof.
  intros HP. pose proof HP as (Hs & Hp & Hd & Hf).
  induction n as [|n [IHe IHw]]; [split; intros; discriminate|].
  pose proof (execSeq_keeps P (exec n) IHe) as IHs.
  split.
  - intros st m e m' Hm. cbn [exec].
    destruct (primitives_keep P HP m e m' Hm)
      as (H1 & H2 & H3 & H4 & H5 & H6 & H7 & H8 & H9).
    destruct st; try (intros H; apply (inj Some) in H; by eauto).
    + by apply IHs.
    + unfold indentifierCall. destruct (_ !! _).
      * intros [= <- <-]. by apply Hs.
      * destruct (_ !! _); [by apply IHs|]. by intros [= <- <-].
    + unfold _if. destruct (_ <? _); [by intros [= <- <-]|].
      destruct (negb _); [by apply IHs, Hs|].
      destruct (_ <? _)%nat; [by apply IHs, Hs|].
      intros [= <- <-]. by apply Hs.
    + by apply IHw.
    + by intros [= <- <-].
  - intros b m e m' Hm. simpl.
    destruct (_ <? _); [by intros [= <- <-]|].
    destruct (_ =? _); [intros [= <- <-]; by apply Hs|].
    destruct (execSeq _ _ _) as [[[e1|] m1|]|] eqn:E; try done.
    + intros [= <- <-]. eapply IHs; [|exact E]. by apply Hs.
    + apply IHw. eapply IHs; [|exact E]. by apply Hs.
Qed.

Lemma exec_keeps (P : Machine -> Prop) (n : nat) (st : Statement)
    (m m' : Machine) (e : option string) :
  closed_under_steps P -> P m -> exec n st m = Some (Returns e m') -> P m'.
Proof. intros HP. apply (exec_while_keep P HP n). Qed.

(** The two ways in which [declareVariable] returns. *)
Lemma declareVariable_cases (name : string) (cells : Z) (m m' : Machine)
    (e : option string) :
  declareVariable name cells m = Returns e m' ->
  (is_Some e /\ m' = m /\
   (is_Some (Addresses m !! name) \/ is_Some (Functions m !! name))) \/
  (e = None /\ 0 <= cells /\
   Addresses m !! name = None /\ Functions m !! name = None /\
   Variables m' =
     Variables m ++ [{| Name := name; Size := cells;
                        Data := replicate (Z.to_nat cells) 0 |}] /\
   Functions m' = Functions m /\ Stack m' = Stack m /\
   exists addr, Addresses m' = <[name := addr]> (Addresses m)).
Proof.
  unfold declareVariable, has.
  destruct (Z.ltb_spec cells 0); [done|].
  case_bool_decide as Ha; [intros [= <- <-]; left; by eauto|].
  case_bool_decide as Hf; [intros [= <- <-]; left; by eauto|].
  intros [= <- <-]. right. simpl.
  apply eq_None_not_Some in Ha, Hf. by eauto 10.
Qed.

Lemma function_cases (name : string) (body : list Statement) (m m' : Machine)
    (e : option string) :
  function name body m = Returns e m' ->
  (is_Some e /\ m' = m /\
   (is_Some (Addresses m !! name) \/ is_Some (Functions m !! name))) \/
  (e = None /\
   Addresses m !! name = None /\ Functions m !! name = None /\
   Variables m' = Variables m /\ Addresses m' = Addresses m /\
   Stack m' = Stack m /\ Functions m' = <[name := body]> (Functions m)).
Proof.
  unfold function, has.
  case_bool_decide as Ha; [intros [= <- <-]; left; by eauto|].
  case_bool_decide as Hf; [intros [= <- <-]; left; by eauto|].
  intros [= <- <-]. right. simpl.
  apply eq_None_not_Some in Ha, Hf. by eauto 10.
Qed.

Lemma shape_poke (m : Machine) (i idx : nat) (v : Z) :
  Addresses (poke m i idx v) = Addresses m /\
  Functions (poke m i idx v) = Functions m /\
  Stack (poke m i idx v) = Stack m /\
  shape <$> Variables (poke m i idx v) = shape <$> Variables m /\
  Name <$> Variables (poke m i idx v) = Name <$> Variables m.
Proof.
  unfold poke. destruct (Variables m !! i) as [x|] eqn:Hx; [|done]. simpl.
  repeat split.
  - rewrite list_fmap_insert. apply list_insert_id.
    by rewrite list_lookup_fmap, Hx.
  - rewrite list_fmap_insert. apply list_insert_id.
    by rewrite list_lookup_fmap, Hx.
Qed.

Lemma extends_refl (m : Machine) : extends m m.
Proof. by repeat split. Qed.

Lemma extends_closed (m0 : Machine) : closed_under_steps (extends m0).
Proof.
  unfold extends. split; [|split; [|split]].
  - by intros m s (? & ? & ?).
  - intros m i idx v (Ha & Hf & Hv).
    by destruct (shape_poke m i idx v) as (-> & -> & _ & -> & _).
  - intros m name cells e m' (Ha & Hf & Hv) H.
    destruct (declareVariable_cases _ _ _ _ _ H)
      as [(_ & -> & _)|(_ & _ & Hfresh & _ & -> & -> & _ & addr & ->)];
      [done|].
    split; [|split; [done|]].
    + etrans; [apply Ha|]. by apply insert_subseteq.
    + rewrite fmap_app. etrans; [apply Hv|]. by apply prefix_app_r.
  - intros m name body e m' (Ha & Hf & Hv) H.
    destruct (function_cases _ _ _ _ _ H)
      as [(_ & -> & _)|(_ & _ & Hfresh & -> & -> & _ & ->)]; [done|].
    split; [done|]. split; [|done].
    etrans; [apply Hf|]. by apply insert_subseteq.
Qed.

Lemma names_ok_NewMachine : names_ok NewMachine.
Proof.
  unfold names_ok. simpl. repeat split.
  - intros [? H]. by rewrite lookup_empty in H.
  - intros H. by apply elem_of_nil in H.
  - constructor.
Qed.

Lemma names_ok_closed : closed_under_steps names_ok.
Proof.
  unfold names_ok. split; [|split; [|split]].
  - tauto.
  - intros m i idx v.
    destruct (shape_poke m i idx v) as (-> & -> & _ & _ & ->). tauto.
  - intros m name cells e m' (Hdom & Hnd & Hdis) H.
    destruct (declareVariable_cases _ _ _ _ _ H)
      as [(_ & -> & _)|(_ & _ & Ha & Hf & -> & -> & _ & addr & ->)]; [done|].
    rewrite fmap_app. simpl. split; [|split].
    + intros nm. rewrite lookup_insert_is_Some, elem_of_app, list_elem_of_singleton.
      rewrite <- Hdom. split.
      * intros [-> | [_ Hs]]; by eauto.
      * intros [Hs | ->]; [|by left]. right. split; [|done].
        intros ->. rewrite Ha in Hs. by destruct Hs.
    + apply NoDup_app. split; [done|]. split; [|apply NoDup_singleton].
      intros nm Hin ->%list_elem_of_singleton.
      apply Hdom in Hin. rewrite Ha in Hin. by destruct Hin.
    + intros nm [-> | [_ Hs]]%lookup_insert_is_Some; [done|by apply Hdis].
  - intros m name body e m' (Hdom & Hnd & Hdis) H.
    destruct (function_cases _ _ _ _ _ H)
      as [(_ & -> & _)|(_ & Ha & Hf & -> & -> & _ & ->)]; [done|].
    split; [done|]. split; [done|].
    intros nm Hnm. rewrite lookup_insert_ne; [by apply Hdis|].
    intros ->. rewrite Ha in Hnm. by destruct Hnm.
Qed.

Lemma exec_extends (n : nat) (st : Statement) (m m' : Machine)
    (e : option string) :
  exec n st m = Some (Returns e m') -> extends m m'.
Proof.
  apply (exec_keeps (extends m) n st m m' e (extends_closed m)), extends_refl.
Qed.

Lemma exec_names_ok (n : nat) (st : Statement) (m : Machine)
    (e : option string) :
  exec n st NewMachine = Some (Returns e m) -> names_ok m.
Proof.
  apply (exec_keeps names_ok n st NewMachine m e names_ok_closed),
    names_ok_NewMachine.
Qed.

(** X1.  Executing a statement only adds to the tables: every name keeps its
    address and every function its body, and the variables there were keep
    their place, name and size.  Nothing is removed, renamed, resized or
    moved, also when the execution ends in an error. *)
Theorem run_only_adds (n : nat) (st : Statement) (m m' : Machine)
    (e : option string) :
  exec n st m = Some (Returns e m') -> extends m m'.
Proof. apply exec_extends. Qed.

(** Three declarations on a fresh machine. *)
Lemma run_only_adds_witness :
  exec 2 three_declarations NewMachine = Some (Returns None three_variables) /\
  extends NewMachine three_variables.
Proof.
  assert (exec 2 three_declarations NewMachine
          = Some (Returns None three_variables)) as H by (vm_compute; reflexivity).
  split; [exact H|].
  exact (run_only_adds 2 three_declarations NewMachine three_variables None H).
Defined.

(** X2.  In every machine reached from a fresh one the address map has an
    entry for exactly the names of the declared variables, no two variables
    have the same name, and no name is a variable and a function at once. *)
Theorem names_stay_consistent (n : nat) (st : Statement) (m : Machine)
    (e : option string) :
  exec n st NewMachine = Some (Returns e m) -> names_ok m.
Proof. apply exec_names_ok. Qed.

Lemma names_stay_consistent_witness :
  exec 2 three_declarations NewMachine = Some (Returns None three_variables) /\
  names_ok three_variables.
Proof.
  assert (exec 2 three_declarations NewMachine
          = Some (Returns None three_variables)) as H by (vm_compute; reflexivity).
  split; [exact H|].
  exact (names_stay_consistent 2 three_declarations three_variables None H).
Defined.



(** X4.  Calling a defined function executes its body in place, on the
    caller's stack and memory: in a machine reached from a fresh one, the
    identifier of a function is executed exactly as the statements of its
    body are, one after the other. *)
Theorem call_runs_body_in_place (n k : nat) (st : Statement) (m : Machine)
    (e : option string) (name : string) (body : list Statement) :
  exec n st NewMachine = Some (Returns e m) ->
  Functions m !! name = Some body ->
  exec (S k) (IdentifierCallStatement name) m = execSeq (exec k) body m.
Proof.
  intros Hrun Hf. destruct (exec_names_ok _ _ _ _ Hrun) as (_ & _ & Hdis).
  cbn [exec]. unfold indentifierCall.
  destruct (Addresses m !! name) as [a|] eqn:Ha.
  - rewrite Hdis in Hf by (by eexists). discriminate.
  - by rewrite Hf.
Qed.

Lemma call_runs_body_in_place_witness :
  exec 1 double_definition NewMachine = Some (Returns None double_defined) /\
  Functions double_defined !! "double"
    = Some [PushNumberStatement 2; MathOperationStatement Multiply] /\
  exec 3 (IdentifierCallStatement "double") double_defined
    = execSeq (exec 2) [PushNumberStatement 2; MathOperationStatement Multiply]
        double_defined.
Proof.
  assert (exec 1 double_definition NewMachine
          = Some (Returns None double_defined)) as H1 by (vm_compute; reflexivity).
  assert (Functions double_defined !! "double"
          = Some [PushNumberStatement 2; MathOperationStatement Multiply]) as H2
    by (vm_compute; reflexivity).
  split; [exact H1|]. split; [exact H2|].
  exact (call_runs_body_in_place 1 2 double_definition double_defined None
           "double" _ H1 H2).
Defined.

End machine_facts.

(** ** Cells and addresses *)

Module memory.

Import lexer parser runner techon.

Lemma middle (vs : list Variable_) (i : nat) (x : Variable_) :
  vs !! i = Some x -> vs = take i vs ++ x :: skipn (S i) vs /\ length (take i vs) = i.
Proof.
  intros H. split.
  - by rewrite take_drop_middle.
  - rewrite length_take. apply lookup_lt_Some in H. lia.
Qed.

Lemma resolveAddr_cell (m : Machine) (i : nat) (x : Variable_) (k : Z) :
  cells_ok m -> sum_sizes (Variables m) <= max_int ->
  Variables m !! i = Some x -> 0 <= k < Size x ->
  resolveAddr m (base (Variables m) i + k) = Cell i (Z.to_nat k).
Proof.
  intros Hok Hmax Hx Hk. destruct (middle _ _ _ Hx) as [Hvs Hlen].
  rewrite (address_space.resolveAddr_at m (take i (Variables m))
             (skipn (S i) (Variables m)) x); try done.
  - rewrite Hlen. unfold base. do 2 f_equal. lia.
  - unfold base. lia.
Qed.

(** X5.  On a machine whose variables own their cells, cell [k] of the
    variable at position [i] has the address [base + k], where [base] is the
    number of cells of the variables before it: that address resolves to
    this variable and index [k]. *)
Theorem resolveAddr_in_region (m : Machine) (i : nat) (x : Variable_) (k : Z) :
  cells_ok m -> sum_sizes (Variables m) <= max_int ->
  Variables m !! i = Some x -> 0 <= k < Size x ->
  resolveAddr m (base (Variables m) i + k) = Cell i (Z.to_nat k).
Proof. apply resolveAddr_cell. Qed.

Lemma resolveAddr_in_region_witness :
  cells_ok three_variables /\
  sum_sizes (Variables three_variables) <= max_int /\
  Variables three_variables !! 2%nat
    = Some {| Name := "c"; Size := 2; Data := [0; 0] |} /\
  0 <= 1 < 2 /\
  resolveAddr three_variables (base (Variables three_variables) 2 + 1)
    = Cell 2 (Z.to_nat 1).
Proof.
  assert (cells_ok three_variables) as H1.
  { unfold cells_ok. vm_compute. repeat constructor; discriminate. }
  assert (sum_sizes (Variables three_variables) <= max_int) as H2
    by (vm_compute; discriminate).
  assert (Variables three_variables !! 2%nat
          = Some {| Name := "c"; Size := 2; Data := [0; 0] |}) as H3
    by (vm_compute; reflexivity).
  assert (0 <= 1 < 2) as H4 by lia.
  split; [exact H1|]. split; [exact H2|]. split; [exact H3|]. split; [exact H4|].
  exact (resolveAddr_in_region three_variables 2 _ 1 H1 H2 H3 H4).
Defined.

(** X6.  Outside the regions.  A negative address never resolves.  An
    address from the end of the address space on resolves exactly when it
    is less than the end plus the size of the last variable, and then into
    the last variable, at the distance from the end; further out it does not
    resolve. *)
Theorem resolveAddr_outside (m : Machine) (pre : list Variable_)
    (x : Variable_) (a : Z) :
  cells_ok m -> Variables m = pre ++ [x] ->
  sum_sizes (Variables m) + Size x <= max_int ->
  (a < 0 -> resolveAddr m a = NoAddr "could not resolve address") /\
  (sum_sizes (Variables m) <= a ->
   resolveAddr m a =
     if a <? sum_sizes (Variables m) + Size x
     then Cell (length pre) (Z.to_nat (a - sum_sizes (Variables m)))
     else NoAddr "could not resolve address").
Proof.
  intros Hok Hvs Hmax.
  assert (0 <= Size x) as Hx.
  { pose proof (address_space.cells_ok_sizes m Hok) as Hs. rewrite Hvs in Hs.
    apply Forall_app in Hs as [_ Hs]. by inversion Hs. }
  split.
  - intros Ha. apply address_space.resolveAddr_negative; [done|lia|done].
  - intros Ha. by apply address_space.resolveAddr_after_last.
Qed.

Lemma resolveAddr_outside_witness :
  cells_ok one_cell /\
  Variables one_cell = [] ++ [{| Name := "x"; Size := 1; Data := [7] |}] /\
  sum_sizes (Variables one_cell) + 1 <= max_int /\
  resolveAddr one_cell (-1) = NoAddr "could not resolve address" /\
  resolveAddr one_cell 2 = NoAddr "could not resolve address".
Proof.
  assert (cells_ok one_cell) as H1.
  { unfold cells_ok. vm_compute. repeat constructor; discriminate. }
  assert (Variables one_cell
          = [] ++ [{| Name := "x"; Size := 1; Data := [7] |}]) as H2
    by reflexivity.
  assert (sum_sizes (Variables one_cell) + 1 <= max_int) as H3
    by (vm_compute; discriminate).
  split; [exact H1|]. split; [exact H2|]. split; [exact H3|].
  split.
  - exact (proj1 (resolveAddr_outside one_cell [] _ (-1) H1 H2 H3)
             ltac:(lia)).
  - exact (proj2 (resolveAddr_outside one_cell [] _ 2 H1 H2 H3)
             ltac:(vm_compute; discriminate)).
Defined.

(** X7.  Indexing an array.  In a machine reached from a fresh one, for the
    variable [x] and an index [k] within its size, the statements
    [x k + @] push the value of cell [k] of [x], and [v x k + !] write [v]
    into that cell and nothing else, leaving the stack as it was. *)
Theorem indexed_cell_access (n f : nat) (st : Statement) (e : option string)
    (m : Machine) (i : nat) (x : Variable_) (k v : Z) :
  exec n st NewMachine = Some (Returns e m) ->
  sum_sizes (Variables m) <= max_int ->
  Variables m !! i = Some x -> 0 <= k < Size x ->
  exec (S (S f))
    (Program [IdentifierCallStatement (Name x); PushNumberStatement k;
              MathOperationStatement Plus; GetStatement]) m
  = Some (Returns None
            (set_Stack m
               (Some (elems (Stack m) ++ [nth (Z.to_nat k) (Data x) 0])))) /\
  exec (S (S f))
    (Program [PushNumberStatement v; IdentifierCallStatement (Name x);
              PushNumberStatement k; MathOperationStatement Plus;
              StoreStatement]) m
  = Some (Returns None
            (set_Stack
               (set_Variables m
                  (<[i := {| Name := Name x; Size := Size x;
                             Data := <[Z.to_nat k := v]> (Data x) |}]>
                     (Variables m)))
               (Some (elems (Stack m))))).
Proof.
  intros Hrun Hmax Hx Hk.
  destruct (address_space.reachable_inv _ _ _ _ Hrun) as [Hok Haddr].
  specialize (Haddr Hmax i x Hx).
  pose proof (address_space.cells_ok_sizes m Hok) as Hs.
  pose proof (address_space.base_le_total (Variables m) i Hs) as Hb.
  pose proof (address_space.base_le_total (Variables m) (S i) Hs) as Hb'.
  rewrite (address_space.base_S _ _ _ Hx) in Hb'.
  set (b := base (Variables m) i) in *.
  assert (wrap (b + k) = b + k) as Hw by (apply wrap_id; unfold min_int; lia).
  set (s0 := elems (Stack m)).
  split.
  - set (m2 := set_Stack m (Some (s0 ++ [b + k]))).
    assert (resolveAddr m2 (b + k) = Cell i (Z.to_nat k)) as Hr
      by (by apply (resolveAddr_cell m2 i x k)).
    cbn [exec execSeq]. unfold indentifierCall. rewrite Haddr.
    cbn [pushNumber].
    rewrite (stack_ops.mathOperation_on _ Plus s0 b k);
      [|unfold append; simpl; by rewrite <- app_assoc].
    cbn [mathResult]. rewrite Hw.
    match goal with |- context [get ?M] => change M with m2 end.
    rewrite (address_space.get_on m2 s0 (b + k) i (Z.to_nat k)); [|done|done].
    unfold load. change (Variables m2) with (Variables m). by rewrite Hx.
  - set (m3 := set_Stack m (Some (s0 ++ [v; b + k]))).
    assert (resolveAddr m3 (b + k) = Cell i (Z.to_nat k)) as Hr
      by (by apply (resolveAddr_cell m3 i x k)).
    cbn [exec execSeq]. unfold indentifierCall. cbn [pushNumber].
    change (Addresses (set_Stack m (append (Stack m) v))) with (Addresses m).
    rewrite Haddr. cbn [pushNumber].
    rewrite (stack_ops.mathOperation_on _ Plus (s0 ++ [v]) b k);
      [|unfold append; simpl; by rewrite <- !app_assoc].
    cbn [mathResult]. rewrite Hw.
    match goal with
    | |- context [store ?M] =>
        replace M with m3 by (unfold m3; by rewrite <- app_assoc)
    end.
    rewrite (address_space.store_on m3 s0 v (b + k) i (Z.to_nat k));
      [|done|done].
    unfold poke. change (Variables m3) with (Variables m). by rewrite Hx.
Qed.

Lemma indexed_cell_access_witness :
  exec 2 three_declarations NewMachine = Some (Returns None three_variables) /\
  sum_sizes (Variables three_variables) <= max_int /\
  Variables three_variables !! 2%nat
    = Some {| Name := "c"; Size := 2; Data := [0; 0] |} /\
  0 <= 1 < 2 /\
  exec 2
    (Program [IdentifierCallStatement "c"; PushNumberStatement 1;
              MathOperationStatement Plus; GetStatement]) three_variables
  = Some (Returns None
            (set_Stack three_variables
               (Some (elems (Stack three_variables) ++ [nth (Z.to_nat 1) [0; 0] 0])))).
Proof.
  assert (exec 2 three_declarations NewMachine
          = Some (Returns None three_variables)) as H0 by (vm_compute; reflexivity).
  assert (sum_sizes (Variables three_variables) <= max_int) as H2
    by (vm_compute; discriminate).
  assert (Variables three_variables !! 2%nat
          = Some {| Name := "c"; Size := 2; Data := [0; 0] |}) as H3
    by (vm_compute; reflexivity).
  assert (0 <= 1 < 2) as H4 by lia.
  split; [exact H0|]. split; [exact H2|]. split; [exact H3|]. split; [exact H4|].
  exact (proj1 (indexed_cell_access 2 0 three_declarations None three_variables
                  2 _ 1 0 H0 H2 H3 H4)).
Defined.

Lemma cells_ok_poke (m : Machine) (i idx : nat) (v : Z) :
  cells_ok m -> cells_ok (poke m i idx v).
Proof.
  intros Hok. unfold poke. destruct (Variables m !! i) as [x|] eqn:Hx; [|done].
  unfold cells_ok in *. simpl. apply Forall_insert; [done|].
  rewrite Forall_lookup in Hok. destruct (Hok _ _ Hx) as [H1 H2].
  simpl. by rewrite length_insert.
Qed.

Lemma region_index (m : Machine) (a : Z) :
  cells_ok m -> 0 <= a < sum_sizes (Variables m) ->
  exists i x, Variables m !! i = Some x /\
    0 <= a - base (Variables m) i < Size x.
Proof.
  intros Hok Ha.
  destruct (address_space.find_region _ a
              (address_space.cells_ok_sizes m Hok) Ha)
    as (pre & x & post & Hvs & Hx).
  exists (length pre), x. rewrite Hvs. split; [by apply list_lookup_middle|].
  unfold base. rewrite take_app_length. lia.
Qed.

(** X8.  A store changes one cell only.  On a machine whose variables own
    their cells, after a store to the address [a] every other address of
    the address space resolves to the cell it resolved to before, and that
    cell holds what it held. *)
Theorem store_leaves_other_cells (m : Machine) (l : list Z) (v a a' : Z) :
  cells_ok m -> sum_sizes (Variables m) <= max_int ->
  Stack m = Some (l ++ [v; a]) ->
  0 <= a < sum_sizes (Variables m) ->
  0 <= a' < sum_sizes (Variables m) -> a' <> a ->
  exists m1 i idx,
    store m = Returns None m1 /\ Stack m1 = Some l /\
    resolveAddr m a' = Cell i idx /\
    resolveAddr m1 a' = Cell i idx /\
    load m1 i idx = load m i idx.
Proof.
  intros Hok Hmax Hst Ha Ha' Hne.
  destruct (region_index m a Hok Ha) as (i & x & Hx & Hk).
  destruct (region_index m a' Hok Ha') as (j & y & Hy & Hk').
  set (k := a - base (Variables m) i) in *.
  set (k' := a' - base (Variables m) j) in *.
  assert (resolveAddr m a = Cell i (Z.to_nat k)) as Hr.
  { replace a with (base (Variables m) i + k) at 1 by (unfold k; lia).
    by apply (resolveAddr_cell m i x k). }
  assert (resolveAddr m a' = Cell j (Z.to_nat k')) as Hr'.
  { replace a' with (base (Variables m) j + k') at 1 by (unfold k'; lia).
    by apply (resolveAddr_cell m j y k'). }
  set (m1 := set_Stack (poke m i (Z.to_nat k) v) (Some l)).
  destruct (machine_facts.shape_poke m i (Z.to_nat k) v)
    as (_ & _ & _ & Hshape & _).
  assert (Size <$> Variables m1 = Size <$> Variables m) as Hsz.
  { change (Variables m1) with (Variables (poke m i (Z.to_nat k) v)).
    apply (f_equal (fmap snd)) in Hshape.
    by rewrite <- !list_fmap_compose in Hshape. }
  assert (exists y', Variables m1 !! j = Some y' /\ Size y' = Size y /\
            nth (Z.to_nat k') (Data y') 0 = nth (Z.to_nat k') (Data y) 0)
    as (y' & Hy' & Hsy & Hdata).
  { unfold m1, poke. rewrite Hx. simpl.
    destruct (decide (j = i)) as [->|Hji].
    - rewrite Hy in Hx. injection Hx as ->.
      eexists. split; [apply list_lookup_insert_eq; by eapply lookup_lt_Some|].
      split; [done|]. simpl.
      assert (Z.to_nat k' <> Z.to_nat k) as Hkk by (unfold k, k' in *; lia).
      destruct (nth_lookup_or_length (Data x) (Z.to_nat k') 0) as [H1|H1].
      + apply nth_lookup_Some. by rewrite list_lookup_insert_ne.
      + rewrite !nth_overflow; [done|lia|rewrite length_insert; lia].
    - exists y. by rewrite list_lookup_insert_ne. }
  exists m1, j, (Z.to_nat k').
  split; [by apply (address_space.store_on m l v a i (Z.to_nat k))|].
  split; [done|]. split; [done|].
  split.
  - replace a' with (base (Variables m1) j + k').
    + apply (resolveAddr_cell m1 j y' k'); try done.
      * apply (cells_ok_poke m i (Z.to_nat k) v Hok).
      * by rewrite (address_space.sum_sizes_sizes _ _ Hsz).
      * lia.
    + rewrite (address_space.base_sizes _ _ j Hsz). unfold k'. lia.
  - unfold load. by rewrite Hy', Hy.
Qed.

Lemma store_leaves_other_cells_witness :
  cells_ok (set_Stack three_variables (Some [9; 4])) /\
  sum_sizes (Variables (set_Stack three_variables (Some [9; 4]))) <= max_int /\
  Stack (set_Stack three_variables (Some [9; 4])) = Some ([] ++ [9; 4]) /\
  0 <= 4 < sum_sizes (Variables (set_Stack three_variables (Some [9; 4]))) /\
  0 <= 5 < sum_sizes (Variables (set_Stack three_variables (Some [9; 4]))) /\
  5 <> 4 /\
  exists m1 i idx,
    store (set_Stack three_variables (Some [9; 4])) = Returns None m1 /\
    Stack m1 = Some [] /\
    resolveAddr (set_Stack three_variables (Some [9; 4])) 5 = Cell i idx /\
    resolveAddr m1 5 = Cell i idx /\
    load m1 i idx = load (set_Stack three_variables (Some [9; 4])) i idx.
Proof.
  assert (cells_ok (set_Stack three_variables (Some [9; 4]))) as H1.
  { unfold cells_ok. vm_compute. repeat constructor; discriminate. }
  assert (sum_sizes (Variables (set_Stack three_variables (Some [9; 4])))
          <= max_int) as H2 by (vm_compute; discriminate).
  assert (Stack (set_Stack three_variables (Some [9; 4])) = Some ([] ++ [9; 4]))
    as H3 by reflexivity.
  assert (0 <= 4 < sum_sizes (Variables (set_Stack three_variables (Some [9; 4]))))
    as H4 by (vm_compute; split; [discriminate | reflexivity]).
  assert (0 <= 5 < sum_sizes (Variables (set_Stack three_variables (Some [9; 4]))))
    as H5 by (vm_compute; split; [discriminate | reflexivity]).
  assert (5 <> 4) as H6 by lia.
  split; [exact H1|]. split; [exact H2|]. split; [exact H3|].
  split; [exact H4|]. split; [exact H5|]. split; [exact H6|].
  exact (store_leaves_other_cells _ [] 9 4 5 H1 H2 H3 H4 H5 H6).
Defined.

End memory.

(** ** Stack shuffles, comparisons and control *)

Module control.

Import lexer parser runner techon.

Lemma set_Stack_same (m : Machine) : set_Stack m (Stack m) = m.
Proof. by destruct m. Qed.

Lemma dup_on (m : Machine) (l : list Z) (a : Z) :
  Stack m = Some (l ++ [a]) ->
  dup m = Returns None (set_Stack m (Some (l ++ [a; a]))).
Proof.
  intros H. unfold dup. rewrite H, at_top, len_one.
  destruct (Z.ltb_spec (Z.of_nat (length l) + 1) 1); [lia|].
  unfold append. simpl. by rewrite <- app_assoc.
Qed.

Lemma drop_on (m : Machine) (l : list Z) (a : Z) :
  Stack m = Some (l ++ [a]) -> drop m = Returns None (set_Stack m (Some l)).
Proof.
  intros H. unfold drop. rewrite H, upto_top, len_one.
  by destruct (Z.ltb_spec (Z.of_nat (length l) + 1) 1); [lia|].
Qed.

Lemma swap_on (m : Machine) (l : list Z) (a b : Z) :
  Stack m = Some (l ++ [a; b]) ->
  swap m = Returns None (set_Stack m (Some (l ++ [b; a]))).
Proof.
  intros H. unfold swap. rewrite H, at_second, at_top2, len_two.
  destruct (Z.ltb_spec (Z.of_nat (length l) + 2) 2); [lia|].
  do 3 f_equal. simpl.
  replace (Z.to_nat (Z.of_nat (length l) + 2 - 2)) with (length l + 0)%nat by lia.
  replace (Z.to_nat (Z.of_nat (length l) + 2 - 1)) with (length l + 1)%nat by lia.
  by rewrite !insert_app_r.
Qed.

(** X9.  Dup, Drop and Swap on a stack that is deep enough: Dup puts a copy
    of the top on the stack, Drop takes the top away, Swap exchanges the top
    two values, and the values underneath stay.  Swap twice, and Dup
    followed by Drop, give back the machine unchanged. *)
Theorem dup_drop_swap (m : Machine) (k : nat) :
  (forall l a, Stack m = Some (l ++ [a]) ->
     exec (S k) DupStatement m
       = Some (Returns None (set_Stack m (Some (l ++ [a; a])))) /\
     exec (S k) DropStatement m = Some (Returns None (set_Stack m (Some l))) /\
     exec (S (S k)) (Program [DupStatement; DropStatement]) m
       = Some (Returns None m)) /\
  (forall l a b, Stack m = Some (l ++ [a; b]) ->
     exec (S k) SwapStatement m
       = Some (Returns None (set_Stack m (Some (l ++ [b; a])))) /\
     exec (S (S k)) (Program [SwapStatement; SwapStatement]) m
       = Some (Returns None m)).
Proof.
  split.
  - intros l a H. cbn [exec execSeq].
    rewrite (dup_on m l a H), (drop_on m l a H).
    split; [done|]. split; [done|].
    rewrite (drop_on _ (l ++ [a]) a) by (simpl; by rewrite <- app_assoc).
    change (set_Stack (set_Stack m _) (Some (l ++ [a])))
      with (set_Stack m (Some (l ++ [a]))).
    by rewrite <- H, set_Stack_same.
  - intros l a b H. cbn [exec execSeq].
    rewrite (swap_on m l a b H). split; [done|].
    rewrite (swap_on _ l b a) by done.
    change (set_Stack (set_Stack m _) (Some (l ++ [a; b])))
      with (set_Stack m (Some (l ++ [a; b]))).
    by rewrite <- H, set_Stack_same.
Qed.

Lemma dup_drop_swap_witness :
  Stack (set_Stack NewMachine (Some [1; 2])) = Some ([] ++ [1; 2]) /\
  exec 1 SwapStatement (set_Stack NewMachine (Some [1; 2]))
    = Some (Returns None
              (set_Stack (set_Stack NewMachine (Some [1; 2])) (Some ([] ++ [2; 1])))) /\
  exec 2 (Program [SwapStatement; SwapStatement])
    (set_Stack NewMachine (Some [1; 2]))
    = Some (Returns None (set_Stack NewMachine (Some [1; 2]))).
Proof.
  assert (Stack (set_Stack NewMachine (Some [1; 2])) = Some ([] ++ [1; 2])) as H
    by reflexivity.
  split; [exact H|].
  exact (proj2 (dup_drop_swap (set_Stack NewMachine (Some [1; 2])) 0) [] 1 2 H).
Defined.

(** X10.  A comparison on a stack of depth two or more takes the top two
    values away and puts 1 in their place when the value below the top
    stands in the relation to the top, 0 when it does not. *)
Theorem compare_pushes_flag (m : Machine) (k : nat) (l : list Z) (a b : Z) :
  Stack m = Some (l ++ [a; b]) ->
  let flag (holds : bool) := set_Stack m (Some (l ++ [if holds then 1 else 0])) in
  exec (S k) (CompareOperationStatement EQ) m
    = Some (Returns None (flag (bool_decide (a = b)))) /\
  exec (S k) (CompareOperationStatement LT) m
    = Some (Returns None (flag (bool_decide (a < b)))) /\
  exec (S k) (CompareOperationStatement GT) m
    = Some (Returns None (flag (bool_decide (a > b)))) /\
  exec (S k) (CompareOperationStatement LTE) m
    = Some (Returns None (flag (bool_decide (a <= b)))) /\
  exec (S k) (CompareOperationStatement GTE) m
    = Some (Returns None (flag (bool_decide (a >= b)))).
Proof.
  intros H flag. cbn [exec]. unfold compare, flag.
  rewrite H, at_second, at_top2, upto_top2, len_two.
  destruct (Z.ltb_spec (Z.of_nat (length l) + 2) 2); [lia|].
  unfold append. cbn [compareResult elems default].
  repeat split; do 6 f_equal.
  - destruct (Z.eqb_spec a b); by case_bool_decide.
  - destruct (Z.ltb_spec a b); case_bool_decide; done || lia.
  - destruct (Z.gtb_spec a b); case_bool_decide; done || lia.
  - destruct (Z.leb_spec a b); case_bool_decide; done || lia.
  - destruct (Z.geb_spec a b); case_bool_decide; done || lia.
Qed.

Lemma compare_pushes_flag_witness :
  Stack (set_Stack NewMachine (Some [3; 5])) = Some ([] ++ [3; 5]) /\
  exec 1 (CompareOperationStatement LT) (set_Stack NewMachine (Some [3; 5]))
    = Some (Returns None
              (set_Stack (set_Stack NewMachine (Some [3; 5]))
                 (Some ([] ++ [if bool_decide (3 < 5) then 1 else 0])))).
Proof.
  assert (Stack (set_Stack NewMachine (Some [3; 5])) = Some ([] ++ [3; 5])) as H
    by reflexivity.
  split; [exact H|].
  exact (proj1 (proj2 (compare_pushes_flag (set_Stack NewMachine (Some [3; 5]))
                         0 [] 3 5 H))).
Defined.

(** X11.  If takes the condition off the stack and then executes exactly
    one branch in place: the primary body when the condition is not zero,
    the else body when it is zero, which is nothing at all when there is no
    else. *)
Theorem if_runs_one_branch (m : Machine) (n : nat) (l : list Z) (c : Z)
    (Body ElseBody : list Statement) :
  Stack m = Some (l ++ [c]) ->
  exec (S n) (IfStatement Body ElseBody) m
  = execSeq (exec n) (if bool_decide (c = 0) then ElseBody else Body)
      (set_Stack m (Some l)).
Proof.
  intros H. cbn [exec]. unfold _if. rewrite H, at_top, upto_top, len_one.
  destruct (Z.ltb_spec (Z.of_nat (length l) + 1) 1); [lia|].
  destruct (Z.eqb_spec c 0); case_bool_decide; try done. simpl.
  by destruct ElseBody.
Qed.

Lemma if_runs_one_branch_witness :
  Stack (set_Stack NewMachine (Some [0])) = Some ([] ++ [0]) /\
  exec 2 (IfStatement [PushNumberStatement 42] [])
    (set_Stack NewMachine (Some [0]))
  = execSeq (exec 1)
      (if bool_decide (0 = 0) then [] else [PushNumberStatement 42])
      (set_Stack (set_Stack NewMachine (Some [0])) (Some [])).
Proof.
  assert (Stack (set_Stack NewMachine (Some [0])) = Some ([] ++ [0])) as H
    by reflexivity.
  split; [exact H|].
  exact (if_runs_one_branch (set_Stack NewMachine (Some [0])) 1 [] 0
           [PushNumberStatement 42] [] H).
Defined.

Lemma while_step (m : Machine) (n : nat) (l : list Z) (c : Z)
    (Body : list Statement) :
  Stack m = Some (l ++ [c]) ->
  while (S n) Body m
  = if bool_decide (c = 0) then Some (Returns None (set_Stack m (Some l)))
    else match execSeq (exec n) Body (set_Stack m (Some l)) with
         | Some (Returns None m2) => while n Body m2
         | r => r
         end.
Proof.
  intros H. cbn [while]. rewrite H, at_top, upto_top, len_one.
  destruct (Z.ltb_spec (Z.of_nat (length l) + 1) 1); [lia|].
  destruct (Z.eqb_spec c 0); case_bool_decide; done.
Qed.

(** X12.  One round of While.  With zero on top the loop ends at once,
    having taken only the condition, whatever the body is.  With any other
    value on top the condition is taken, the body is executed once, and if
    it succeeds the loop starts again on the machine it leaves; an error or
    a panic of the body ends the loop with that result. *)
Theorem while_round (m : Machine) (n : nat) (l : list Z) (c : Z)
    (Body : list Statement) :
  Stack m = Some (l ++ [c]) ->
  exec (S (S n)) (WhileStatement Body) m
  = if bool_decide (c = 0) then Some (Returns None (set_Stack m (Some l)))
    else match execSeq (exec n) Body (set_Stack m (Some l)) with
         | Some (Returns None m2) => exec (S n) (WhileStatement Body) m2
         | r => r
         end.
Proof.
  intros H. cbn [exec]. by apply while_step.
Qed.

Lemma while_round_witness :
  Stack (set_Stack NewMachine (Some [7; 0])) = Some ([7] ++ [0]) /\
  exec 2 (WhileStatement [DropStatement; DropStatement])
    (set_Stack NewMachine (Some [7; 0]))
  = Some (Returns None (set_Stack (set_Stack NewMachine (Some [7; 0])) (Some [7]))).
Proof.
  assert (Stack (set_Stack NewMachine (Some [7; 0])) = Some ([7] ++ [0])) as H
    by reflexivity.
  split; [exact H|].
  exact (while_round (set_Stack NewMachine (Some [7; 0])) 0 [7] 0
           [DropStatement; DropStatement] H).
Defined.

Lemma countdown_loop (c : nat) :
  forall (m : Machine) (l : list Z) (f : nat),
    Stack m = Some (l ++ [Z.of_nat c; Z.of_nat c]) ->
    Z.of_nat c <= max_int -> (c + 2 <= f)%nat ->
    while f [PushNumberStatement 1; MathOperationStatement Minus; DupStatement] m
    = Some (Returns None (set_Stack m (Some (l ++ [0])))).
Proof.
  induction c as [|c IH]; intros m l f H Hmax Hf.
  - destruct f as [|f]; [lia|].
    rewrite (while_step m f (l ++ [0]) 0) by (by rewrite <- app_assoc).
    by case_bool_decide.
  - destruct f as [|[|f]]; [lia|lia|].
    rewrite (while_step m (S f) (l ++ [Z.of_nat (S c)]) (Z.of_nat (S c)))
      by (by rewrite <- app_assoc).
    case_bool_decide; [lia|].
    cbn [exec execSeq pushNumber].
    rewrite (stack_ops.mathOperation_on _ Minus l (Z.of_nat (S c)) 1)
      by (unfold append; simpl; by rewrite <- app_assoc).
    cbn [mathResult].
    rewrite wrap_id by (unfold min_int; lia).
    replace (Z.of_nat (S c) - 1) with (Z.of_nat c) by lia.
    rewrite (dup_on _ l (Z.of_nat c)) by done.
    rewrite (IH _ l (S f)); [done|done|lia|lia].
Qed.

(** X13.  A counting loop.  With a count [c] on top of the stack twice, the
    loop [WHILE 1 - DUP REPEAT] executes its body [c] times and ends with 0
    in place of the two counts; [c + 3] units of fuel are enough for it. *)
Theorem while_counts_down (c k : nat) (m : Machine) (l : list Z) :
  Stack m = Some (l ++ [Z.of_nat c; Z.of_nat c]) ->
  Z.of_nat c <= max_int ->
  exec (c + 3 + k)
    (WhileStatement
       [PushNumberStatement 1; MathOperationStatement Minus; DupStatement]) m
  = Some (Returns None (set_Stack m (Some (l ++ [0])))).
Proof.
  intros H Hmax. replace (c + 3 + k)%nat with (S (c + 2 + k)) by lia.
  cbn [exec]. apply (countdown_loop c m l); [done|done|lia].
Qed.

Lemma while_counts_down_witness :
  Stack (set_Stack NewMachine (Some [3; 3]))
    = Some ([] ++ [Z.of_nat 3; Z.of_nat 3]) /\
  Z.of_nat 3 <= max_int /\
  exec (3 + 3 + 0)
    (WhileStatement
       [PushNumberStatement 1; MathOperationStatement Minus; DupStatement])
    (set_Stack NewMachine (Some [3; 3]))
  = Some (Returns None
            (set_Stack (set_Stack NewMachine (Some [3; 3])) (Some ([] ++ [0])))).
Proof.
  assert (Stack (set_Stack NewMachine (Some [3; 3]))
          = Some ([] ++ [Z.of_nat 3; Z.of_nat 3])) as H by reflexivity.
  assert (Z.of_nat 3 <= max_int) as H' by (vm_compute; discriminate).
  split; [exact H|]. split; [exact H'|].
  exact (while_counts_down 3 0 (set_Stack NewMachine (Some [3; 3])) [] H H').
Defined.

(** X14.  A comment never changes the machine.  It returns no error unless
    it is a [debug var] directive, and that directive returns the error
    "invalid variable" for a name that no variable has. *)
Theorem comment_keeps_machine (body : string) (m : Machine) (k : nat) :
  (forall e m', exec (S k) (Comment body) m = Some (Returns e m') -> m' = m) /\
  (nth 0 (Split body) "" <> "debug" \/ nth 1 (Split body) "" <> "var" ->
   exec (S k) (Comment body) m = Some (Returns None m)) /\
  (nth 0 (Split body) "" = "debug" -> nth 1 (Split body) "" = "var" ->
   (3 <= length (Split body))%nat ->
   Addresses m !! nth 2 (Split body) "" = None ->
   exec (S k) (Comment body) m
   = Some (Returns (Some ("invalid variable " +:+ nth 2 (Split body) "")) m)).
Proof.
  cbn [exec]. unfold debugComments. split; [|split].
  - intros e m'. repeat case_match; intros; by simplify_eq.
  - intros [H|H].
    + apply String.eqb_neq in H. rewrite H. simpl. by rewrite orb_true_r.
    + apply String.eqb_neq in H. rewrite H.
      by repeat case_match.
  - intros H0 H1 H3 Ha. rewrite H0, H1, Ha. simpl.
    destruct (Nat.ltb_spec (length (Split body)) 2); [lia|].
    destruct (Nat.ltb_spec (length (Split body)) 3); [lia|]. done.
Qed.

Lemma comment_keeps_machine_witness :
  nth 0 (Split "debug var y") "" = "debug" /\
  nth 1 (Split "debug var y") "" = "var" /\
  (3 <= length (Split "debug var y"))%nat /\
  Addresses NewMachine !! nth 2 (Split "debug var y") "" = None /\
  exec 1 (Comment "debug var y") NewMachine
  = Some (Returns (Some ("invalid variable " +:+ nth 2 (Split "debug var y") ""))
            NewMachine).
Proof.
  assert (nth 0 (Split "debug var y") "" = "debug") as H0 by reflexivity.
  assert (nth 1 (Split "debug var y") "" = "var") as H1 by reflexivity.
  assert (3 <= length (Split "debug var y"))%nat as H2 by (vm_compute; lia).
  assert (Addresses NewMachine !! nth 2 (Split "debug var y") "" = None) as H3
    by reflexivity.
  split; [exact H0|]. split; [exact H1|]. split; [exact H2|]. split; [exact H3|].
  exact (proj2 (proj2 (comment_keeps_machine "debug var y" NewMachine 0))
           H0 H1 H2 H3).
Defined.

(** X15.  Nothing bounds the depth of calls: a function whose body is a
    call of itself never returns, neither a result nor an error, however
    much fuel the call is given. *)
Theorem self_call_never_returns (fuel : nat) (m : Machine) (name : string) :
  Addresses m !! name = None ->
  Functions m !! name = Some [IdentifierCallStatement name] ->
  exec fuel (IdentifierCallStatement name) m = None.
Proof.
  intros Ha Hf. induction fuel as [|fuel IH]; [done|].
  cbn [exec]. unfold indentifierCall. rewrite Ha, Hf. simpl. by rewrite IH.
Qed.

Lemma self_call_never_returns_witness :
  Addresses forever_defined !! "f" = None /\
  Functions forever_defined !! "f" = Some [IdentifierCallStatement "f"] /\
  exec 50 (IdentifierCallStatement "f") forever_defined = None.
Proof.
  assert (Addresses forever_defined !! "f" = None) as H1 by reflexivity.
  assert (Functions forever_defined !! "f" = Some [IdentifierCallStatement "f"])
    as H2 by (vm_compute; reflexivity).
  split; [exact H1|]. split; [exact H2|].
  exact (self_call_never_returns 50 forever_defined "f" H1 H2).
Defined.

End control.

(** ** What the scanner and the parser hand out *)

Module parsed.

Import lexer parser.

Lemma scanLoop_digits (r buf : string) :
  all_chars isDigit buf = true ->
  all_chars isDigit (fst (scanLoop isDigit r buf)) = true.
Proof.
  revert buf. induction r as [|ch tl IH]; intros buf Hb; simpl; [done|].
  destruct (ascii_eqb ch eof); [done|].
  destruct (isDigit ch) eqn:Hd; simpl; [|done].
  apply IH. clear IH. induction buf as [|c buf IHb]; simpl in *.
  - by rewrite Hd.
  - apply andb_true_iff in Hb as [-> Hb]. by apply IHb.
Qed.

Lemma scanLoop_nonempty (keep : ascii -> bool) (r buf : string) :
  buf <> "" -> fst (scanLoop keep r buf) <> "".
Proof.
  revert buf. induction r as [|ch tl IH]; intros buf Hb; simpl; [done|].
  destruct (ascii_eqb ch eof); [done|].
  destruct (keep ch); simpl; [|done].
  apply IH. by destruct buf.
Qed.

Lemma Scan_number_text (sc sc' : Scanner) (l : string) :
  Scan sc = (Number, l, sc') -> l <> "" /\ all_chars isDigit l = true.
Proof.
  unfold Scan, read. destruct (rest sc) as [|ch tl] eqn:Hr.
  { vm_compute. discriminate. }
  unfold scanWhitespace, scanNumber, scanIdent, scanComment, scanComparator,
    unread, read. simpl.
  pose proof (scanLoop_digits tl (String ch "")) as H1.
  pose proof (scanLoop_nonempty isDigit tl (String ch "") ltac:(done)) as H2.
  destruct (isWhitespace ch) eqn:Hw.
  { destruct (scanLoop isWhitespace _ _). discriminate. }
  destruct (isDigit ch) eqn:Hdig.
  { destruct (scanLoop isDigit _ _) as [buf s2]. simpl in *.
    intros [= <- _]. split; [done|]. apply H1. by rewrite Hdig. }
  destruct (ascii_eqb ch "-").
  { destruct tl as [|ch2 tl2]; simpl; [discriminate|].
    clear H1 H2.
    pose proof (scanLoop_digits tl2 (String ch2 "")) as H1.
    pose proof (scanLoop_nonempty isDigit tl2 (String ch2 "") ltac:(done))
      as H2.
    destruct (isDigit ch2) eqn:Hdig2; [|discriminate].
    destruct (scanLoop isDigit _ _) as [buf s2]. simpl in *.
    intros [= <- _]. split; [done|]. apply H1. by rewrite Hdig2. }
  clear H1 H2.
  repeat (case_match; simpl in *; try discriminate).
  all: try (intros [= ? _]; simplify_eq).
  all: match goal with
       | Hk : keyword _ = Some Number |- _ =>
           unfold keyword in Hk; repeat case_match; discriminate
       end.
Qed.

Lemma digit_val_range (c : ascii) : isDigit c = true -> 0 <= digit_val c <= 9.
Proof.
  unfold digit_val, isDigit, between.
  intros [H1 H2]%andb_true_iff. apply N.leb_le in H1, H2. lia.
Qed.

Lemma dec_value_nonneg (str : string) :
  forall acc, all_chars isDigit str = true -> 0 <= acc -> 0 <= dec_value acc str.
Proof.
  induction str as [|c0 str IH]; intros acc Hs Hacc; simpl; [done|].
  simpl in Hs. apply andb_true_iff in Hs as [Hc Hs]. apply IH; [done|].
  pose proof (digit_val_range c0 Hc). lia.
Qed.

Lemma Atoi_range (str : string) (n : Z) :
  Atoi str = inl n -> min_int <= n <= max_int.
Proof.
  unfold Atoi. destruct str as [|c tl]; [done|].
  repeat case_match; try done; intros [= <-];
    match goal with
    | H : _ && _ = true |- _ =>
        let Ha := fresh in let Hb := fresh in
        apply andb_true_iff in H as [Ha Hb];
        apply Z.leb_le in Ha, Hb; simpl in *; lia
    end.
Qed.

Lemma Atoi_of_digits (l : string) (n : Z) :
  all_chars isDigit l = true -> Atoi l = inl n -> 0 <= n <= max_int.
Proof.
  intros Hd Ha. split; [|by apply (Atoi_range l)].
  revert Ha. unfold Atoi.
  destruct l as [|c tl]; [done|]. simpl in Hd.
  apply andb_true_iff in Hd as [Hc Htl].
  assert (ascii_eqb c "-" = false /\ ascii_eqb c "+" = false) as [-> ->].
  { revert Hc. unfold isDigit, between, code, ascii_eqb.
    destruct (Ascii.eqb_spec c "-") as [->|]; [by vm_compute|].
    destruct (Ascii.eqb_spec c "+") as [->|]; [by vm_compute|]. done. }
  change is_dec_digit with isDigit. simpl. rewrite Hc, Htl. simpl.
  pose proof (digit_val_range c Hc).
  pose proof (dec_value_nonneg tl (10 * 0 + digit_val c) Htl ltac:(lia)).
  case_match; [|done]. by intros [= <-].
Qed.

(** X16.  The text of a number token is one or more decimal digits, never
    a sign: when a minus sign stands before a digit the scanner starts the
    number at the digit.  The integer of a number token is therefore never
    negative. *)
Theorem Scan_number_is_digits (sc sc' : Scanner) (l : string) :
  Scan sc = (Number, l, sc') ->
  l <> "" /\ all_chars isDigit l = true /\
  forall n, Atoi l = inl n -> 0 <= n <= max_int.
Proof.
  intros H. destruct (Scan_number_text _ _ _ H) as [Hne Hd].
  split; [done|]. split; [done|]. intros n. by apply Atoi_of_digits.
Qed.

Lemma Scan_number_is_digits_witness :
  Scan (NewScanner "-12 +") = (Number, "12", snd (Scan (NewScanner "-12 +"))) /\
  "12" <> "" /\ all_chars isDigit "12" = true /\
  forall n, Atoi "12" = inl n -> 0 <= n <= max_int.
Proof.
  assert (Scan (NewScanner "-12 +")
          = (Number, "12", snd (Scan (NewScanner "-12 +")))) as H
    by (vm_compute; reflexivity).
  split; [exact H|].
  exact (Scan_number_is_digits _ _ _ H).
Defined.

(** *** The buffer holds no whitespace and only numbers made of digits *)

Lemma skipWS_from_Scan (P : Token * string * Scanner -> Prop) :
  (forall sc, P (Scan sc)) -> forall n r, P r -> P (skipWS n r).
Proof.
  intros HP n. induction n as [|n IH]; intros [[t l] sc] Hr; simpl.
  - by destruct t.
  - destruct t; try done. apply IH, HP.
Qed.

Lemma fresh_lex_ok (sc sc' : Scanner) (t : Token) (l : string) :
  skipWS (String.length (rest sc)) (Scan sc) = (t, l, sc') ->
  lex_ok {| tok := t; lit := l |}.
Proof.
  intros H. split; simpl.
  - pose proof (pushback.scan_fresh_not_WS sc) as Hn. by rewrite H in Hn.
  - intros ->.
    pose proof (skipWS_from_Scan
                  (fun r => r.1.1 = Number ->
                            r.1.2 <> "" /\ all_chars isDigit r.1.2 = true)) as HP.
    specialize (HP ltac:(intros sc0; destruct (Scan sc0) as [[t0 l0] sc1] eqn:E;
                         simpl; intros ->; by eapply Scan_number_text)).
    specialize (HP (String.length (rest sc)) (Scan sc)).
    rewrite H in HP. apply HP; [|done].
    destruct (Scan sc) as [[t0 l0] sc1] eqn:E. simpl. intros ->.
    by eapply Scan_number_text.
Qed.

Lemma tidy_NewParser (text : string) : tidy (NewParser text).
Proof.
  split; [apply parser_total.good_NewParser|].
  unfold NewParser. cbn [buf]. apply Forall_replicate.
  split; simpl; discriminate.
Qed.

Lemma scan_tidy (p p' : Parser) (t : Token) (l : string) :
  tidy p -> scan p = (t, l, p') ->
  tidy p' /\ lex_ok {| tok := t; lit := l |}.
Proof.
  intros [Hg Hb] H.
  destruct (parser_total.scan_to_read _ _ _ _ Hg H) as (Hg' & _).
  destruct Hg as [Hr _].
  destruct (pushback.scan_spec _ _ _ _ Hr H) as (_ & _ & _ & Hslot & Hc).
  assert (Forall lex_ok (buf p')) as Hb'.
  { destruct Hc as [(_ & _ & -> & _)|(_ & _ & Hother & Hfresh)]; [done|].
    apply Forall_lookup. intros j x Hx.
    destruct (decide (j = Z.to_nat (actual p))) as [->|Hj].
    - rewrite Hslot in Hx. injection Hx as <-. by eapply fresh_lex_ok.
    - rewrite Hother in Hx by done.
      rewrite Forall_lookup in Hb. by eapply Hb. }
  split; [by split|].
  rewrite Forall_lookup in Hb'. by eapply Hb'.
Qed.

Lemma unscan_tidy (p p' : Parser) (t : Token) (l : string) :
  tidy p -> scan p = (t, l, p') ->
  tidy (unscan p') /\ scan (unscan p') = (t, l, p').
Proof.
  intros Hp H. destruct (scan_tidy _ _ _ _ Hp H) as [[_ Hb] _].
  destruct Hp as [Hg _].
  destruct (parser_total.scan_unscan _ _ _ _ Hg H) as (Hg' & _ & Hre).
  split; [split; [done|exact Hb]|done].
Qed.

(** *** The statements the parser builds *)

Lemma forallb_snoc (f : Statement -> bool) (l : list Statement) (x : Statement) :
  forallb f l = true -> f x = true -> forallb f (l ++ [x]) = true.
Proof. intros Hl Hx. rewrite forallb_app. simpl. by rewrite Hl, Hx. Qed.

Lemma some_statement_found (r : PRes Statement) :
  statement_ok common r -> common_found (some_statement r).
Proof. by destruct r. Qed.

Lemma Atoi_pushed (l : string) (n : Z) :
  l <> "" /\ all_chars isDigit l = true -> Atoi l = inl n ->
  common (PushNumberStatement n) = true.
Proof.
  intros [_ Hd] Ha. destruct (Atoi_of_digits l n Hd Ha) as [H1 H2].
  simpl. apply andb_true_iff. split; by apply Z.leb_le.
Qed.

Lemma nested_shape (f : nat) :
  (forall p r, tidy p -> parseCommon f p = Some r -> common_found r) /\
  (forall p r, tidy p -> parseIfStatement f p = Some r ->
     statement_ok common r) /\
  (forall p B E i r, tidy p ->
     forallb common B = true -> forallb common E = true ->
     ifLoop f p B E i = Some r -> statement_ok common r) /\
  (forall p r, tidy p -> parseWhileStatement f p = Some r ->
     statement_ok common r) /\
  (forall p B r, tidy p -> forallb common B = true ->
     whileLoop f p B = Some r -> statement_ok common r).
Proof.
  induction f as [|n (IHc & IHi & IHil & IHw & IHwl)].
  { split; [|split; [|split; [|split]]]; intros; discriminate. }
  split; [|split; [|split; [|split]]].
  - intros p r Hp H. simpl in H.
    destruct (scan p) as [[t l] p1] eqn:E.
    destruct (scan_tidy _ _ _ _ Hp E) as [Hp1 [Hws Hnum]].
    simpl in Hws, Hnum.
    destruct (unscan_tidy _ _ _ _ Hp E) as [Hu Hre].
    unfold parsePushNumber, parseIdentifierCall, parseMathOperation,
      parseCompareOperation in H. rewrite ?Hre in H.
    destruct t; try (apply (inj Some) in H; subst r; by simpl).
    + (* Number *)
      destruct (Atoi l) as [nr|e] eqn:Ea; apply (inj Some) in H; subst r;
        [|done].
      split; [done|]. apply (Atoi_pushed l); [by apply Hnum|done].
    + (* Comment *)
      destruct (comment_body l); apply (inj Some) in H; by subst r.
    + (* If *)
      destruct (parseIfStatement n (unscan p1)) as [ri|] eqn:Ei; [|done].
      apply (inj Some) in H. subst r. apply some_statement_found.
      by apply (IHi (unscan p1)).
    + (* While *)
      destruct (parseWhileStatement n (unscan p1)) as [rw|] eqn:Ew; [|done].
      apply (inj Some) in H. subst r. apply some_statement_found.
      by apply (IHw (unscan p1)).
  - intros p r Hp H. simpl in H.
    destruct (scan p) as [[t l] p1] eqn:E.
    destruct (scan_tidy _ _ _ _ Hp E) as [Hp1 _].
    by apply (IHil p1 [] [] false).
  - intros p B E i r Hp HB HE H. simpl in H.
    destruct (parseCommon n p) as [[[st|] p1|msg|msg]|] eqn:Ec;
      try discriminate; try (apply (inj Some) in H; by subst r).
    + destruct (IHc p _ Hp Ec) as [Hp1 Hst].
      destruct i.
      * apply (IHil p1 B (E ++ [st]) true); [done|done| |done].
        by apply forallb_snoc.
      * apply (IHil p1 (B ++ [st]) E false); [done| |done|done].
        by apply forallb_snoc.
    + pose proof (IHc p _ Hp Ec) as Hp1. simpl in Hp1.
      destruct (scan p1) as [[t l] p2] eqn:E2.
      destruct (scan_tidy _ _ _ _ Hp1 E2) as [Hp2 _].
      destruct t; try (apply (inj Some) in H; by subst r).
      * (* Else *)
        destruct i; [apply (inj Some) in H; by subst r|].
        by apply (IHil p2 B E true).
      * (* Then *)
        apply (inj Some) in H. subst r. split; [done|].
        simpl. by rewrite HB, HE.
  - intros p r Hp H. simpl in H.
    destruct (scan p) as [[t l] p1] eqn:E.
    destruct (scan_tidy _ _ _ _ Hp E) as [Hp1 _].
    by apply (IHwl p1 []).
  - intros p B r Hp HB H. simpl in H.
    destruct (parseCommon n p) as [[[st|] p1|msg|msg]|] eqn:Ec;
      try discriminate; try (apply (inj Some) in H; by subst r).
    + destruct (IHc p _ Hp Ec) as [Hp1 Hst].
      apply (IHwl p1 (B ++ [st])); [done| |done]. by apply forallb_snoc.
    + pose proof (IHc p _ Hp Ec) as Hp1. simpl in Hp1.
      destruct (scan p1) as [[t l] p2] eqn:E2.
      destruct (scan_tidy _ _ _ _ Hp1 E2) as [Hp2 _].
      destruct t; apply (inj Some) in H; by subst r.
Qed.

Lemma common_top_level (st : Statement) :
  common st = true -> top_level st = true.
Proof. by destruct st. Qed.

Lemma parseVariableDeclaration_shape (p1 p2 : Parser) (t : Token)
    (l : string) :
  tidy p1 -> scan p1 = (t, l, p2) -> t <> EOF ->
  statement_ok top_level (parseVariableDeclaration (unscan p2)).
Proof.
  intros Hp1 H Ht.
  pose proof (parser_total.parseVariableDeclaration_moved_on _ _ _ _
                (proj1 Hp1) H Ht) as Hm.
  destruct (unscan_tidy _ _ _ _ Hp1 H) as [_ Hre].
  destruct (scan_tidy _ _ _ _ Hp1 H) as [Hp2 _].
  revert Hm. unfold parseVariableDeclaration. rewrite Hre.
  destruct (scan p2) as [[t1 l1] pa] eqn:Ea.
  destruct (scan_tidy _ _ _ _ Hp2 Ea) as [Hpa _].
  destruct (negb _); [done|].
  destruct (scan pa) as [[t2 l2] pb] eqn:Eb.
  destruct (scan_tidy _ _ _ _ Hpa Eb) as [Hpb [_ Hnum]]. simpl in Hnum.
  destruct (scan pb) as [[t3 l3] pc] eqn:Ec.
  destruct (scan_tidy _ _ _ _ Hpb Ec) as [Hpc _].
  destruct (tok_eqb t2 Number && tok_eqb t3 Cells) eqn:Eq.
  - apply andb_true_iff in Eq as [Hn _]. unfold tok_eqb in Hn.
    apply bool_decide_eq_true in Hn. subst t2.
    destruct (Atoi l2) as [c|e] eqn:Ea2; [|done].
    destruct (c <=? 0) eqn:Ec0; [done|].
    intros _. split; [done|]. simpl.
    destruct (Atoi_of_digits l2 c (proj2 (Hnum eq_refl)) Ea2) as [_ Hmax].
    apply Z.leb_gt in Ec0.
    apply andb_true_iff. split; [by apply Z.ltb_lt | by apply Z.leb_le].
  - intros [Hg _]. split; [|done]. split; [done|]. exact (proj2 Hpc).
Qed.

Lemma funcLoop_shape (f : nat) :
  forall p name B r, tidy p -> forallb common B = true ->
    funcLoop f p name B = Some r -> statement_ok top_level r.
Proof.
  induction f as [|n IH]; intros p name B r Hp HB H; [discriminate|].
  simpl in H. destruct (nested_shape n) as (Hc & _).
  destruct (parseCommon n p) as [[[st|] p1|msg|msg]|] eqn:Ec;
    try discriminate; try (apply (inj Some) in H; by subst r).
  - destruct (Hc p _ Hp Ec) as [Hp1 Hst].
    apply (IH p1 name (B ++ [st])); [done| |done]. by apply forallb_snoc.
  - pose proof (Hc p _ Hp Ec) as Hp1. simpl in Hp1.
    destruct (scan p1) as [[t l] p2] eqn:E2.
    destruct (scan_tidy _ _ _ _ Hp1 E2) as [Hp2 _].
    destruct t; apply (inj Some) in H; by subst r.
Qed.

Lemma parseFunc_shape (f : nat) (p1 p2 : Parser) (t : Token) (l : string)
    (r : PRes Statement) :
  tidy p1 -> scan p1 = (t, l, p2) ->
  parseFunc f (unscan p2) = Some r -> statement_ok top_level r.
Proof.
  intros Hp1 H.
  destruct (unscan_tidy _ _ _ _ Hp1 H) as [_ Hre].
  destruct (scan_tidy _ _ _ _ Hp1 H) as [Hp2 _].
  unfold parseFunc. rewrite Hre.
  destruct (scan p2) as [[t1 l1] p3] eqn:E3.
  destruct (scan_tidy _ _ _ _ Hp2 E3) as [Hp3 _].
  destruct (negb _).
  - intros Hr. apply (inj Some) in Hr. by subst r.
  - by apply funcLoop_shape.
Qed.

Lemma parseProgram_shape (f : nat) :
  forall p prog r, tidy p -> forallb top_level prog = true ->
    parseProgram f p prog = Some r -> program_ok r.
Proof.
  induction f as [|n IH]; intros p prog r Hp Hprog H; [discriminate|].
  simpl in H. destruct (nested_shape n) as (Hc & _).
  destruct (parseCommon n p) as [[[st|] p1|msg|msg]|] eqn:Ec;
    try discriminate; try (apply (inj Some) in H; by subst r).
  - destruct (Hc p _ Hp Ec) as [Hp1 Hst].
    apply (IH p1 (prog ++ [st])); [done| |done].
    rewrite forallb_app. simpl. by rewrite Hprog, (common_top_level st Hst).
  - pose proof (Hc p _ Hp Ec) as Hp1. simpl in Hp1.
    destruct (scan p1) as [[t l] p2] eqn:E2.
    destruct (scan_tidy _ _ _ _ Hp1 E2) as [Hp2 _].
    destruct t; try (apply (inj Some) in H; by subst r).
    + (* Variable *)
      pose proof (parseVariableDeclaration_shape _ _ _ _ Hp1 E2 ltac:(done))
        as Hv.
      destruct (parseVariableDeclaration (unscan p2)) as [st p3|msg|msg];
        try (apply (inj Some) in H; by subst r).
      destruct Hv as [Hp3 Hst].
      apply (IH p3 (prog ++ [st])); [done| |done].
      rewrite forallb_app. simpl. by rewrite Hprog, Hst.
    + (* StartFunc *)
      destruct (parseFunc n (unscan p2)) as [[st p3|msg|msg]|] eqn:Ef;
        try discriminate; try (apply (inj Some) in H; by subst r).
      destruct (parseFunc_shape _ _ _ _ _ _ Hp1 E2 Ef) as [Hp3 Hst].
      apply (IH p3 (prog ++ [st])); [done| |done].
      rewrite forallb_app. simpl. by rewrite Hprog, Hst.
Qed.

(** X17.  What the parser reads is never whitespace: [scan] skips it, also
    when the token comes back from the buffer, and a number it reads is
    written in decimal digits.  This holds from the new parser on, at every
    state the parsing methods reach. *)
Theorem scan_skips_whitespace (p p' : Parser) (t : Token) (l : string) :
  tidy p -> scan p = (t, l, p') ->
  t <> WS /\ (t = Number -> l <> "" /\ all_chars isDigit l = true) /\ tidy p'.
Proof.
  intros Hp H. destruct (scan_tidy _ _ _ _ Hp H) as [Hp' [Hws Hnum]].
  by split; [|split].
Qed.

Lemma scan_skips_whitespace_witness :
  tidy (NewParser "   7") /\
  scan (NewParser "   7") = (Number, "7", scanned (NewParser "   7")) /\
  Number <> WS /\
  (Number = Number -> "7" <> "" /\ all_chars isDigit "7" = true) /\
  tidy (scanned (NewParser "   7")).
Proof.
  assert (scan (NewParser "   7") = (Number, "7", scanned (NewParser "   7")))
    as H by (vm_compute; reflexivity).
  split; [apply tidy_NewParser|]. split; [exact H|].
  exact (scan_skips_whitespace _ _ _ _ (tidy_NewParser "   7") H).
Defined.

(** X18.  A token pushed back is the next one read: after [scan] and then
    [unscan], [scan] hands out the same token and leaves the same parser as
    the first time. *)
Theorem unscan_gives_token_back (p p' : Parser) (t : Token) (l : string) :
  good p -> scan p = (t, l, p') ->
  good (unscan p') /\ scan (unscan p') = (t, l, p').
Proof.
  intros Hp H.
  destruct (parser_total.scan_unscan _ _ _ _ Hp H) as (Hg & _ & Hre).
  by split.
Qed.

Lemma unscan_gives_token_back_witness :
  good declaration_input /\
  scan declaration_input = (Variable_, "VARIABLE", scanned declaration_input) /\
  scan (unscan (scanned declaration_input))
  = (Variable_, "VARIABLE", scanned declaration_input).
Proof.
  assert (scan declaration_input
          = (Variable_, "VARIABLE", scanned declaration_input)) as H
    by (vm_compute; reflexivity).
  split; [apply parser_total.good_NewParser|]. split; [exact H|].
  exact (proj2 (unscan_gives_token_back _ _ _ _
                  (parser_total.good_NewParser "VARIABLE x 3 5") H)).
Defined.

(** X19.  When [parseCommon] finds no statement it has read nothing: the
    next token is the one that was next before, and it is none with which a
    common statement starts. *)
Theorem parseCommon_only_looks (f : nat) (p p' : Parser) :
  tidy p -> parseCommon f p = Some (Ok None p') ->
  scan p' = scan p /\ starts_common (scan p).1.1 = false.
Proof.
  intros Hp H. destruct f as [|n]; [discriminate|]. simpl in H.
  destruct (scan p) as [[t l] p1] eqn:E.
  destruct (unscan_tidy _ _ _ _ Hp E) as [_ Hre].
  unfold parsePushNumber, parseIdentifierCall, parseMathOperation,
    parseCompareOperation in H. rewrite ?Hre in H.
  destruct t; simpl;
    try (apply (inj Some) in H; injection H as <-; by split);
    try (apply (inj Some) in H; discriminate).
  - destruct (Atoi l); apply (inj Some) in H; discriminate.
  - destruct (comment_body l); apply (inj Some) in H; discriminate.
  - destruct (parseIfStatement n (unscan p1)) as [[]|]; discriminate.
  - destruct (parseWhileStatement n (unscan p1)) as [[]|]; discriminate.
Qed.

Lemma parseCommon_only_looks_witness :
  tidy (NewParser "THEN 1") /\
  parseCommon 1 (NewParser "THEN 1")
  = Some (Ok None (unscan (scanned (NewParser "THEN 1")))) /\
  scan (unscan (scanned (NewParser "THEN 1"))) = scan (NewParser "THEN 1").
Proof.
  assert (parseCommon 1 (NewParser "THEN 1")
          = Some (Ok None (unscan (scanned (NewParser "THEN 1"))))) as H
    by (vm_compute; reflexivity).
  split; [apply tidy_NewParser|]. split; [exact H|].
  exact (proj1 (parseCommon_only_looks _ _ _ (tidy_NewParser "THEN 1") H)).
Defined.

(** X20.  The parser comes to an end on every text, and what it hands on
    is an error, a panic, or a program of the grammar: declarations of at
    least one cell and functions stand at the top level only, the bodies of
    functions, If and While hold common statements only, no number is
    negative, and every operator is one of its kind. *)
Theorem Parse_ends_with_a_program (text : string) :
  exists f0 r,
    settles (fun f => Parse f (NewParser text)) f0 r /\ program_ok r.
Proof.
  destruct (parser_total.parseProgram_total
              (S (to_read (NewParser text))) (NewParser text) []
              (parser_total.good_NewParser text) ltac:(lia)) as (f0 & r & Hr).
  exists f0, r. split; [exact Hr|].
  apply (parseProgram_shape f0 (NewParser text) [] r);
    [apply tidy_NewParser | done | by apply Hr].
Qed.

End parsed.

(** ** Comments and words *)

Module scanned_text.

Import lexer parser.

Local Arguments String.append !_ _ / : simpl nomatch.

Lemma append_snoc (a b : string) (c : ascii) :
  (a +:+ String c "") +:+ b = a +:+ String c b.
Proof. induction a as [|x a IH]; simpl; congruence. Qed.

Lemma append_empty (a : string) : a +:+ "" = a.
Proof. induction a as [|x a IH]; simpl; congruence. Qed.

Lemma length_append (a b : string) :
  String.length (a +:+ b) = (String.length a + String.length b)%nat.
Proof. induction a as [|x a IH]; simpl; congruence. Qed.

Lemma substring_front (a b : string) :
  String.substring 0 (String.length a) (a +:+ b) = a.
Proof.
  induction a as [|x a IH]; simpl; [by destruct b|]. congruence.
Qed.

Lemma commentLoop_closed (b tail buf : string) :
  all_chars in_comment b = true ->
  commentLoop (b +:+ String ")" tail) buf
  = (buf +:+ b +:+ ")", {| rest := tail; last := Some ")"%char |}).
Proof.
  revert buf. induction b as [|c b IH]; intros buf Hb; simpl; [done|].
  simpl in Hb. apply andb_true_iff in Hb as [Hc Hb].
  unfold in_comment in Hc. apply andb_true_iff in Hc as [Hc1 Hc2].
  apply negb_true_iff in Hc1, Hc2. rewrite Hc1, Hc2.
  rewrite IH by done. by rewrite append_snoc.
Qed.


Lemma Scan_comment (sc : Scanner) (r : string) :
  rest sc = String "(" r ->
  Scan sc = let (buf, s2) := commentLoop r "(" in (lexer.Comment, buf, s2).
Proof.
  intros Hr. unfold Scan, read. rewrite Hr. by vm_compute.
Qed.

Lemma scan_fresh_comment (text l : string) (sc : Scanner) :
  Scan (NewScanner text) = (lexer.Comment, l, sc) ->
  scan (NewParser text)
  = (lexer.Comment, l, scanned (NewParser text)) /\
  parseCommon 1 (NewParser text)
  = Some (match comment_body l with
          | Some b => Ok (Some (Comment b)) (scanned (NewParser text))
          | None => Panic "slice bounds out of range"
          end).
Proof.
  intros H.
  assert (scan (NewParser text) = (lexer.Comment, l, scanned (NewParser text))) as E.
  { assert ((scan (NewParser text)).1 = (lexer.Comment, l)) as Hs.
    { unfold scan.
      change (negb (actual (NewParser text) =? latest (NewParser text)))
        with false.
      cbv beta iota. change (s (NewParser text)) with (NewScanner text).
      rewrite H. by destruct (String.length (rest (NewScanner text))). }
    unfold scanned. destruct (scan (NewParser text)) as [[t0 l0] p0].
    simpl in *. by injection Hs as -> ->. }
  split; [done|]. cbn [parseCommon]. rewrite E. by destruct (comment_body l).
Qed.

(** X21.  A closed comment is kept as written: the token has the text from
    the opening to the closing parenthesis, the scanner stands behind the
    closing parenthesis, and the statement parsed from it has the text in
    between as its body. *)
Theorem closed_comment_is_kept (b tail : string) :
  all_chars in_comment b = true ->
  Scan (NewScanner ("(" +:+ b +:+ String ")" tail))
  = (lexer.Comment, "(" +:+ b +:+ ")", {| rest := tail; last := Some ")"%char |}) /\
  parseCommon 1 (NewParser ("(" +:+ b +:+ String ")" tail))
  = Some (Ok (Some (Comment b))
            (scanned (NewParser ("(" +:+ b +:+ String ")" tail)))).
Proof.
  intros Hb.
  assert (Scan (NewScanner ("(" +:+ b +:+ String ")" tail))
          = (lexer.Comment, "(" +:+ b +:+ ")",
             {| rest := tail; last := Some ")"%char |})) as H.
  { rewrite (Scan_comment _ (b +:+ String ")" tail)) by done.
    by rewrite commentLoop_closed. }
  split; [done|].
  destruct (scan_fresh_comment _ _ _ H) as [_ ->].
  assert (comment_body ("(" +:+ b +:+ ")") = Some b) as ->; [|done].
  unfold comment_body. simpl. rewrite length_append. simpl.
  replace (String.length b + 1 - 1)%nat with (String.length b) by lia.
  rewrite substring_front.
  destruct (_ <? _)%nat eqn:El; [|done]. apply Nat.ltb_lt in El. lia.
Qed.

Lemma closed_comment_is_kept_witness :
  all_chars in_comment "debug stack" = true /\
  parseCommon 1 (NewParser "(debug stack) 1")
  = Some (Ok (Some (Comment "debug stack"))
            (scanned (NewParser "(debug stack) 1"))).
Proof.
  split; [reflexivity|].
  exact (proj2 (closed_comment_is_kept "debug stack" " 1" eq_refl)).
Defined.



(** *** Words *)

Local Ltac every_rune c :=
  destruct c as [[] [] [] [] [] [] [] []]; vm_compute;
  try reflexivity; try discriminate; intros; try reflexivity; try discriminate.

Lemma letter_starts_word (c : ascii) :
  isLetter c = true ->
  isWhitespace c = false /\ isDigit c = false /\ ascii_eqb c "-" = false.
Proof. every_rune c; by repeat split. Qed.

Lemma identRune_not_eof (c : ascii) :
  identRune c = true -> ascii_eqb c eof = false.
Proof. every_rune c. Qed.

Lemma isLetter_upper (c : ascii) : isLetter (upper_char c) = isLetter c.
Proof. every_rune c. Qed.

Lemma identRune_upper (c : ascii) : identRune (upper_char c) = identRune c.
Proof. every_rune c. Qed.

Lemma upper_upper (c : ascii) : upper_char (upper_char c) = upper_char c.
Proof. every_rune c. Qed.

Lemma ToUpper_ToUpper (w : string) : ToUpper (ToUpper w) = ToUpper w.
Proof.
  induction w as [|c w IH]; simpl; [done|]. by rewrite upper_upper, IH.
Qed.

Lemma all_identRune_upper (w : string) :
  all_chars identRune (ToUpper w) = all_chars identRune w.
Proof.
  induction w as [|c w IH]; simpl; [done|]. by rewrite identRune_upper, IH.
Qed.

Lemma word_upper (w : string) : word (ToUpper w) = word w.
Proof.
  destruct w as [|c w]; simpl; [done|].
  by rewrite isLetter_upper, all_identRune_upper.
Qed.

Lemma scanLoop_word (w tail buf : string) :
  all_chars identRune w = true -> ends_word tail = true ->
  fst (scanLoop identRune (w +:+ tail) buf) = buf +:+ w.
Proof.
  revert buf. induction w as [|c w IH]; intros buf Hw Ht; simpl.
  - rewrite append_empty. destruct tail as [|c tl]; simpl; [done|].
    simpl in Ht. rewrite Ht. by destruct (ascii_eqb c eof).
  - simpl in Hw. apply andb_true_iff in Hw as [Hc Hw].
    rewrite (identRune_not_eof c Hc), Hc. simpl.
    rewrite IH by done. by rewrite append_snoc.
Qed.

Lemma Scan_word (w tail : string) :
  word w = true -> ends_word tail = true ->
  (Scan (NewScanner (w +:+ tail))).1
  = (default Ident (keyword (ToUpper w)), w).
Proof.
  intros Hw Ht. destruct w as [|c w]; [done|]. simpl in Hw.
  apply andb_true_iff in Hw as [Hc Hw].
  destruct (letter_starts_word c Hc) as (H1 & H2 & H3).
  unfold Scan, NewScanner, read. simpl. rewrite H1, H2, H3, Hc.
  unfold scanIdent, unread, read. simpl.
  pose proof (scanLoop_word w tail (String c "") Hw Ht) as Hl.
  destruct (scanLoop identRune (w +:+ tail) (String c "")) as [buf s2].
  simpl in Hl. subst buf. change (ToUpper (String c w)) with
    (String (upper_char c) (ToUpper w)).
  by destruct (keyword _).
Qed.

(** X23.  Keywords are known in any case and keep their spelling: a word
    gives the token of its upper-case spelling (an identifier when that is
    no keyword), with the word as written as its text. *)
Theorem keyword_in_any_case (w tail : string) :
  word w = true -> ends_word tail = true ->
  (Scan (NewScanner (w +:+ tail))).1.2 = w /\
  (Scan (NewScanner (w +:+ tail))).1.1
  = (Scan (NewScanner (ToUpper w +:+ tail))).1.1.
Proof.
  intros Hw Ht.
  rewrite (Scan_word w tail Hw Ht).
  rewrite (Scan_word (ToUpper w) tail) by (by rewrite ?word_upper).
  simpl. by rewrite ToUpper_ToUpper.
Qed.

Lemma keyword_in_any_case_witness :
  word "Swap" = true /\ ends_word " 1" = true /\
  (Scan (NewScanner "Swap 1")).1.2 = "Swap" /\
  (Scan (NewScanner "Swap 1")).1.1 = (Scan (NewScanner "SWAP 1")).1.1.
Proof.
  split; [reflexivity|]. split; [reflexivity|].
  exact (keyword_in_any_case "Swap" " 1" eq_refl eq_refl).
Defined.

(** X24.  The scanner never stands still: a token takes at least one rune
    of the input unless it is [EOF], and no token gives input back. *)
Theorem Scan_takes_input (sc sc' : Scanner) (t : Token) (l : string) :
  Scan sc = (t, l, sc') ->
  (String.length (rest sc') <= String.length (rest sc))%nat /\
  (t <> EOF -> (String.length (rest sc') < String.length (rest sc))%nat).
Proof. apply parser_total.Scan_shorter. Qed.

Lemma Scan_takes_input_witness :
  Scan (NewScanner "<= 2") = (LTE, "<=", {| rest := " 2"; last := Some "="%char |}) /\
  (String.length " 2" <= String.length "<= 2")%nat /\
  (LTE <> EOF -> (String.length " 2" < String.length "<= 2")%nat).
Proof.
  assert (Scan (NewScanner "<= 2")
          = (LTE, "<=", {| rest := " 2"; last := Some "="%char |})) as H
    by (vm_compute; reflexivity).
  split; [exact H|]. exact (Scan_takes_input _ _ _ _ H).
Defined.

End scanned_text.

(** ** Statements one after the other *)

Module sequence.

Import parser runner.

Lemma execSeq_app (ex : Statement -> Machine -> option Exit)
    (a b : list Statement) :
  forall m,
    execSeq ex (a ++ b) m
    = match execSeq ex a m with
      | Some (Returns None m') => execSeq ex b m'
      | r => r
      end.
Proof.
  induction a as [|st a IH]; intros m; simpl; [done|].
  destruct (ex st m) as [[[e|] m1|msg]|]; done.
Qed.

(** X25.  A program is executed from left to right and the first error
    ends it: the statements [a ++ b] are executed as [a] and then, when [a]
    returned no error, [b] on the machine that [a] left; after an error or
    a panic in [a] nothing of [b] is executed. *)
Theorem program_runs_in_sequence (n : nat) (a b : list Statement)
    (m : Machine) :
  exec (S n) (Program (a ++ b)) m
  = match exec (S n) (Program a) m with
    | Some (Returns None m') => exec (S n) (Program b) m'
    | r => r
    end.
Proof. cbn [exec]. apply execSeq_app. Qed.

(** X26.  Quit ends nothing: a body with a Quit in it is executed exactly
    as the body without it, the statements after the Quit included.  This
    holds for every body, of a program, a function, an If or a While. *)
Theorem quit_does_not_stop (n : nat) (a b : list Statement) (m : Machine) :
  execSeq (exec (S n)) (a ++ QuitStatement :: b) m
  = execSeq (exec (S n)) (a ++ b) m /\
  exec (S (S n)) (Program (a ++ QuitStatement :: b)) m
  = exec (S (S n)) (Program (a ++ b)) m.
Proof.
  assert (execSeq (exec (S n)) (a ++ QuitStatement :: b) m
          = execSeq (exec (S n)) (a ++ b) m) as H.
  { rewrite !execSeq_app.
    destruct (execSeq (exec (S n)) a m) as [[[e|] m1|msg]|]; done. }
  split; [exact H|]. cbn [exec]. exact H.
Qed.

End sequence.
